(** * PharaGlow [features.py]: a shallow embedding and its properties

    The module [pharaglow/features.py] is a chain of array computations on
    top of numpy, scipy and scikit-image.  The embedding below follows the
    source function by function.

    - Arrays of shape (N,) are lists, arrays of shape (N,2) are lists of
      pairs, arrays of shape (N,2,2) are lists of pairs of pairs and images
      are lists of rows.
    - Python exceptions are the [Raise] branch of [result].
    - The arithmetic of the array elements is a type class, [Scalar], with
      two instances: [binary64], the IEEE doubles numpy computes with,
      executable, with NaN and the infinities; and [real], exact real
      arithmetic without rounding, overflow or NaN.  What the program
      returns is stated on [binary64] or for every instance; a statement
      on [real] says so ("in exact arithmetic") and describes the formula
      that the program evaluates, not its rounded result.
    - Routines of scipy and scikit-image that the module only calls
      ([curve_fit], [linkage], [leaves_list], [profile_line]) and the
      tie order of [np.argsort] are parameters of the functions that use
      them.  The numpy routines are modelled after numpy's documentation
      and loops ([linspace], [arange], [norm], [minimum], [argmin],
      [argmax], [interp], [concatenate], broadcasting).
    - [gradientPharynx] is a chain of scikit-image filters and is not
      embedded. *)

From Stdlib Require Import Floats.
From Stdlib Require Import ZArith List Bool Lia Permutation Sorted.
From Stdlib Require Import Reals Lra.
Import ListNotations.

Set Implicit Arguments.

(** ** Python results *)

Module Py.

(** The exceptions that the modelled code paths can raise (all of them come
    from numpy, scipy or from indexing), and the error taxonomy of the
    specification, which the source never raises. *)
Inductive exn : Type :=
| IndexError
| ValueError
| EmptySkeletonError
| FitConvergenceError
| ContourNotFoundError
| DegenerateNormalError
| DegenerateWidthError.

Inductive result (A : Type) : Type :=
| Ok (a : A)
| Raise (e : exn).

Arguments Ok {A} a.
Arguments Raise {A} e.

Definition bind {A B : Type} (r : result A) (k : A -> result B) : result B :=
  match r with
  | Ok a => k a
  | Raise e => Raise e
  end.

(** [[f(x) for x in l]] where [f] may raise: the first exception wins. *)
Fixpoint mapM {A B : Type} (f : A -> result B) (l : list A) : result (list B) :=
  match l with
  | [] => Ok []
  | a :: l' =>
      bind (f a) (fun b => bind (mapM f l') (fun bs => Ok (b :: bs)))
  end.

(** [p[i]] on a tuple, list or 1-d array. *)
Definition getitem {A : Type} (l : list A) (i : nat) : result A :=
  match nth_error l i with
  | Some a => Ok a
  | None => Raise IndexError
  end.

End Py.
Import Py.

Declare Scope py_scope.
Delimit Scope py_scope with py.
Notation "x <- c ;; k" := (bind c (fun x => k))
  (at level 61, c at next level, right associativity) : py_scope.
Notation "' pat <- c ;; k" := (bind c (fun x => match x with pat => k end))
  (at level 61, pat pattern, c at next level, right associativity) : py_scope.
Open Scope py_scope.

(** ** Array elements *)

(** The operations numpy applies to array elements.  [fltb], [fleb] and
    [feqb] are the comparisons [<], [<=] and [==]; on doubles every
    comparison with a NaN is false. *)
Class Scalar (F : Type) : Type := {
  of_Z : Z -> F;
  fadd : F -> F -> F;
  fsub : F -> F -> F;
  fmul : F -> F -> F;
  fdiv : F -> F -> F;
  fsqrt : F -> F;
  fltb : F -> F -> bool;
  fleb : F -> F -> bool;
  feqb : F -> F -> bool;
  fis_nan : F -> bool
}.

Declare Scope sc_scope.
Delimit Scope sc_scope with sc.
Infix "+" := fadd : sc_scope.
Infix "-" := fsub : sc_scope.
Infix "*" := fmul : sc_scope.
Infix "/" := fdiv : sc_scope.

(** Conversion of a Python int to a double: the nearest double, ties to
    even, exact up to 2^53.  Where the nearest value is an infinity (from
    2^1024 - 2^970 on) Python raises OverflowError instead. *)
Definition float_of_Z (z : Z) : float :=
  SF2Prim (binary_normalize prec emax z 0 false).

#[export] Instance binary64 : Scalar float := {
  of_Z := float_of_Z;
  fadd := PrimFloat.add;
  fsub := PrimFloat.sub;
  fmul := PrimFloat.mul;
  fdiv := PrimFloat.div;
  fsqrt := PrimFloat.sqrt;
  fltb := PrimFloat.ltb;
  fleb := PrimFloat.leb;
  feqb := PrimFloat.eqb;
  fis_nan := PrimFloat.is_nan
}.

Definition Rltb (x y : R) : bool := if Rlt_dec x y then true else false.
Definition Rleb (x y : R) : bool := if Rle_dec x y then true else false.
Definition Reqb (x y : R) : bool := if Req_dec_T x y then true else false.

#[export] Instance real : Scalar R := {
  of_Z := IZR;
  fadd := Rplus;
  fsub := Rminus;
  fmul := Rmult;
  fdiv := Rdiv;
  fsqrt := R_sqrt.sqrt;
  fltb := Rltb;
  fleb := Rleb;
  feqb := Reqb;
  fis_nan := fun _ => false
}.

(** ** numpy on lists *)

Section Numpy.
Context {F : Type} {SF : Scalar F}.
Local Open Scope sc_scope.

(** A point of the plane, a row of an array of shape (N,2). *)
Local Abbreviation point := (F * F)%type.

(** [x**2] on an array of doubles is the element-wise square. *)
Definition sq (x : F) : F := x * x.

(** [np.c_[a, b]] for two 1-d arrays of one length: the rows [(a[i], b[i])]. *)
Definition c_ (a b : list F) : list point := combine a b.

(** [np.linspace(start, stop, num)]: [num] samples, the last one set to
    [stop]; numpy scales the indices by [step = (stop - start) / (num - 1)],
    or divides first when that step is zero.  A negative [num] raises
    ValueError. *)
Definition linspace (start stop : F) (num : Z) : result (list F) :=
  if (num <? 0)%Z then Raise ValueError
  else
    let n := Z.to_nat num in
    let div := (num - 1)%Z in
    let delta := stop - start in
    let idx := map (fun i => of_Z (Z.of_nat i)) (seq 0 n) in
    let y :=
      if (0 <? div)%Z then
        let step := delta / of_Z div in
        if feqb step (of_Z 0)
        then map (fun i => (i / of_Z div) * delta) idx
        else map (fun i => i * step) idx
      else map (fun i => i * delta) idx in
    let y := map (fun v => v + start) y in
    Ok (if (1 <? num)%Z then removelast y ++ [stop] else y).

(** [np.arange(-width, width)] for a Python int [width]. *)
Definition arange_int (width : Z) : list Z :=
  map (fun i => (- width + Z.of_nat i)%Z) (seq 0 (Z.to_nat (2 * width))).

(** [np.arange(-n/2, n/2)] for [n = len(ky)]: true division makes the
    bounds doubles, the array has [n] entries [start + i * delta] with
    [delta = (start + 1) - start]. *)
Definition arange_half (n : nat) : list F :=
  let start := of_Z (- Z.of_nat n) / of_Z 2 in
  let delta := (start + of_Z 1) - start in
  map (fun i => start + of_Z (Z.of_nat i) * delta) (seq 0 n).

(** [numpy.linalg.norm] along an axis of length two:
    [sqrt(add.reduce(x * x))]. *)
Definition norm2 (v : point) : F := fsqrt (fst v * fst v + snd v * snd v).

(** [np.minimum(a, b)]: [a] when [a <= b] or [a] is NaN, else [b]. *)
Definition minimum (a b : F) : F := if fleb a b || fis_nan a then a else b.

(** [np.min] of a 1-d array: a left fold of [minimum]; ValueError on an
    empty array (the reduction has no identity). *)
Definition np_min (l : list F) : result F :=
  match l with
  | [] => Raise ValueError
  | a :: l' => Ok (fold_left minimum l' a)
  end.

(** The scan of [np.argmin]: [mp] is the least value so far, at index [mi];
    [i] is the index of the head of [l].  An element replaces the minimum
    when [not (x >= mp)], and a NaN ends the scan. *)
Fixpoint argmin_from (mp : F) (mi i : nat) (l : list F) : nat :=
  match l with
  | [] => mi
  | x :: l' =>
      if negb (fleb mp x)
      then if fis_nan x then i else argmin_from x i (S i) l'
      else argmin_from mp mi (S i) l'
  end.

(** [np.argmin] of a 1-d array: the first index of the least value, the
    first NaN if there is one; ValueError on an empty array. *)
Definition argmin (l : list F) : result nat :=
  match l with
  | [] => Raise ValueError
  | x :: l' => Ok (if fis_nan x then 0%nat else argmin_from x 0 1 l')
  end.

(** The scan of [np.argmax]: an element replaces the maximum when
    [not (x <= mp)]. *)
Fixpoint argmax_from (mp : F) (mi i : nat) (l : list F) : nat :=
  match l with
  | [] => mi
  | x :: l' =>
      if negb (fleb x mp)
      then if fis_nan x then i else argmax_from x i (S i) l'
      else argmax_from mp mi (S i) l'
  end.

Definition argmax (l : list F) : result nat :=
  match l with
  | [] => Raise ValueError
  | x :: l' => Ok (if fis_nan x then 0%nat else argmax_from x 0 1 l')
  end.

(** [np.interp] at one abscissa [x], to the right of [x0]: the segment
    [x0 <= x < x1] is interpolated linearly, and [fp[-1]] is returned past
    the last sample point. *)
Fixpoint interp_right (x x0 f0 : F) (rest : list point) : F :=
  match rest with
  | [] => f0
  | (x1, f1) :: rest' =>
      if fltb x x1
      then if feqb x x0 then f0
           else ((f1 - f0) / (x1 - x0)) * (x - x0) + f0
      else interp_right x x1 f1 rest'
  end.

(** [np.interp(x, xp, fp)]: the piecewise linear interpolant through
    [(xp, fp)] at every entry of [x], [fp[0]] to the left of [xp[0]].  The
    result has the length of [x].  ValueError when [xp] is empty or [fp]
    has another length. *)
Definition interp (x xp fp : list F) : result (list F) :=
  if negb (length xp =? length fp)%nat then Raise ValueError
  else
    match combine xp fp with
    | [] => Raise ValueError
    | (x0, f0) :: rest =>
        Ok (map (fun t =>
                   if fis_nan t then t
                   else if fltb t x0 then f0
                   else interp_right t x0 f0 rest) x)
    end.

(** [np.concatenate] of a list of 1-d arrays; ValueError on an empty list. *)
Definition concatenate (arrays : list (list F)) : result (list F) :=
  match arrays with
  | [] => Raise ValueError
  | _ => Ok (concat arrays)
  end.

(** The shape of [np.array(rows)] for a list of 1-d arrays of one length:
    [(len(rows), len(rows[0]))], and [(0,)] for an empty list. *)
Definition np_shape (rows : list (list F)) : list nat :=
  match rows with
  | [] => [0%nat]
  | r :: _ => [length rows; length r]
  end.

(** Broadcasting of two arrays of shapes (N,2) and (N',2) along their first
    axis: the lengths agree, or one of them is 1. *)
Definition broadcast (a b : list point) : result (list (point * point)) :=
  if (length a =? length b)%nat then Ok (combine a b)
  else
    match a, b with
    | [a0], _ => Ok (map (fun y => (a0, y)) b)
    | _, [b0] => Ok (map (fun x => (x, b0)) a)
    | _, _ => Raise ValueError
    end.

(** [np.where(skeleton)] followed by [np.c_]: the (row, column) pairs of the
    true pixels, in row-major order. *)
Definition np_where (skeleton : list (list bool)) : list (nat * nat) :=
  concat
    (map (fun '(r, row) =>
            map (fun '(c, _) => (r, c))
                (filter (fun cb => snd cb) (combine (seq 0 (length row)) row)))
         (combine (seq 0 (length skeleton)) skeleton)).

(** A sort of the indices by insertion, stable: one of the orders
    [np.argsort] may return (its default sort leaves the order of ties
    open). *)
Fixpoint insert_by (key : nat -> F) (i : nat) (l : list nat) : list nat :=
  match l with
  | [] => [i]
  | j :: l' => if fltb (key i) (key j) then i :: l else j :: insert_by key i l'
  end.

Definition argsort_stable (a : list F) : list nat :=
  fold_right (insert_by (fun i => nth i a (of_Z 0))) [] (seq 0 (length a)).

End Numpy.

(** ** features.py *)

Section Features.
Context {F : Type} {SF : Scalar F}.
Local Open Scope sc_scope.

Local Abbreviation point := (F * F)%type.

(** [pharynxFunc(x, *p, deriv=0)], lines 53-57.  [x] is an array, [p] the
    tuple of coefficients; [p[i]] raises IndexError on a short tuple, and any
    [deriv] other than 1 selects the value. *)
Definition pharynxFunc (x : list F) (p : list F) (deriv : Z) : result (list F) :=
  if (deriv =? 1)%Z then
    p1 <- getitem p 1 ;;
    p2 <- getitem p 2 ;;
    Ok (map (fun t => p1 + (of_Z 2 * p2) * t) x)
  else
    p0 <- getitem p 0 ;;
    p1 <- getitem p 1 ;;
    p2 <- getitem p 2 ;;
    Ok (map (fun t => (p0 + p1 * t) + p2 * sq t) x).

(** [sortSkeleton(skeleton)], lines 42-50.  scipy's [linkage] (average
    linkage, cityblock metric, optimal ordering) and [leaves_list] are
    parameters; [Dendrogram] is the type of the linkage matrix. *)
Section SortSkeleton.
Variable Dendrogram : Type.
Variable linkage : list (nat * nat) -> result Dendrogram.
Variable leaves_list : Dendrogram -> result (list nat).

Definition sortSkeleton (skeleton : list (list bool)) : result (list nat) :=
  let pts := np_where skeleton in
  Z <- linkage pts ;;
  leaves_list Z.

End SortSkeleton.

(** [fitSkeleton(ptsX, ptsY)], lines 60-69.  scipy's [curve_fit] is a
    parameter: it takes the model function, the abscissae, the data and the
    initial guess [p0], and returns the optimum and its covariance. *)
Section FitSkeleton.
Variable Cov : Type.
Variable curve_fit :
  (list F -> list F -> result (list F)) -> list F -> list F -> list F ->
  result (list F * Cov).

Definition fitSkeleton (ptsX ptsY : list F) : result (list F * list F) :=
  let nP := length ptsX in
  let x := map (fun i => of_Z (Z.of_nat i)) (seq 0 nP) in
  let p0 := [of_Z 1; of_Z 1; of_Z 1] in
  '(poptX, _) <- curve_fit (fun x p => pharynxFunc x p 0) x ptsX p0 ;;
  '(poptY, _) <- curve_fit (fun x p => pharynxFunc x p 0) x ptsY p0 ;;
  Ok (poptX, poptY).

End FitSkeleton.

(** [centerline(poptX, poptY, xs)], lines 113-119. *)
Definition centerline (poptX poptY xs : list F) : result (list point) :=
  cx <- pharynxFunc xs poptX 0 ;;
  cy <- pharynxFunc xs poptY 0 ;;
  Ok (c_ cx cy).

(** [cropcenterline(poptX, poptY, contour, nP)], lines 94-110.
    [np.argsort] is a parameter. *)
Section CropCenterline.
Variable argsort : list F -> list nat.

(** [distClC[j][i]]: the squared distance of sample [c] to contour point [q]. *)
Definition sqdist (c q : point) : F :=
  sq (fst c - fst q) + sq (snd c - snd q).

Definition cropcenterline (poptX poptY : list F) (contour : list point)
    (nP : Z) : result (F * F) :=
  xs <- linspace ((of_Z (-1) / of_Z 4) * of_Z nP)
                 ((of_Z 5 / of_Z 4) * of_Z nP) 100 ;;
  tmpcl <- centerline poptX poptY xs ;;
  mins <- mapM (fun c => np_min (map (sqdist c) contour)) tmpcl ;;
  match argsort mins with
  | start :: end_ :: _ =>
      xstart <- getitem xs start ;;
      xend <- getitem xs end_ ;;
      Ok (xstart, xend)
  | _ => Raise ValueError
  end.

End CropCenterline.

(** [normalVecCl(poptX, poptY, xs)], lines 123-138: the derivative
    [(dx, dy)], its columns reversed, the first column multiplied by -1,
    every row divided by its norm. *)
Definition normalVecCl (poptX poptY xs : list F) : result (list point) :=
  dx <- pharynxFunc xs poptX 1 ;;
  dy <- pharynxFunc xs poptY 1 ;;
  let dCl := c_ dx dy in
  let dCl := map (fun d => (snd d, fst d)) dCl in
  let dCl := map (fun d => (fst d * of_Z (-1), snd d)) dCl in
  Ok (map (fun d => let n := norm2 d in (fst d / n, snd d / n)) dCl).

(** [angles[j][i]] of [widthPharynx], lines 166-171, for centerline point
    [c], its normal [n] and contour point [q]: the vector from [q] to [c],
    divided by its norm, times [n]. *)
Definition angle (c n q : point) : F :=
  let v := (fst c - fst q, snd c - snd q) in
  let vn := norm2 v in
  let u := (fst v / vn, snd v / vn) in
  fst u * fst n + snd u * snd n.

(** [widthPharynx(cl, contour, dCl)], lines 156-176.  The product with
    [dCl] broadcasts; [np.argmin] raises ValueError on an empty contour. *)
Definition widthPharynx (cl contour dCl : list point)
    : result (list (point * point)) :=
  cols <- broadcast cl dCl ;;
  match contour with
  | [] => Raise ValueError
  | _ =>
      mapM (fun '(c, n) =>
              let angles := map (angle c n) contour in
              c1 <- argmin angles ;;
              c2 <- argmax angles ;;
              p1 <- getitem contour c1 ;;
              p2 <- getitem contour c2 ;;
              Ok (p1, p2)) cols
  end.

(** [scalarWidth(widths)], lines 179-184: an array of shape (N,1). *)
Definition scalarWidth (widths : list (point * point)) : list (list F) :=
  map (fun w =>
         let d := (fst (snd w) - fst (fst w), snd (snd w) - snd (fst w)) in
         [fsqrt (sq (fst d) + sq (snd d))]) widths.

(** scikit-image's [profile_line(image, src, dst, linewidth, **kw)] is a
    parameter; [Kw] holds its other keywords and [kw_order n] is
    [order=n]. *)
Section Profiles.
Variable Image : Type.
Variable Kw : Type.
Variable profile_line : Image -> point -> point -> F -> Kw -> result (list F).
Variable kw_order : Z -> Kw.

(** The keywords of [intensityAlongCenterline]: the optional [width]
    sequence and the keywords handed on to [profile_line]. *)
Record kwargs : Type := { width : option (list F); passed_on : Kw }.

(** [intensityAlongCenterline(im, cl, **kwargs)], lines 141-153.  Without
    [width], [profile_line] runs with its default [linewidth=1]. *)
Definition intensityAlongCenterline (im : Image) (cl : list point)
    (kwargs : kwargs) : result (list F) :=
  match width kwargs with
  | Some w =>
      profiles <-
        mapM (fun i =>
                a <- getitem cl i ;;
                b <- getitem cl (i + 1) ;;
                wi <- getitem w i ;;
                profile_line im a b wi (passed_on kwargs))
             (seq 0 (length cl - 1)) ;;
      concatenate profiles
  | None =>
      profiles <-
        mapM (fun i =>
                a <- getitem cl i ;;
                b <- getitem cl (i + 1) ;;
                profile_line im a b (of_Z 1) (passed_on kwargs))
             (seq 0 (length cl - 1)) ;;
      concatenate profiles
  end.

(** The local [widths] of [straightenPharynx], lines 190-196: for every
    sample the segment from [clF + width * dCl] to [clF - width * dCl].
    It does not depend on the image. *)
Definition scan_lines (xstart xend : F) (poptX poptY : list F)
    (width : Z) (nPts : Z) : result (list (point * point)) :=
  xn <- linspace xstart xend nPts ;;
  clF <- centerline poptX poptY xn ;;
  dCl <- normalVecCl poptX poptY xn ;;
  let w := of_Z width in
  Ok (map (fun '(c, d) =>
             ((fst c + w * fst d, snd c + w * snd d),
              (fst c - w * fst d, snd c - w * snd d)))
          (combine clF dCl)).

(** [straightenPharynx(im, xstart, xend, poptX, poptY, width, nPts=100)],
    lines 187-201; [width] is a Python int.  The result is the list of rows
    of [np.array(tmp)]. *)
Definition straightenPharynx (im : Image) (xstart xend : F)
    (poptX poptY : list F) (width : Z) (nPts : Z) : result (list (list F)) :=
  widths <- scan_lines xstart xend poptX poptY width nPts ;;
  kymo <- mapM (fun pts => profile_line im (fst pts) (snd pts) (of_Z 1) (kw_order 3))
               widths ;;
  mapM (fun ky => interp (map of_Z (arange_int width))
                         (arange_half (length ky)) ky) kymo.

End Profiles.

End Features.

(** ** features.py: masks and contours *)

(** The scan of [np.argmax] over an array of Python ints: an element
    replaces the maximum when it is greater. *)
Fixpoint argmax_int_from (mp : Z) (mi i : nat) (l : list Z) : nat :=
  match l with
  | [] => mi
  | x :: l' =>
      if (mp <? x)%Z then argmax_int_from x i (S i) l'
      else argmax_int_from mp mi (S i) l'
  end.

(** [np.argmax] of a list of ints; ValueError on an empty list. *)
Definition argmax_int (l : list Z) : result nat :=
  match l with
  | [] => Raise ValueError
  | x :: l' => Ok (argmax_int_from x 0 1 l')
  end.

Section Masks.
Context {F : Type} {SF : Scalar F}.
Local Open Scope sc_scope.

(** scikit-image's [threshold_li], [skeletonize] and [remove_small_holes]
    are parameters. *)
Variable threshold_li : list (list F) -> result F.
Variable skeletonize : list (list bool) -> result (list (list bool)).
Variable remove_small_holes :
  list (list bool) -> Z -> Z -> result (list (list bool)).

(** [image > thresh] on an array. *)
Definition above (thresh : F) (image : list (list F)) : list (list bool) :=
  map (map (fun v => fltb thresh v)) image.

(** [findLawn(image)], lines 20-24. *)
Definition findLawn (image : list (list F)) : result (list (list bool)) :=
  thresh <- threshold_li image ;;
  let binary := above thresh image in
  remove_small_holes binary 64 1.

(** [thresholdPharynx(im)], lines 27-32. *)
Definition thresholdPharynx (im : list (list F)) : result (list (list bool)) :=
  thresh <- threshold_li im ;;
  Ok (above thresh im).

(** [skeletonPharynx(mask)], lines 35-39. *)
Definition skeletonPharynx (mask : list (list bool))
    : result (list (list bool)) :=
  skeletonize mask.

End Masks.

Section Contour.
Context {F : Type} {SF : Scalar F}.
Local Open Scope sc_scope.

(** scikit-image's [rescale], [img_as_float], [checkerboard_level_set],
    [morphological_chan_vese] and [find_contours] are parameters, with the
    types of their arrays; [shape] is [image.shape] and [Kw] holds the
    keywords handed on to [morphological_chan_vese]. *)
Variables Rescaled Image LevelSet Kw : Type.
Variable rescale : list (list bool) -> Z -> result Rescaled.
Variable img_as_float : Rescaled -> result Image.
Variable shape : Image -> nat * nat.
Variable checkerboard_level_set : nat * nat -> Z -> result LevelSet.
Variable morphological_chan_vese :
  Image -> Z -> LevelSet -> Kw -> result LevelSet.
Variable find_contours : LevelSet -> F -> result (list (list (F * F))).

(** The local [contour] of [morphologicalPharynxContour] after line 86:
    all the contours found on the upscaled mask. *)
Definition snake_contours (mask : list (list bool)) (scale : Z) (kw : Kw)
    : result (list (list (F * F))) :=
  rescaled <- rescale mask scale ;;
  image <- img_as_float rescaled ;;
  init_ls <- checkerboard_level_set (shape image) 5 ;;
  snake <- morphological_chan_vese image 10 init_ls kw ;;
  find_contours snake (of_Z 1 / of_Z 2).

(** [morphologicalPharynxContour(mask, scale=4, **kwargs)], lines 72-91:
    the longest contour, divided by [scale], split into its two columns and
    stacked again. *)
Definition morphologicalPharynxContour (mask : list (list bool)) (scale : Z)
    (kw : Kw) : result (list (F * F)) :=
  contour <- snake_contours mask scale kw ;;
  longest <- argmax_int (map (fun x => Z.of_nat (length x)) contour) ;;
  contour <- getitem contour longest ;;
  let scaled := map (fun q => (fst q / of_Z scale, snd q / of_Z scale)) contour in
  let cX := map fst scaled in
  let cY := map snd scaled in
  Ok (c_ cX cY).

End Contour.

(** ** Stand-ins for the library routines

    Small executable models of the routines the module is parameterised by,
    used to run the embedding on concrete inputs. *)

Module Doubles.

(** scipy's [linkage] up to its argument check: fewer than two observations
    leave the condensed distance matrix empty, and [num_obs_y] rejects it
    with ValueError.  The clustering proper is not modelled; the
    observations stand for the linkage matrix. *)
Definition linkage (obs : list (nat * nat)) : result (list (nat * nat)) :=
  if (length obs <? 2)%nat then Raise ValueError else Ok obs.

(** A leaf order for the stand-in linkage: the observations as they came. *)
Definition leaves_list (Z : list (nat * nat)) : result (list nat) :=
  Ok (seq 0 (length Z)).

(** The integer part of a double, rounded down; [None] for NaN and the
    infinities. *)
Definition float_floor (x : float) : option Z :=
  match Prim2SF x with
  | S754_zero _ => Some 0%Z
  | S754_finite s m e =>
      let q := if (0 <=? e)%Z then (Zpos m * 2 ^ e)%Z
               else (Zpos m / 2 ^ (- e))%Z in
      let exact := if (0 <=? e)%Z then true
                   else (Zpos m mod 2 ^ (- e) =? 0)%Z in
      Some (if s then (if exact then - q else - q - 1)%Z else q)
  | _ => None
  end.

Definition float_ceil (x : float) : option Z :=
  option_map Z.opp (float_floor (PrimFloat.opp x)).

(** The pixel of [im] nearest to (r, c), 0 outside the image. *)
Definition pixel (im : list (list float)) (rc : float * float) : float :=
  match float_floor (PrimFloat.add (fst rc) 0.5%float),
        float_floor (PrimFloat.add (snd rc) 0.5%float) with
  | Some i, Some j =>
      if ((0 <=? i) && (0 <=? j))%Z
      then nth (Z.to_nat j) (nth (Z.to_nat i) im []) 0%float
      else 0%float
  | _, _ => 0%float
  end.

(** scikit-image's [profile_line] for a line of width one sampled at the
    nearest pixel ([order=0], [mode='constant']): [ceil(hypot + 1)] samples
    from [src] to [dst].  The width and the other keywords are ignored. *)
Definition profile_line (im : list (list float)) (src dst : float * float)
    (linewidth : float) (kw : Z) : result (list float) :=
  let dr := PrimFloat.sub (fst dst) (fst src) in
  let dc := PrimFloat.sub (snd dst) (snd src) in
  let len := PrimFloat.sqrt (PrimFloat.add (PrimFloat.mul dr dr) (PrimFloat.mul dc dc)) in
  match float_ceil (PrimFloat.add len 1%float) with
  | None => Raise ValueError
  | Some n =>
      rows <- linspace (fst src) (fst dst) n ;;
      cols <- linspace (snd src) (snd dst) n ;;
      Ok (map (pixel im) (combine rows cols))
  end.

(** A 5 x 5 test image, [im[r][c] = 5 r + c + 1]. *)
Definition image5 : list (list float) :=
  [[1; 2; 3; 4; 5]; [6; 7; 8; 9; 10]; [11; 12; 13; 14; 15];
   [16; 17; 18; 19; 20]; [21; 22; 23; 24; 25]]%float.

End Doubles.

(** Stand-ins in exact arithmetic. *)
Module Exact.

(** A line sampler on an image given as a function of the plane: the image
    at the two ends of the line.  The width and the keywords are ignored. *)
Definition profile_line (im : R * R -> R) (src dst : R * R)
    (linewidth : R) (kw : Z) : result (list R) :=
  Ok [im src; im dst].

End Exact.

(** ** Notions used in the statements *)

(** The Euclidean distance of two points of the plane. *)
Definition dist (p q : R * R) : R :=
  sqrt ((fst p - fst q) ^ 2 + (snd p - snd q) ^ 2).

(** The segments of [widths] with start and end point exchanged wherever
    [mask] says so. *)
Fixpoint swap_where {A : Type} (mask : list bool) (widths : list (A * A))
    : list (A * A) :=
  match mask, widths with
  | true :: mask', (a, b) :: widths' => (b, a) :: swap_where mask' widths'
  | false :: mask', w :: widths' => w :: swap_where mask' widths'
  | _, _ => widths
  end.

(** The same arithmetic with every comparison turned around: [np.argmax]
    is [np.argmin] for it. *)
Definition flipped {F : Type} (SF : Scalar F) : Scalar F := {|
  of_Z := of_Z;
  fadd := fadd;
  fsub := fsub;
  fmul := fmul;
  fdiv := fdiv;
  fsqrt := fsqrt;
  fltb := fun x y => fltb y x;
  fleb := fun x y => fleb y x;
  feqb := feqb;
  fis_nan := fis_nan
|}.

(** [c] is the first index at which [l] is least for the [<=] of the
    arithmetic [SF]. *)
Definition first_least {F : Type} (SF : Scalar F) (l : list F) (c : nat) : Prop :=
  (c < length l)%nat
  /\ (forall j, (j < length l)%nat ->
                fleb (nth c l (of_Z 0)) (nth j l (of_Z 0)) = true)
  /\ (forall j, (j < c)%nat ->
                fleb (nth j l (of_Z 0)) (nth c l (of_Z 0)) = false).

(** The double [x] is a NaN or carries the sign [s]. *)
Definition signed_as (s : bool) (x : spec_float) : Prop :=
  match x with
  | S754_nan => True
  | S754_zero s' | S754_infinity s' | S754_finite s' _ _ => s' = s
  end.

(** [k] is the index of the first NaN of [l]. *)
Definition first_nan (l : list float) (k : nat) : Prop :=
  (k < length l)%nat
  /\ PrimFloat.is_nan (nth k l 0%float) = true
  /\ (forall k', (k' < k)%nat -> PrimFloat.is_nan (nth k' l 0%float) = false).

(** The line width that [intensityAlongCenterline] gives segment [i]:
    [w[i]] when [width=w] is among the keywords, else 1. *)
Definition segment_width {F : Type} {SF : Scalar F} {Kw : Type}
    (kw : @kwargs F Kw) (i : nat) : result F :=
  match width kw with
  | Some w => getitem w i
  | None => Ok (of_Z 1)
  end.

(** Case analysis on the comparisons of exponents and mantissas. *)
Ltac cmp_cases :=
  repeat match goal with
  | |- context [Z.compare ?a ?b] => destruct (Z.compare_spec a b)
  | H : context [Z.compare ?a ?b] |- _ => destruct (Z.compare_spec a b)
  | |- context [Pos.compare_cont Eq ?a ?b] =>
      change (Pos.compare_cont Eq a b) with (Pos.compare a b);
      destruct (Pos.compare_spec a b)
  | H : context [Pos.compare_cont Eq ?a ?b] |- _ =>
      change (Pos.compare_cont Eq a b) with (Pos.compare a b) in H;
      destruct (Pos.compare_spec a b)
  end.

(** The abscissas of the pairs of [rest] increase strictly, starting above
    [x0]. *)
Fixpoint increasing_from (x0 : R) (rest : list (R * R)) : Prop :=
  match rest with
  | [] => True
  | (x1, _) :: rest' => (x0 < x1)%R /\ increasing_from x1 rest'
  end.

(** Every entry of [l] lies between [lo] and [hi]. *)
Definition within (lo hi : R) (l : list R) : Prop :=
  Forall (fun v => (lo <= v <= hi)%R) l.

(** The point [p] moved by the vector [v], the vector [n] reversed, and a
    segment with its end points exchanged. *)
Definition shift (v p : R * R) : R * R := (fst p + fst v, snd p + snd v)%R.
Definition reversed (n : R * R) : R * R := (- fst n, - snd n)%R.
Definition exchanged (w : (R * R) * (R * R)) : (R * R) * (R * R) :=
  (snd w, fst w).

(** The pixel of a mask at row [r] and column [c], false outside the
    mask. *)
Definition pixel_at (mask : list (list bool)) (r c : nat) : bool :=
  nth c (nth r mask []) false.

(** The angle score of [widthPharynx] written out in double arithmetic:
    the dot product of the normal [n] with the vector from the contour
    point [q] to the centerline point [c], that vector divided by its
    norm. *)
Definition ieee_angle_score (c n q : float * float) : float :=
  let vx := PrimFloat.sub (fst c) (fst q) in
  let vy := PrimFloat.sub (snd c) (snd q) in
  let len := PrimFloat.sqrt
               (PrimFloat.add (PrimFloat.mul vx vx) (PrimFloat.mul vy vy)) in
  PrimFloat.add (PrimFloat.mul (PrimFloat.div vx len) (fst n))
                (PrimFloat.mul (PrimFloat.div vy len) (snd n)).

(** The length of the segment from [p] to [q] written out in double
    arithmetic: the root of the sum of the squared differences. *)
Definition ieee_length (p q : float * float) : float :=
  let dx := PrimFloat.sub (fst q) (fst p) in
  let dy := PrimFloat.sub (snd q) (snd p) in
  PrimFloat.sqrt (PrimFloat.add (PrimFloat.mul dx dx) (PrimFloat.mul dy dy)).


(** No entry of [l] is a NaN. *)
Definition no_nan (l : list float) : Prop :=
  forall j, (j < length l)%nat -> PrimFloat.is_nan (nth j l 0%float) = false.

(** Both coordinates of [p] are finite doubles: no NaN, no infinity. *)
Definition finite_point (p : float * float) : Prop :=
  PrimFloat.is_finite (fst p) = true /\ PrimFloat.is_finite (snd p) = true.

(** A double that is a zero or a finite number. *)
Definition SF_finite (x : spec_float) : Prop :=
  match x with
  | S754_zero _ | S754_finite _ _ _ => True
  | _ => False
  end.

(** ** Properties *)

(** *** The result monad *)

Lemma mapM_ok {A B : Type} (f : A -> result B) (g : A -> B) (l : list A) :
  (forall a, In a l -> f a = Ok (g a)) -> mapM f l = Ok (map g l).
Proof.
  induction l as [|a l IH]; intros H; cbn; [reflexivity|].
  rewrite (H a (or_introl eq_refl)); cbn.
  rewrite IH by (intros; apply H; now right). reflexivity.
Qed.

Lemma getitem_nth {A : Type} (l : list A) (i : nat) (d : A) :
  (i < length l)%nat -> getitem l i = Ok (nth i l d).
Proof.
  intros H. unfold getitem. now rewrite (nth_error_nth' l d H).
Qed.

Lemma combine_map_same {A B C : Type} (f : A -> B) (g : A -> C) (l : list A) :
  combine (map f l) (map g l) = map (fun a => (f a, g a)) l.
Proof.
  induction l as [|a l IH]; cbn; [reflexivity|now rewrite IH].
Qed.

(** *** The model function *)

Section ModelFacts.
Context {F : Type} {SF : Scalar F}.
Local Open Scope sc_scope.

Lemma pharynxFunc_value (c0 c1 c2 : F) (rest xs : list F) (d : Z) :
  d <> 1%Z ->
  pharynxFunc xs (c0 :: c1 :: c2 :: rest) d
  = Ok (map (fun t => (c0 + c1 * t) + c2 * sq t) xs).
Proof.
  intros Hd. unfold pharynxFunc.
  destruct (Z.eqb_spec d 1) as [->|_]; [contradiction|reflexivity].
Qed.

Lemma pharynxFunc_deriv (c0 c1 c2 : F) (rest xs : list F) :
  pharynxFunc xs (c0 :: c1 :: c2 :: rest) 1
  = Ok (map (fun t => c1 + (of_Z 2 * c2) * t) xs).
Proof. reflexivity. Qed.

Lemma pharynxFunc_short (xs p : list F) (d : Z) :
  (length p < 3)%nat -> pharynxFunc xs p d = Raise IndexError.
Proof.
  intros H. unfold pharynxFunc.
  destruct p as [|c0 [|c1 [|c2 p]]]; cbn in H; try lia;
    destruct (d =? 1)%Z; reflexivity.
Qed.

Lemma centerline_ok (a0 a1 a2 b0 b1 b2 : F) (ra rb xs : list F) :
  centerline (a0 :: a1 :: a2 :: ra) (b0 :: b1 :: b2 :: rb) xs
  = Ok (map (fun t => ((a0 + a1 * t) + a2 * sq t, (b0 + b1 * t) + b2 * sq t)) xs).
Proof.
  unfold centerline.
  rewrite !pharynxFunc_value by discriminate. cbn. f_equal.
  apply combine_map_same.
Qed.

Lemma normalVecCl_ok (a0 a1 a2 b0 b1 b2 : F) (ra rb xs : list F) :
  normalVecCl (a0 :: a1 :: a2 :: ra) (b0 :: b1 :: b2 :: rb) xs
  = Ok (map (fun t =>
               let dx := a1 + (of_Z 2 * a2) * t in
               let dy := b1 + (of_Z 2 * b2) * t in
               let d := (dy * of_Z (-1), dx) in
               (fst d / norm2 d, snd d / norm2 d)) xs).
Proof.
  unfold normalVecCl. rewrite !pharynxFunc_deriv. cbn. f_equal.
  unfold c_. rewrite combine_map_same, !map_map. reflexivity.
Qed.

(** [fitSkeleton] fits [pharynxFunc] from the guess (1, 1, 1): with a
    [curve_fit] that returns as many parameters as the guess has, both
    fitted tuples have three entries. *)
Lemma fitSkeleton_three_parameters (Cov : Type)
    (curve_fit : (list F -> list F -> result (list F)) ->
                 list F -> list F -> list F -> result (list F * Cov))
    (ptsX ptsY poptX poptY : list F) :
  (forall f x y p0 popt pcov,
      curve_fit f x y p0 = Ok (popt, pcov) -> length popt = length p0) ->
  fitSkeleton curve_fit ptsX ptsY = Ok (poptX, poptY) ->
  length poptX = 3%nat /\ length poptY = 3%nat.
Proof.
  intros Hcf. unfold fitSkeleton.
  destruct (curve_fit _ _ ptsX _) as [[pX cX]|] eqn:EX; cbn; [|discriminate].
  destruct (curve_fit _ _ ptsY _) as [[pY cY]|] eqn:EY; cbn; [|discriminate].
  intros [= <- <-]. split.
  - now rewrite (Hcf _ _ _ _ _ _ EX).
  - now rewrite (Hcf _ _ _ _ _ _ EY).
Qed.

End ModelFacts.

(** The bounds [-0.25] and [1.25] of [cropcenterline], written with
    [of_Z], are these very doubles. *)
Lemma quarter_literals :
  (of_Z (-1) / of_Z 4, of_Z 5 / of_Z 4)%sc = ((-0.25)%float, 1.25%float).
Proof. vm_compute. reflexivity. Qed.

(** C3.  The model of the fit is the quadratic [c0 + c1 t + c2 t^2], its
    [deriv=1] branch is [c1 + 2 c2 t], which is the derivative of the
    former; the function reads exactly three coefficients: a fourth one
    changes nothing (there is no cubic term) and fewer than three raise
    IndexError. *)
Theorem pharynxFunc_quadratic (c0 c1 c2 : R) (xs : list R) :
  pharynxFunc xs [c0; c1; c2] 0
    = Ok (map (fun t => c0 + c1 * t + c2 * t ^ 2)%R xs)
  /\ pharynxFunc xs [c0; c1; c2] 1
    = Ok (map (fun t => c1 + 2 * c2 * t)%R xs)
  /\ (forall t : R,
        derivable_pt_lim (fun u => c0 + c1 * u + c2 * u ^ 2)%R t
                         (c1 + 2 * c2 * t)%R)
  /\ (forall (c3 : R) (rest : list R) (d : Z),
        pharynxFunc xs (c0 :: c1 :: c2 :: c3 :: rest) d
        = pharynxFunc xs [c0; c1; c2] d)
  /\ (forall (p : list R) (d : Z),
        (length p < 3)%nat -> pharynxFunc xs p d = Raise IndexError).
Proof.
  split; [|split; [|split; [|split]]].
  - rewrite pharynxFunc_value by discriminate. f_equal.
    apply map_ext; intros t; unfold sq; cbn; ring.
  - rewrite pharynxFunc_deriv. reflexivity.
  - intros t.
    replace (c1 + 2 * c2 * t)%R
      with (0 + (0 * t + c1 * 1) + (0 * t ^ 2 + c2 * (INR 2 * t ^ Nat.pred 2)))%R
      by (cbn; ring).
    apply (derivable_pt_lim_plus (fun u => c0 + c1 * u)%R (fun u => c2 * u ^ 2)%R).
    + apply (derivable_pt_lim_plus (fun _ => c0) (fun u => c1 * u)%R).
      * apply derivable_pt_lim_const.
      * apply (derivable_pt_lim_mult (fun _ => c1) (fun u => u)).
        -- apply derivable_pt_lim_const.
        -- apply derivable_pt_lim_id.
    + apply (derivable_pt_lim_mult (fun _ => c2) (fun u => u ^ 2)%R).
      * apply derivable_pt_lim_const.
      * apply derivable_pt_lim_pow.
  - intros c3 rest d. unfold pharynxFunc. destruct (d =? 1)%Z; reflexivity.
  - intros p d. apply pharynxFunc_short.
Qed.

(** *** Normal vectors in exact arithmetic *)

Lemma norm2_sqr (v : R * R) :
  (norm2 v * norm2 v = fst v * fst v + snd v * snd v)%R.
Proof.
  unfold norm2; cbn. apply sqrt_sqrt. nra.
Qed.

Lemma norm2_pos (v : R * R) :
  (fst v <> 0 \/ snd v <> 0)%R -> (0 < norm2 v)%R.
Proof.
  intros H. unfold norm2; cbn. apply sqrt_lt_R0.
  destruct H as [H|H]; nra.
Qed.

Lemma unit_after_division (x y : R) :
  (x <> 0 \/ y <> 0)%R ->
  let n := norm2 (x, y) in
  (sqrt ((x / n) ^ 2 + (y / n) ^ 2) = 1)%R.
Proof.
  intros H n.
  assert (Hn : (0 < n)%R) by (apply norm2_pos; exact H).
  assert (Hs : (n * n = x * x + y * y)%R) by (apply (norm2_sqr (x, y))).
  replace ((x / n) ^ 2 + (y / n) ^ 2)%R with 1%R; [apply sqrt_1|].
  field_simplify_eq; [|lra]. nra.
Qed.

(** The part of C2 that holds in exact arithmetic: wherever the tangent
    [(dx, dy)] of the fitted pair is not the zero vector, the vector that [normalVecCl] returns for
    that parameter has Euclidean norm 1 and is orthogonal to the tangent. *)
Theorem normalVecCl_unit_orthogonal
    (a0 a1 a2 b0 b1 b2 : R) (ra rb xs : list R) :
  (forall t, In t xs ->
             (a1 + 2 * a2 * t <> 0 \/ b1 + 2 * b2 * t <> 0)%R) ->
  exists ns : list (R * R),
    normalVecCl (a0 :: a1 :: a2 :: ra) (b0 :: b1 :: b2 :: rb) xs = Ok ns
    /\ Forall2
         (fun t n =>
            (sqrt (fst n ^ 2 + snd n ^ 2) = 1
             /\ fst n * (a1 + 2 * a2 * t) + snd n * (b1 + 2 * b2 * t) = 0)%R)
         xs ns.
Proof.
  intros Hnz. eexists. split; [apply normalVecCl_ok|].
  induction xs as [|t xs IH]; cbn; constructor.
  - assert (H : (b1 + 2 * b2 * t <> 0 \/ a1 + 2 * a2 * t <> 0)%R)
      by (destruct (Hnz t (or_introl eq_refl)); tauto).
    assert (H' : ((b1 + 2 * b2 * t) * -1 <> 0 \/ a1 + 2 * a2 * t <> 0)%R)
      by (destruct H; [left; lra | right; assumption]).
    split.
    + apply (unit_after_division H').
    + pose proof (norm2_pos ((b1 + 2 * b2 * t) * -1, a1 + 2 * a2 * t)%R H') as Hn.
      unfold norm2 in Hn. cbn in Hn |- *. field. lra.
  - apply IH. intros u Hu. apply Hnz. now right.
Qed.

Lemma normalVecCl_unit_orthogonal_witness :
  exists ns : list (R * R),
    normalVecCl [0; 3; 0]%R [0; 4; 0]%R [0; 1]%R = Ok ns
    /\ Forall2
         (fun t n =>
            (sqrt (fst n ^ 2 + snd n ^ 2) = 1
             /\ fst n * (3 + 2 * 0 * t) + snd n * (4 + 2 * 0 * t) = 0)%R)
         [0; 1]%R ns.
Proof.
  apply (@normalVecCl_unit_orthogonal 0 3 0 0 4 0 [] [] [0; 1]%R).
  intros t _. left. lra.
Defined.

(** On doubles the same call rounds: the normal of the tangent (3, 4) is
    the pair of doubles nearest to (-0.8, 0.6). *)
Example normalVecCl_on_doubles :
  normalVecCl [0; 3; 0]%float [0; 4; 0]%float [0; 1]%float
  = Ok [(-0x1.999999999999ap-1, 0x1.3333333333333p-1);
        (-0x1.999999999999ap-1, 0x1.3333333333333p-1)]%float.
Proof. vm_compute. reflexivity. Qed.

(** The exact statement has no counterpart for every double: the square of
    a tangent as small as 2^-600 underflows to 0, and so does the norm. *)
Remark normalVecCl_underflow_on_doubles :
  normalVecCl [0; 0x1p-600; 0]%float [0; 0; 0]%float [0]%float
  = Ok [(nan, infinity)]%float.
Proof. vm_compute. reflexivity. Qed.

(** *** Widths *)

(** The part of C6 that holds in exact arithmetic: every entry of
    [scalarWidth] is the Euclidean
    distance of the two end points of its segment, hence not negative, and
    exchanging the end points of any of the segments changes nothing. *)
Theorem scalarWidth_distance (widths : list ((R * R) * (R * R))) :
  scalarWidth widths = map (fun w => [dist (fst w) (snd w)]) widths
  /\ Forall (Forall (fun v => (0 <= v)%R)) (scalarWidth widths)
  /\ (forall mask : list bool,
        scalarWidth (swap_where mask widths) = scalarWidth widths).
Proof.
  assert (E : forall w : (R * R) * (R * R),
             sqrt (sq (fst (snd w) - fst (fst w)) + sq (snd (snd w) - snd (fst w)))%R
             = dist (fst w) (snd w)).
  { intros [[x1 y1] [x2 y2]]. unfold dist, sq; cbn. f_equal. ring. }
  split; [|split].
  - unfold scalarWidth. apply map_ext. intros w. cbn. now rewrite <- E.
  - unfold scalarWidth. apply Forall_map, Forall_forall. intros w _.
    constructor; [|constructor]. cbn. apply sqrt_pos.
  - intros mask. revert mask. unfold scalarWidth.
    induction widths as [|[[x1 y1] [x2 y2]] widths IH]; intros [|[|] mask];
      cbn [swap_where map]; try reflexivity.
    + rewrite IH. do 2 f_equal. unfold sq; cbn. f_equal. ring.
    + now rewrite IH.
Qed.

(** *** Line profiles *)

Lemma map_nth_seq_from {A : Type} (d : A) (l : list A) (s : nat) :
  map (fun i => nth (i - s) l d) (seq s (length l)) = l.
Proof.
  revert s; induction l as [|a l IH]; intros s; cbn [length seq map];
    [reflexivity|].
  rewrite Nat.sub_diag. cbn [nth]. f_equal.
  rewrite <- (IH (S s)) at 2. apply map_ext_in. intros i Hi.
  apply in_seq in Hi. replace (i - s)%nat with (S (i - S s)) by lia.
  reflexivity.
Qed.

Lemma mapM_seq_nth {A : Type} (d : A) (f : nat -> result A) (r : list A) :
  (forall i, (i < length r)%nat -> f i = Ok (nth i r d)) ->
  mapM f (seq 0 (length r)) = Ok r.
Proof.
  intros H. rewrite <- (map_nth_seq_from d r 0) at 2.
  apply mapM_ok. intros i Hi. apply in_seq in Hi.
  rewrite Nat.sub_0_r. apply H. lia.
Qed.

Lemma mapM_all_ok {A B : Type} (P : B -> Prop) (f : A -> result B) (l : list A) :
  (forall a, In a l -> exists b, f a = Ok b /\ P b) ->
  exists r, mapM f l = Ok r /\ length r = length l /\ Forall P r.
Proof.
  induction l as [|a l IH]; intros H; cbn.
  - exists []. repeat split. constructor.
  - destruct (H a (or_introl eq_refl)) as (b & -> & Hb).
    destruct IH as (r & -> & Hlen & Hall); [intros; apply H; now right|].
    exists (b :: r). cbn. repeat split; [now rewrite Hlen|now constructor].
Qed.

Section ProfileFacts.
Context {F : Type} {SF : Scalar F}.
Variables Image Kw : Type.
Variable profile_line : Image -> (F * F)%type -> (F * F)%type -> F -> Kw -> result (list F).
Variable kw_order : Z -> Kw.

(** C9.  For a polyline of at least two points whose segments all have a
    profile ([profiles[i]] for the segment from [cl[i]] to [cl[i+1]], with
    width [w[i]], or 1 when no width is given), the result is the
    concatenation of these profiles in order, and its length is the sum of
    their lengths: no sample is dropped where two segments meet. *)
Theorem intensityAlongCenterline_concat (im : Image) (cl : list ((F * F)%type))
    (kw : @kwargs F Kw) (profiles : list (list F)) :
  (2 <= length cl)%nat ->
  length profiles = (length cl - 1)%nat ->
  (forall i, (i < length cl - 1)%nat ->
     exists wi, segment_width kw i = Ok wi
       /\ profile_line im (nth i cl (of_Z 0, of_Z 0))
                       (nth (i + 1) cl (of_Z 0, of_Z 0)) wi (passed_on kw)
          = Ok (nth i profiles [])) ->
  intensityAlongCenterline profile_line im cl kw = Ok (concat profiles)
  /\ length (concat profiles) = list_sum (map (@length F) profiles).
Proof.
  intros Hk Hlen Hseg. split; [|apply length_concat].
  assert (Hne : profiles <> []) by (intros ->; cbn in Hlen; lia).
  unfold intensityAlongCenterline. unfold segment_width in Hseg.
  rewrite <- Hlen in *.
  destruct (width kw) as [w|].
  - rewrite (mapM_seq_nth []) with (r := profiles).
    + cbn. destruct profiles; [contradiction|reflexivity].
    + intros i Hi. destruct (Hseg i Hi) as (wi & Hw & Hp).
      rewrite (getitem_nth cl (of_Z 0, of_Z 0)) by lia.
      rewrite (getitem_nth cl (of_Z 0, of_Z 0)) by lia.
      cbn. rewrite Hw. cbn. exact Hp.
  - rewrite (mapM_seq_nth []) with (r := profiles).
    + cbn. destruct profiles; [contradiction|reflexivity].
    + intros i Hi. destruct (Hseg i Hi) as (wi & [= <-] & Hp).
      rewrite (getitem_nth cl (of_Z 0, of_Z 0)) by lia.
      rewrite (getitem_nth cl (of_Z 0, of_Z 0)) by lia.
      cbn. exact Hp.
Qed.

Lemma linspace_length (start stop : F) (num : Z) :
  (0 <= num)%Z ->
  exists xs, linspace start stop num = Ok xs /\ length xs = Z.to_nat num.
Proof.
  intros Hn. unfold linspace.
  destruct (Z.ltb_spec num 0) as [?|_]; [lia|].
  eexists. split; [reflexivity|].
  assert (L : forall y : list F, length y = Z.to_nat num ->
              length (if (1 <? num)%Z then removelast y ++ [stop] else y)
              = Z.to_nat num).
  { intros y Hy. destruct (Z.ltb_spec 1 num) as [H1|_]; [|exact Hy].
    rewrite length_app. cbn.
    destruct y as [|y0 y] using rev_ind; [cbn in Hy; lia|].
    rewrite removelast_last. rewrite length_app in Hy. cbn in Hy. lia. }
  apply L. rewrite length_map.
  destruct (0 <? num - 1)%Z; [destruct (feqb _ _)|];
    now rewrite !length_map, length_seq.
Qed.

Lemma interp_length (x xp fp : list F) :
  length xp = length fp -> fp <> [] ->
  exists r, interp x xp fp = Ok r /\ length r = length x.
Proof.
  intros Hlen Hne. unfold interp. rewrite Hlen, Nat.eqb_refl. cbn.
  destruct xp as [|x0 xp]; destruct fp as [|f0 fp];
    try discriminate; try contradiction.
  cbn. eexists. split; [reflexivity|apply length_map].
Qed.

Lemma scan_lines_ok (xstart xend : F) (a0 a1 a2 b0 b1 b2 : F)
    (ra rb : list F) (width nPts : Z) :
  (0 <= nPts)%Z ->
  exists lines,
    scan_lines xstart xend (a0 :: a1 :: a2 :: ra) (b0 :: b1 :: b2 :: rb)
      width nPts = Ok lines
    /\ length lines = Z.to_nat nPts.
Proof.
  intros Hn. unfold scan_lines.
  destruct (@linspace_length xstart xend nPts) as (xn & -> & Hxn); [lia|].
  cbn [bind]. rewrite centerline_ok, normalVecCl_ok. cbn [bind].
  eexists. split; [reflexivity|].
  now rewrite length_map, length_combine, !length_map, Nat.min_id.
Qed.

(** C1, as the code has it.  For a half-width above 0, at least one
    sample, coefficient tuples of three entries or more and an image on
    which every line scanned yields a profile that is not empty,
    [straightenPharynx] returns [nPts] rows of [2 * width] entries each: an
    array of shape (nPts, 2 width), the rows running along the centerline
    and the columns across it. *)
Theorem straightenPharynx_shape (im : Image) (xstart xend : F)
    (a0 a1 a2 b0 b1 b2 : F) (ra rb : list F) (width nPts : Z) :
  (0 < width)%Z ->
  (0 < nPts)%Z ->
  (forall lines pts,
      scan_lines xstart xend (a0 :: a1 :: a2 :: ra) (b0 :: b1 :: b2 :: rb)
        width nPts = Ok lines ->
      In pts lines ->
      exists ky,
        profile_line im (fst pts) (snd pts) (of_Z 1) (kw_order 3) = Ok ky
        /\ ky <> []) ->
  exists rows,
    straightenPharynx profile_line kw_order im xstart xend
      (a0 :: a1 :: a2 :: ra) (b0 :: b1 :: b2 :: rb) width nPts = Ok rows
    /\ map Z.of_nat (np_shape rows) = [nPts; (2 * width)%Z]
    /\ Z.of_nat (length rows) = nPts
    /\ Forall (fun row => Z.of_nat (length row) = (2 * width)%Z) rows.
Proof.
  intros Hw Hn Hprof. unfold straightenPharynx.
  destruct (@scan_lines_ok xstart xend a0 a1 a2 b0 b1 b2 ra rb width nPts)
    as (lines & Hlines & Hlen); [lia|].
  rewrite Hlines. cbn [bind].
  match goal with |- context [mapM ?f lines] =>
    destruct (@mapM_all_ok _ _ (fun ky => ky <> []) f lines)
      as (kymo & -> & Hk & Hne)
  end.
  { intros pts Hin. exact (Hprof lines pts Hlines Hin). }
  cbn [bind]. rewrite Hlen in Hk.
  match goal with |- context [mapM ?f kymo] =>
    destruct (@mapM_all_ok _ _ (fun row => length row = Z.to_nat (2 * width)) f kymo)
      as (rows & -> & Hr & Hrows)
  end.
  { intros ky Hky. rewrite Forall_forall in Hne.
    destruct (@interp_length (map of_Z (arange_int width))
                (arange_half (length ky)) ky) as (r & Hr & Hl).
    - unfold arange_half. now rewrite length_map, length_seq.
    - now apply Hne.
    - exists r. split; [exact Hr|].
      rewrite Hl. unfold arange_int. now rewrite !length_map, length_seq. }
  exists rows. rewrite Hr, Hk.
  split; [reflexivity|]. split; [|split].
  - destruct rows as [|row rows]; [cbn in Hr; lia|].
    inversion Hrows as [|? ? Hrow _]; subst.
    unfold np_shape. rewrite Hrow, Hr, Hk. cbn [map]. f_equal; [lia|].
    f_equal. lia.
  - lia.
  - apply (Forall_impl _ (P := fun row => length row = Z.to_nat (2 * width)));
      [|exact Hrows].
    intros row ->. lia.
Qed.

End ProfileFacts.

Lemma straightenPharynx_shape_witness :
  exists rows,
    straightenPharynx Doubles.profile_line (fun n => n) Doubles.image5
      0%float 2%float [2; 0; 0]%float [1; 1; 0]%float 2 3 = Ok rows
    /\ map Z.of_nat (np_shape rows) = [3; 2 * 2]%Z
    /\ Z.of_nat (length rows) = 3%Z
    /\ Forall (fun row => Z.of_nat (length row) = (2 * 2)%Z) rows.
Proof.
  apply (@straightenPharynx_shape float binary64 _ _ Doubles.profile_line
           (fun n => n) Doubles.image5 0%float 2%float
           2%float 0%float 0%float 1%float 1%float 0%float [] [] 2%Z 3%Z).
  - lia.
  - lia.
  - intros lines pts H Hin. vm_compute in H. injection H as <-.
    cbn in Hin. destruct Hin as [<-|[<-|[<-|[]]]];
      (eexists; split; [vm_compute; reflexivity|discriminate]).
Defined.

(** C1 as the specification words it fails: with half-width 2 and 3
    samples the array has shape (3, 4), not (2 * 2, 3); and with no sample
    the array is [np.array([])], of the one-dimensional shape (0,). *)
Lemma straightenPharynx_shape_counterexample :
  (exists rows,
     straightenPharynx Doubles.profile_line (fun n => n) Doubles.image5
       0%float 2%float [2; 0; 0]%float [1; 1; 0]%float 2 3 = Ok rows
     /\ np_shape rows = [3; 4]%nat
     /\ np_shape rows <> [Z.to_nat (2 * 2); Z.to_nat 3])
  /\ (exists rows,
        straightenPharynx Doubles.profile_line (fun n => n) Doubles.image5
          0%float 2%float [2; 0; 0]%float [1; 1; 0]%float 2 0 = Ok rows
        /\ np_shape rows = [0%nat]).
Proof.
  split.
  - eexists. split; [vm_compute; reflexivity|].
    split; [reflexivity|discriminate].
  - eexists. split; [vm_compute; reflexivity|reflexivity].
Qed.

(** The concatenation at work on doubles: a polyline of three points with
    the widths [[1; 1]]; the pixel at the joint, 3, is there twice. *)
Lemma intensityAlongCenterline_concat_witness :
  intensityAlongCenterline Doubles.profile_line Doubles.image5
    [(0, 0); (0, 2); (2, 2)]%float
    {| width := Some [1; 1]%float; passed_on := 0%Z |}
  = Ok (concat [[1; 2; 3]; [3; 8; 13]]%float)
  /\ length (concat [[1; 2; 3]; [3; 8; 13]]%float)
     = list_sum (map (@length float) [[1; 2; 3]; [3; 8; 13]]%float).
Proof.
  apply (@intensityAlongCenterline_concat float binary64 _ _
           Doubles.profile_line Doubles.image5
           [(0, 0); (0, 2); (2, 2)]%float
           {| width := Some [1; 1]%float; passed_on := 0%Z |}
           [[1; 2; 3]; [3; 8; 13]]%float).
  - cbn. lia.
  - reflexivity.
  - intros i Hi. cbn in Hi.
    destruct i as [|[|i]]; [| |lia];
      (eexists; split; [reflexivity|vm_compute; reflexivity]).
Defined.

(** *** Extremal scores in exact arithmetic *)

Lemma mapM_Forall2 {A B : Type} (P : A -> B -> Prop) (f : A -> result B)
    (l : list A) :
  (forall a, In a l -> exists b, f a = Ok b /\ P a b) ->
  exists r, mapM f l = Ok r /\ Forall2 P l r.
Proof.
  induction l as [|a l IH]; intros H; cbn.
  - exists []. split; [reflexivity|constructor].
  - destruct (H a (or_introl eq_refl)) as (b & -> & Hb).
    destruct IH as (r & -> & Hall); [intros; apply H; now right|].
    exists (b :: r). split; [reflexivity|now constructor].
Qed.

Lemma Rleb_true (x y : R) : Rleb x y = true <-> (x <= y)%R.
Proof. unfold Rleb. destruct (Rle_dec x y); split; intros; easy. Qed.

Lemma Rleb_false (x y : R) : Rleb x y = false <-> (y < x)%R.
Proof.
  unfold Rleb. destruct (Rle_dec x y); split; intros; try easy; lra.
Qed.

Lemma Reqb_true (x y : R) : Reqb x y = true <-> x = y.
Proof. unfold Reqb. destruct (Req_dec_T x y); split; intros; easy. Qed.

(** The scans of [np.argmin] and [np.argmax], for any arithmetic: on
    values [ok] that are no NaN and that [<=] orders totally, the scan
    returns the first index of a least element. *)
Section OrderedScan.
Context {F : Type} (SF : Scalar F).
Variable ok : F -> Prop.
Hypothesis ok_not_nan : forall x, ok x -> fis_nan x = false.
Hypothesis ok_total : forall x y, ok x -> ok y -> fleb x y = false -> fleb y x = true.
Hypothesis ok_trans :
  forall x y z, ok x -> ok y -> ok z ->
                fleb x y = true -> fleb y z = true -> fleb x z = true.

Lemma ok_refl (x : F) : ok x -> fleb x x = true.
Proof.
  intros Hx. destruct (fleb x x) eqn:E; [reflexivity|].
  rewrite <- E. now apply ok_total.
Qed.

Lemma argmin_from_least (l : list F) :
  forall (mp : F) (mi i : nat),
    ok mp -> Forall ok l ->
    (argmin_from mp mi i l = mi /\ Forall (fun x => fleb mp x = true) l)
    \/ (exists k, (k < length l)%nat
          /\ argmin_from mp mi i l = (i + k)%nat
          /\ fleb mp (nth k l (of_Z 0)) = false
          /\ Forall (fun x => fleb (nth k l (of_Z 0)) x = true) l
          /\ (forall k', (k' < k)%nat ->
                fleb (nth k' l (of_Z 0)) (nth k l (of_Z 0)) = false)).
Proof.
  induction l as [|x l IH]; intros mp mi i Hmp Hl; cbn [argmin_from].
  - left. split; [reflexivity|constructor].
  - inversion Hl as [|? ? Hx Hl']; subst.
    assert (Hnth : forall k, (k < length l)%nat -> ok (nth k l (of_Z 0))).
    { intros k Hk. rewrite Forall_forall in Hl'. now apply Hl', nth_In. }
    destruct (fleb mp x) eqn:E; cbn [negb].
    + destruct (IH mp mi (S i) Hmp Hl')
        as [[-> Hall]|(k & Hk & -> & Hlt & Hall & Hfst)].
      * left. split; [reflexivity|now constructor].
      * right. exists (S k). cbn [nth length].
        assert (Hkx : fleb (nth k l (of_Z 0)) x = true).
        { apply (ok_trans (y := mp)); auto. }
        repeat split; [lia|lia|exact Hlt| |].
        -- now constructor.
        -- intros [|k'] Hk'; [|apply Hfst; lia].
           destruct (fleb x (nth k l (of_Z 0))) eqn:E'; [|reflexivity].
           rewrite <- Hlt. symmetry. apply (ok_trans (y := x)); auto.
    + rewrite (ok_not_nan Hx).
      assert (Hxmp : fleb x mp = true) by now apply ok_total.
      destruct (IH x i (S i) Hx Hl')
        as [[-> Hall]|(k & Hk & -> & Hlt & Hall & Hfst)].
      * right. exists 0%nat. cbn [nth length].
        repeat split; [lia|lia|exact E| |intros; lia].
        constructor; [now apply ok_refl|exact Hall].
      * right. exists (S k). cbn [nth length].
        assert (Hkx : fleb (nth k l (of_Z 0)) x = true)
          by (apply ok_total; auto).
        repeat split; [lia|lia| | |].
        -- destruct (fleb mp (nth k l (of_Z 0))) eqn:E'; [|reflexivity].
           rewrite <- E. symmetry. apply (ok_trans (y := nth k l (of_Z 0))); auto.
        -- now constructor.
        -- intros [|k'] Hk'; [exact Hlt|apply Hfst; lia].
Qed.

Lemma argmin_first_least (l : list F) :
  Forall ok l -> l <> [] -> exists c, argmin l = Ok c /\ first_least SF l c.
Proof.
  destruct l as [|x l]; [intros _ H; contradiction|intros Hl _].
  inversion Hl as [|? ? Hx Hl']; subst.
  unfold argmin. rewrite (ok_not_nan Hx). eexists; split; [reflexivity|].
  unfold first_least.
  destruct (argmin_from_least 0 1 Hx Hl')
    as [[-> Hall]|(k & Hk & -> & Hlt & Hall & Hfst)];
    rewrite Forall_forall in Hall; cbn [Nat.add nth length].
  - repeat split; [lia| |intros; lia].
    intros [|j] Hj; cbn [nth]; [now apply ok_refl|].
    apply Hall, nth_In. cbn in Hj; lia.
  - assert (Hk' : ok (nth k l (of_Z 0))).
    { rewrite Forall_forall in Hl'. now apply Hl', nth_In. }
    repeat split; [lia| |].
    + intros [|j] Hj; cbn [nth]; [now apply ok_total|].
      apply Hall, nth_In. cbn in Hj; lia.
    + intros [|j] Hj; cbn [nth]; [exact Hlt|apply Hfst; lia].
Qed.

End OrderedScan.

Lemma argmax_flipped {F : Type} (SF : Scalar F) (l : list F) :
  @argmax F SF l = @argmin F (flipped SF) l.
Proof.
  assert (H : forall l mp mi i,
             @argmax_from F SF mp mi i l = @argmin_from F (flipped SF) mp mi i l).
  { clear l. induction l as [|x l IH]; intros mp mi i; cbn; [reflexivity|].
    now rewrite !IH. }
  destruct l as [|x l]; cbn; [reflexivity|]. now rewrite H.
Qed.

Lemma argmax_first_greatest {F : Type} (SF : Scalar F) (ok : F -> Prop)
    (l : list F) :
  (forall x, ok x -> fis_nan x = false) ->
  (forall x y, ok x -> ok y -> fleb x y = false -> fleb y x = true) ->
  (forall x y z, ok x -> ok y -> ok z ->
                 fleb x y = true -> fleb y z = true -> fleb x z = true) ->
  Forall ok l -> l <> [] ->
  exists c, argmax l = Ok c /\ first_least (flipped SF) l c.
Proof.
  intros Hnan Htot Htr Hl Hne. rewrite argmax_flipped.
  apply (@argmin_first_least F (flipped SF) ok); cbn; auto.
  intros x y z Hx Hy Hz Hxy Hyz. apply (Htr z y x); auto.
Qed.

(** *** Cropping the centerline *)

Section ArgsortStable.
Context {F : Type} {SF : Scalar F}.

Lemma insert_by_perm (key : nat -> F) (i : nat) (l : list nat) :
  Permutation (insert_by key i l) (i :: l).
Proof.
  induction l as [|j l IH]; cbn; [reflexivity|].
  destruct (fltb (key i) (key j)); [reflexivity|].
  rewrite IH. apply perm_swap.
Qed.

(** The stable sort of the indices returns every index once. *)
Lemma argsort_stable_perm (a : list F) :
  Permutation (argsort_stable a) (seq 0 (length a)).
Proof.
  unfold argsort_stable. generalize (seq 0 (length a)) as l.
  induction l as [|i l IH]; cbn; [reflexivity|].
  rewrite insert_by_perm. now constructor.
Qed.

End ArgsortStable.


Lemma nth_map_seq {A : Type} (f : nat -> A) (n i : nat) (d : A) :
  (i < n)%nat -> nth i (map f (seq 0 n)) d = f i.
Proof.
  intros Hi. rewrite (nth_indep _ d (f 0%nat)) by now rewrite length_map, length_seq.
  rewrite map_nth, seq_nth by assumption. reflexivity.
Qed.





(** *** Doubles: NaN and zero *)

Module FloatFacts.

Lemma SFcompare_refl (x : spec_float) :
  SFcompare x x = match x with S754_nan => None | _ => Some Eq end.
Proof.
  destruct x as [s|s| |s m e]; cbn; try reflexivity.
  - now destruct s.
  - rewrite Z.compare_refl, Pos.compare_cont_refl. now destruct s.
Qed.

Lemma is_nan_spec (x : float) :
  PrimFloat.is_nan x = true <-> Prim2SF x = S754_nan.
Proof.
  unfold PrimFloat.is_nan. rewrite FloatAxioms.eqb_spec. unfold SFeqb. split.
  - rewrite SFcompare_refl. now destruct (Prim2SF x).
  - intros ->. reflexivity.
Qed.

Lemma leb_nan_r (x y : float) :
  PrimFloat.is_nan y = true -> PrimFloat.leb x y = false.
Proof.
  intros H. apply is_nan_spec in H. rewrite FloatAxioms.leb_spec, H.
  unfold SFleb. now destruct (Prim2SF x).
Qed.

Lemma leb_nan_l (x y : float) :
  PrimFloat.is_nan x = true -> PrimFloat.leb x y = false.
Proof.
  intros H. apply is_nan_spec in H. rewrite FloatAxioms.leb_spec, H. reflexivity.
Qed.

Lemma mul_nan_l (x y : float) :
  PrimFloat.is_nan x = true -> PrimFloat.is_nan (x * y) = true.
Proof.
  intros H. apply is_nan_spec in H. apply is_nan_spec.
  rewrite FloatAxioms.mul_spec, H. reflexivity.
Qed.

Lemma add_nan_l (x y : float) :
  PrimFloat.is_nan x = true -> PrimFloat.is_nan (x + y) = true.
Proof.
  intros H. apply is_nan_spec in H. apply is_nan_spec.
  rewrite FloatAxioms.add_spec, H. reflexivity.
Qed.

(** A double that compares equal to 0 is +0 or -0. *)
Lemma eqb_zero_cases (x : float) :
  PrimFloat.eqb x 0 = true -> x = 0%float \/ x = (-0)%float.
Proof.
  rewrite FloatAxioms.eqb_spec. intros H.
  assert (E : exists s, Prim2SF x = S754_zero s).
  { destruct (Prim2SF x) as [s|[|]| |[|] m e]; cbv in H;
      try discriminate H. now exists s. }
  destruct E as ([|] & E); [right|left]; apply Prim2SF_inj; rewrite E;
    reflexivity.
Qed.

(** A double minus itself is +0, or NaN when the double is infinite or a
    NaN. *)
Lemma sub_diag_cases (x : float) :
  (x - x)%float = 0%float \/ (x - x)%float = nan.
Proof.
  assert (H : Prim2SF (x - x)%float = S754_zero false
              \/ Prim2SF (x - x)%float = S754_nan).
  { rewrite FloatAxioms.sub_spec.
    destruct (Prim2SF x) as [[|]|[|]| |s m e]; try (now left); try (now right).
    left. unfold SF64sub, SFsub. cbv zeta. rewrite Z.sub_diag. reflexivity. }
  destruct H as [H|H]; [left|right]; apply Prim2SF_inj; rewrite H; reflexivity.
Qed.

End FloatFacts.

(** *** Empty skeletons *)

Lemma filter_all_false (cols : list nat) (row : list bool) :
  Forall (fun b => b = false) row ->
  filter (fun cb : nat * bool => snd cb) (combine cols row) = [].
Proof.
  intros H. revert cols.
  induction H as [|b row -> _ IH]; intros [|c cols]; cbn; try reflexivity.
  apply IH.
Qed.

Lemma np_where_all_false (skeleton : list (list bool)) :
  Forall (Forall (fun b => b = false)) skeleton -> np_where skeleton = [].
Proof.
  intros H. unfold np_where. generalize (seq 0 (length skeleton)) as rows.
  induction H as [|row skeleton Hrow _ IH]; intros [|r rows]; cbn;
    try reflexivity.
  rewrite filter_all_false by exact Hrow. cbn. apply IH.
Qed.

(** C7, as the code has it.  On a mask without a true pixel
    [sortSkeleton] hands the empty matrix of coordinates to [linkage] and
    returns what comes of it: it has no check and no error of its own.
    With a [linkage] that rejects the empty matrix, as scipy's does, the
    call fails with that routine's exception and returns no ordering. *)
Theorem sortSkeleton_empty (Dendrogram : Type)
    (linkage : list (nat * nat) -> result Dendrogram)
    (leaves_list : Dendrogram -> result (list nat))
    (skeleton : list (list bool)) :
  Forall (Forall (fun b => b = false)) skeleton ->
  sortSkeleton linkage leaves_list skeleton = bind (linkage []) leaves_list
  /\ (forall e, linkage [] = Raise e ->
                sortSkeleton linkage leaves_list skeleton = Raise e).
Proof.
  intros H. unfold sortSkeleton. rewrite (np_where_all_false H).
  split; [reflexivity|]. intros e ->. reflexivity.
Qed.

Lemma sortSkeleton_empty_witness :
  sortSkeleton Doubles.linkage Doubles.leaves_list
    [[false; false]; [false; false]]
  = bind (Doubles.linkage []) Doubles.leaves_list
  /\ (forall e, Doubles.linkage [] = Raise e ->
                sortSkeleton Doubles.linkage Doubles.leaves_list
                  [[false; false]; [false; false]] = Raise e).
Proof.
  apply (@sortSkeleton_empty _ Doubles.linkage Doubles.leaves_list
           [[false; false]; [false; false]]).
  repeat constructor.
Defined.

(** C7 as the specification words it fails: the exception of the empty
    mask is the ValueError of [linkage], not EmptySkeletonError. *)
Lemma sortSkeleton_empty_counterexample :
  sortSkeleton Doubles.linkage Doubles.leaves_list
    [[false; false]; [false; false]] = Raise ValueError
  /\ sortSkeleton Doubles.linkage Doubles.leaves_list
       [[false; false]; [false; false]] <> Raise EmptySkeletonError.
Proof. split; [reflexivity|discriminate]. Qed.

(** *** Degenerate tangents on doubles *)

Lemma normal_of_zero_tangent (dx dy : float) :
  PrimFloat.eqb dx 0 = true -> PrimFloat.eqb dy 0 = true ->
  let d := (dy * float_of_Z (-1), dx)%float in
  PrimFloat.is_nan (fst d / norm2 d)%float = true
  /\ PrimFloat.is_nan (snd d / norm2 d)%float = true.
Proof.
  intros Hx Hy.
  destruct (FloatFacts.eqb_zero_cases Hx) as [-> | ->];
    destruct (FloatFacts.eqb_zero_cases Hy) as [-> | ->];
    split; vm_compute; reflexivity.
Qed.

(** C8, as the code has it.  On doubles [normalVecCl] raises nothing for
    coefficient tuples of three entries or more, and wherever both
    components of the tangent are zero the vector it returns has NaN in
    both components. *)
Theorem normalVecCl_zero_tangent_nan
    (a0 a1 a2 b0 b1 b2 : float) (ra rb xs : list float) :
  exists ns : list (float * float),
    normalVecCl (a0 :: a1 :: a2 :: ra) (b0 :: b1 :: b2 :: rb) xs = Ok ns
    /\ Forall2
         (fun t n =>
            PrimFloat.eqb (a1 + 2 * a2 * t)%float 0 = true ->
            PrimFloat.eqb (b1 + 2 * b2 * t)%float 0 = true ->
            PrimFloat.is_nan (fst n) = true /\ PrimFloat.is_nan (snd n) = true)
         xs ns.
Proof.
  eexists. split; [apply normalVecCl_ok|].
  induction xs as [|t xs IH]; cbn [map]; constructor; [|exact IH].
  intros Hx Hy. exact (normal_of_zero_tangent Hx Hy).
Qed.

(** C8 as the specification words it fails: for the constant pair the
    tangent is zero everywhere, and the call returns NaN vectors instead of
    raising DegenerateNormalError. *)
Lemma normalVecCl_zero_tangent_counterexample :
  normalVecCl [5; 0; 0]%float [7; 0; 0]%float [0; 1]%float
  = Ok [(nan, nan); (nan, nan)]%float.
Proof. vm_compute. reflexivity. Qed.

(** *** Coincident points on doubles *)

Lemma mapM_nth {A B : Type} (f : A -> result B) (l : list A) (r : list B)
    (i : nat) (da : A) (db : B) :
  mapM f l = Ok r -> (i < length l)%nat -> f (nth i l da) = Ok (nth i r db).
Proof.
  revert r i; induction l as [|a l IH]; intros r i H Hi; [cbn in Hi; lia|].
  cbn in H. destruct (f a) as [b|] eqn:Ea; cbn in H; [|discriminate].
  destruct (mapM f l) as [bs|] eqn:El; cbn in H; [|discriminate].
  injection H as <-. destruct i as [|i]; cbn; [exact Ea|].
  apply IH; [reflexivity|cbn in Hi; lia].
Qed.

Section ArgBounds.
Context {F : Type} {SF : Scalar F}.

Lemma argmin_from_bound (l : list F) :
  forall (mp : F) (mi i : nat),
    argmin_from mp mi i l = mi
    \/ (i <= argmin_from mp mi i l < i + length l)%nat.
Proof.
  induction l as [|x l IH]; intros mp mi i; cbn [argmin_from length];
    [now left|].
  destruct (negb (fleb mp x)).
  - destruct (fis_nan x); [right; lia|].
    destruct (IH x i (S i)) as [->|H]; right; lia.
  - destruct (IH mp mi (S i)) as [->|H]; [now left|right; lia].
Qed.

Lemma argmax_from_bound (l : list F) :
  forall (mp : F) (mi i : nat),
    argmax_from mp mi i l = mi
    \/ (i <= argmax_from mp mi i l < i + length l)%nat.
Proof.
  induction l as [|x l IH]; intros mp mi i; cbn [argmax_from length];
    [now left|].
  destruct (negb (fleb x mp)).
  - destruct (fis_nan x); [right; lia|].
    destruct (IH x i (S i)) as [->|H]; right; lia.
  - destruct (IH mp mi (S i)) as [->|H]; [now left|right; lia].
Qed.

(** [np.argmin] and [np.argmax] of an array that is not empty return an
    index of the array. *)
Lemma argmin_in_range (l : list F) :
  l <> [] -> exists c, argmin l = Ok c /\ (c < length l)%nat.
Proof.
  destruct l as [|x l]; [contradiction|intros _]. cbn [argmin length].
  eexists. split; [reflexivity|].
  destruct (fis_nan x); [lia|].
  destruct (argmin_from_bound l x 0 1) as [->|H]; lia.
Qed.

Lemma argmax_in_range (l : list F) :
  l <> [] -> exists c, argmax l = Ok c /\ (c < length l)%nat.
Proof.
  destruct l as [|x l]; [contradiction|intros _]. cbn [argmax length].
  eexists. split; [reflexivity|].
  destruct (fis_nan x); [lia|].
  destruct (argmax_from_bound l x 0 1) as [->|H]; lia.
Qed.

Lemma widthPharynx_columns (cl contour dCl : list (F * F)) :
  contour <> [] -> length dCl = length cl ->
  widthPharynx cl contour dCl
  = mapM (fun '(c, n) =>
            let angles := map (angle c n) contour in
            c1 <- argmin angles ;;
            c2 <- argmax angles ;;
            p1 <- getitem contour c1 ;;
            p2 <- getitem contour c2 ;;
            Ok (p1, p2)) (combine cl dCl).
Proof.
  intros Hne Hlen. unfold widthPharynx, broadcast.
  rewrite <- Hlen, Nat.eqb_refl. cbn [bind].
  destruct contour; [contradiction|reflexivity].
Qed.

(** [widthPharynx] raises nothing when the contour is not empty and there is
    one normal per centerline point. *)
Lemma widthPharynx_ok (cl contour dCl : list (F * F)) :
  contour <> [] -> length dCl = length cl ->
  exists widths, widthPharynx cl contour dCl = Ok widths.
Proof.
  intros Hne Hlen. unfold widthPharynx, broadcast.
  rewrite <- Hlen, Nat.eqb_refl. cbn [bind].
  destruct contour as [|q contour]; [contradiction|].
  match goal with |- context [mapM ?f ?l] =>
    destruct (@mapM_all_ok _ _ (fun _ => True) f l) as (w & Hw & _)
  end.
  - intros [c n] _. cbv zeta.
    set (scores := map (angle c n) (q :: contour)).
    assert (Hs : scores <> []) by discriminate.
    assert (L : length scores = length (q :: contour)) by apply length_map.
    destruct (argmin_in_range Hs) as (c1 & -> & H1).
    destruct (argmax_in_range Hs) as (c2 & -> & H2).
    cbn [bind].
    rewrite (getitem_nth (q :: contour) q) by (rewrite <- L; exact H1).
    rewrite (getitem_nth (q :: contour) q) by (rewrite <- L; exact H2).
    cbn [bind]. eexists. split; [reflexivity|exact I].
  - exists w. exact Hw.
Qed.

End ArgBounds.

Section FirstNaN.
Local Open Scope float_scope.

Lemma first_nan_exists (l : list float) (j : nat) :
  (j < length l)%nat -> PrimFloat.is_nan (nth j l 0) = true ->
  exists k, (k <= j)%nat /\ first_nan l k.
Proof.
  revert j; induction l as [|x l IH]; intros j Hj Hn; [cbn in Hj; lia|].
  destruct (PrimFloat.is_nan x) eqn:Ex.
  - exists 0%nat. split; [lia|]. repeat split; [cbn; lia|exact Ex|intros; lia].
  - destruct j as [|j]; [cbn in Hn; congruence|].
    destruct (IH j) as (k & Hk & Hlt & Hnan & Hfst); [cbn in Hj; lia|exact Hn|].
    exists (S k). split; [lia|]. repeat split; [cbn; lia|exact Hnan|].
    intros [|k'] Hk'; [exact Ex|apply Hfst; lia].
Qed.

(** The scans of [np.argmin] and [np.argmax] stop at the first NaN. *)
Lemma argmin_from_first_nan (l : list float) :
  forall (k : nat) (mp : float) (mi i : nat),
    first_nan l k -> argmin_from mp mi i l = (i + k)%nat.
Proof.
  induction l as [|x l IH]; intros k mp mi i (Hk & Hn & Hfst);
    [cbn in Hk; lia|].
  cbn [argmin_from]. change (fis_nan x) with (PrimFloat.is_nan x).
  change (fleb mp x) with (PrimFloat.leb mp x).
  destruct k as [|k].
  - cbn in Hn. rewrite (@FloatFacts.leb_nan_r mp x Hn), Hn. cbn. lia.
  - assert (Ex : PrimFloat.is_nan x = false) by (apply (Hfst 0%nat); lia).
    rewrite Ex.
    assert (H' : first_nan l k).
    { repeat split; [cbn in Hk; lia|exact Hn|].
      intros k' Hk'. apply (Hfst (S k')). lia. }
    destruct (negb (PrimFloat.leb mp x)); rewrite (IH k _ _ _ H'); lia.
Qed.

Lemma argmax_from_first_nan (l : list float) :
  forall (k : nat) (mp : float) (mi i : nat),
    first_nan l k -> argmax_from mp mi i l = (i + k)%nat.
Proof.
  induction l as [|x l IH]; intros k mp mi i (Hk & Hn & Hfst);
    [cbn in Hk; lia|].
  cbn [argmax_from]. change (fis_nan x) with (PrimFloat.is_nan x).
  change (fleb x mp) with (PrimFloat.leb x mp).
  destruct k as [|k].
  - cbn in Hn. rewrite (@FloatFacts.leb_nan_l x mp Hn), Hn. cbn. lia.
  - assert (Ex : PrimFloat.is_nan x = false) by (apply (Hfst 0%nat); lia).
    rewrite Ex.
    assert (H' : first_nan l k).
    { repeat split; [cbn in Hk; lia|exact Hn|].
      intros k' Hk'. apply (Hfst (S k')). lia. }
    destruct (negb (PrimFloat.leb x mp)); rewrite (IH k _ _ _ H'); lia.
Qed.

Lemma argmin_first_nan (l : list float) (k : nat) :
  first_nan l k -> argmin l = Ok k.
Proof.
  intros H. destruct l as [|x l]; [destruct H as (Hk & _); cbn in Hk; lia|].
  cbn [argmin]. change (fis_nan x) with (PrimFloat.is_nan x).
  destruct H as (Hk & Hn & Hfst). destruct k as [|k].
  - cbn in Hn. now rewrite Hn.
  - assert (Ex : PrimFloat.is_nan x = false) by (apply (Hfst 0%nat); lia).
    rewrite Ex. f_equal.
    rewrite (@argmin_from_first_nan l k); [lia|].
    repeat split; [cbn in Hk; lia|exact Hn|].
    intros k' Hk'. apply (Hfst (S k')). lia.
Qed.

Lemma argmax_first_nan (l : list float) (k : nat) :
  first_nan l k -> argmax l = Ok k.
Proof.
  intros H. destruct l as [|x l]; [destruct H as (Hk & _); cbn in Hk; lia|].
  cbn [argmax]. change (fis_nan x) with (PrimFloat.is_nan x).
  destruct H as (Hk & Hn & Hfst). destruct k as [|k].
  - cbn in Hn. now rewrite Hn.
  - assert (Ex : PrimFloat.is_nan x = false) by (apply (Hfst 0%nat); lia).
    rewrite Ex. f_equal.
    rewrite (@argmax_from_first_nan l k); [lia|].
    repeat split; [cbn in Hk; lia|exact Hn|].
    intros k' Hk'. apply (Hfst (S k')). lia.
Qed.

(** The angle score of a centerline point against a contour point at the
    same place is NaN, whatever the normal. *)
Lemma angle_coincident_nan (c n : float * float) :
  PrimFloat.is_nan (angle c n c) = true.
Proof.
  unfold angle. cbn [fst snd].
  change (fsub ?a ?b) with (PrimFloat.sub a b).
  apply FloatFacts.add_nan_l, FloatFacts.mul_nan_l.
  destruct (FloatFacts.sub_diag_cases (fst c)) as [-> | ->];
    destruct (FloatFacts.sub_diag_cases (snd c)) as [-> | ->];
    vm_compute; reflexivity.
Qed.

End FirstNaN.

(** C10.  On doubles, when contour point [j] lies on centerline point [i],
    its angle score in column [i] is NaN, whatever the normal:
    [widthPharynx] divides by the zero norm unguarded.  The call still
    returns, and the segment of column [i] has the contour point of the
    first NaN score at both ends; it is no pair of a least and a greatest
    score. *)
Theorem widthPharynx_coincident_nan (cl contour dCl : list (float * float))
    (i j : nat) :
  length dCl = length cl ->
  (i < length cl)%nat ->
  (j < length contour)%nat ->
  nth j contour (0, 0)%float = nth i cl (0, 0)%float ->
  let scores :=
    map (angle (nth i cl (0, 0)%float) (nth i dCl (0, 0)%float)) contour in
  PrimFloat.is_nan (nth j scores 0%float) = true
  /\ exists widths k,
       widthPharynx cl contour dCl = Ok widths
       /\ (k <= j)%nat
       /\ first_nan scores k
       /\ nth i widths ((0, 0), (0, 0))%float
          = (nth k contour (0, 0)%float, nth k contour (0, 0)%float).
Proof.
  intros Hlen Hi Hj Hco scores.
  assert (Hsj : PrimFloat.is_nan (nth j scores 0%float) = true).
  { unfold scores.
    rewrite (nth_indep _ 0%float
               (angle (nth i cl (0, 0)%float) (nth i dCl (0, 0)%float) (0, 0)%float))
      by now rewrite length_map.
    rewrite map_nth, Hco. apply angle_coincident_nan. }
  split; [exact Hsj|].
  assert (Hne : contour <> []) by (intros ->; cbn in Hj; lia).
  destruct (@widthPharynx_ok _ _ cl contour dCl Hne Hlen) as (widths & Hw).
  destruct (@first_nan_exists scores j) as (k & Hkj & Hk);
    [unfold scores; now rewrite length_map|exact Hsj|].
  exists widths, k. repeat split; try assumption; try apply Hk.
  rewrite (@widthPharynx_columns _ _ cl contour dCl Hne Hlen) in Hw.
  assert (Hic : (i < length (combine cl dCl))%nat)
    by (rewrite length_combine; lia).
  pose proof (@mapM_nth _ _ _ _ _ i ((0, 0), (0, 0))%float
                ((0, 0), (0, 0))%float Hw Hic) as Hcol.
  rewrite combine_nth in Hcol by (symmetry; exact Hlen).
  cbv zeta in Hcol. fold scores in Hcol.
  rewrite (argmin_first_nan Hk), (argmax_first_nan Hk) in Hcol.
  cbn [bind] in Hcol.
  rewrite (getitem_nth contour (0, 0)%float) in Hcol by lia.
  cbn [bind] in Hcol. now injection Hcol as <-.
Qed.

Lemma widthPharynx_coincident_nan_witness :
  let cl := [(0, 0); (1, 0)]%float in
  let contour := [(0, 1); (0, 0); (1, 2); (1, -3)]%float in
  let dCl := [(0, 1); (0, 1)]%float in
  let scores :=
    map (angle (nth 0 cl (0, 0)%float) (nth 0 dCl (0, 0)%float)) contour in
  PrimFloat.is_nan (nth 1 scores 0%float) = true
  /\ exists widths k,
       widthPharynx cl contour dCl = Ok widths
       /\ (k <= 1)%nat
       /\ first_nan scores k
       /\ nth 0 widths ((0, 0), (0, 0))%float
          = (nth k contour (0, 0)%float, nth k contour (0, 0)%float).
Proof.
  apply (@widthPharynx_coincident_nan [(0, 0); (1, 0)]%float
           [(0, 1); (0, 0); (1, 2); (1, -3)]%float [(0, 1); (0, 1)]%float
           0%nat 1%nat);
    first [reflexivity | cbn; lia].
Defined.

(** *** Extremal scores on doubles *)


Module FloatOrder.

Lemma SFleb_total (x y : spec_float) :
  x <> S754_nan -> y <> S754_nan -> SFleb x y = false -> SFleb y x = true.
Proof.
  unfold SFleb, SFcompare.
  destruct x as [[|]|[|]| |[|] m1 e1], y as [[|]|[|]| |[|] m2 e2];
    intros Hx Hy; try contradiction; try reflexivity; try discriminate;
    cmp_cases; cbn; intros; subst; try reflexivity; try discriminate; try lia.
Qed.

Lemma SFleb_trans (x y z : spec_float) :
  SFleb x y = true -> SFleb y z = true -> SFleb x z = true.
Proof.
  unfold SFleb, SFcompare.
  destruct x as [[|]|[|]| |[|] m1 e1], y as [[|]|[|]| |[|] m2 e2],
           z as [[|]|[|]| |[|] m3 e3];
    try reflexivity; try discriminate;
    cmp_cases; cbn; intros; subst; try reflexivity; try discriminate; try lia.
Qed.

Lemma not_nan_spec (x : float) :
  PrimFloat.is_nan x = false -> Prim2SF x <> S754_nan.
Proof.
  intros H E. apply FloatFacts.is_nan_spec in E. congruence.
Qed.

(** On doubles that are no NaN, [<=] is total and transitive. *)
Lemma leb_total (x y : float) :
  PrimFloat.is_nan x = false -> PrimFloat.is_nan y = false ->
  PrimFloat.leb x y = false -> PrimFloat.leb y x = true.
Proof.
  rewrite !FloatAxioms.leb_spec. intros Hx Hy.
  apply SFleb_total; now apply not_nan_spec.
Qed.

Lemma leb_trans (x y z : float) :
  PrimFloat.leb x y = true -> PrimFloat.leb y z = true ->
  PrimFloat.leb x z = true.
Proof.
  rewrite !FloatAxioms.leb_spec. apply SFleb_trans.
Qed.

End FloatOrder.

Section ExtremalOrdered.
Context {F : Type} (SF : Scalar F).
Variable ok : F -> Prop.
Hypothesis ok_not_nan : forall x, ok x -> fis_nan x = false.
Hypothesis ok_total : forall x y, ok x -> ok y -> fleb x y = false -> fleb y x = true.
Hypothesis ok_trans :
  forall x y z, ok x -> ok y -> ok z ->
                fleb x y = true -> fleb y z = true -> fleb x z = true.

(** [widthPharynx] for any arithmetic, when all the angle scores are [ok]:
    every column gets the contour points at the first least and the first
    greatest score. *)
Lemma widthPharynx_first_least (cl contour dCl : list (F * F)) :
  contour <> [] ->
  length dCl = length cl ->
  (forall cn q, In cn (combine cl dCl) -> In q contour ->
                ok (angle (fst cn) (snd cn) q)) ->
  exists widths,
    widthPharynx cl contour dCl = Ok widths
    /\ Forall2
         (fun (cn : (F * F) * (F * F)) (w : (F * F) * (F * F)) =>
            let scores := map (angle (fst cn) (snd cn)) contour in
            exists c1 c2,
              first_least SF scores c1
              /\ first_least (flipped SF) scores c2
              /\ w = (nth c1 contour (of_Z 0, of_Z 0),
                      nth c2 contour (of_Z 0, of_Z 0)))
         (combine cl dCl) widths.
Proof.
  intros Hne Hlen Hok.
  rewrite (@widthPharynx_columns F SF cl contour dCl Hne Hlen).
  apply mapM_Forall2. intros [c n] Hin. cbv zeta. cbn [fst snd].
  set (scores := map (angle c n) contour).
  assert (Hs : scores <> [])
    by (unfold scores; destruct contour; [contradiction|discriminate]).
  assert (Hall : Forall ok scores).
  { apply Forall_forall. intros v Hv. apply in_map_iff in Hv.
    destruct Hv as (q & <- & Hq). exact (Hok (c, n) q Hin Hq). }
  assert (L : length scores = length contour) by apply length_map.
  destruct (@argmin_first_least F SF ok ok_not_nan ok_total ok_trans scores Hall Hs)
    as (c1 & -> & H1).
  destruct (@argmax_first_greatest F SF ok scores ok_not_nan ok_total ok_trans Hall Hs)
    as (c2 & -> & H2).
  cbn [bind].
  rewrite (getitem_nth contour (of_Z 0, of_Z 0)) by (rewrite <- L; apply H1).
  rewrite (getitem_nth contour (of_Z 0, of_Z 0)) by (rewrite <- L; apply H2).
  cbn [bind]. eexists. split; [reflexivity|].
  exists c1, c2. repeat split; try apply H1; try apply H2.
Qed.

End ExtremalOrdered.

(** A case of C5 on doubles: when no angle score is NaN, [widthPharynx]
    picks for
    every centerline point the first contour index of the least score and
    the first contour index of the greatest score, for the [<=] of the
    doubles. *)
Theorem widthPharynx_extremal_doubles (cl contour dCl : list (float * float)) :
  contour <> [] ->
  length dCl = length cl ->
  (forall cn q, In cn (combine cl dCl) -> In q contour ->
                PrimFloat.is_nan (angle (fst cn) (snd cn) q) = false) ->
  exists widths,
    widthPharynx cl contour dCl = Ok widths
    /\ Forall2
         (fun (cn : (float * float) * (float * float))
              (w : (float * float) * (float * float)) =>
            let scores := map (angle (fst cn) (snd cn)) contour in
            exists c1 c2,
              first_least binary64 scores c1
              /\ first_least (flipped binary64) scores c2
              /\ w = (nth c1 contour (0, 0)%float, nth c2 contour (0, 0)%float))
         (combine cl dCl) widths.
Proof.
  intros Hne Hlen Hok.
  apply (@widthPharynx_first_least float binary64
           (fun x => PrimFloat.is_nan x = false)); auto.
  - intros x y. apply FloatOrder.leb_total.
  - intros x y z _ _ _. apply FloatOrder.leb_trans.
Qed.

(** *** Widths on doubles *)

Module FloatSign.

Lemma binary_round_aux_sign (s : bool) (m e : Z) (l : location) :
  signed_as s (binary_round_aux prec emax s m e l).
Proof.
  unfold binary_round_aux.
  destruct (shr_fexp prec emax m e l) as [mrs' e'].
  destruct (shr_fexp prec emax _ e' loc_Exact) as [mrs'' e''].
  destruct (shr_m mrs''); [reflexivity| |exact I].
  destruct (Z.leb e'' _); reflexivity.
Qed.

Lemma binary_round_aux_opp (s : bool) (m e : Z) (l : location) :
  binary_round_aux prec emax (negb s) m e l
  = SFopp (binary_round_aux prec emax s m e l).
Proof.
  unfold binary_round_aux.
  destruct (shr_fexp prec emax m e l) as [mrs' e'].
  destruct (shr_fexp prec emax _ e' loc_Exact) as [mrs'' e''].
  destruct (shr_m mrs''); [reflexivity| |reflexivity].
  destruct (Z.leb e'' _); reflexivity.
Qed.

Lemma binary_normalize_opp (m e : Z) :
  binary_normalize prec emax (- m) e false
  = match m with
    | Z0 => S754_zero false
    | _ => SFopp (binary_normalize prec emax m e false)
    end.
Proof.
  destruct m as [|p|p]; cbn [Z.opp binary_normalize]; [reflexivity| |];
    unfold binary_round;
    destruct (shl_align _ _ _) as [mz ez].
  - apply (binary_round_aux_opp false).
  - rewrite (binary_round_aux_opp false).
    now destruct (binary_round_aux _ _ _ _ _ _) as [[|]|[|]| |[|] ? ?].
Qed.

(** [y - x] is [x - y] up to its sign. *)
Lemma SFsub_swap (x y : spec_float) :
  SF64sub y x = SF64sub x y \/ SF64sub y x = SFopp (SF64sub x y).
Proof.
  unfold SF64sub, SFsub.
  destruct x as [[|]|[|]| |sx mx ex], y as [[|]|[|]| |sy my ey];
    try (left; reflexivity); try (right; reflexivity).
  - right. cbn. now rewrite negb_involutive.
  - right. cbn. now rewrite negb_involutive.
  - cbv zeta. rewrite (Z.min_comm ey ex).
    set (zx := cond_Zopp sx _). set (zy := cond_Zopp sy _).
    replace (zy - zx)%Z with (- (zx - zy))%Z by lia.
    rewrite binary_normalize_opp.
    destruct (zx - zy)%Z; [left|right|right]; reflexivity.
Qed.

Lemma SFmul_opp_opp (d : spec_float) :
  SF64mul (SFopp d) (SFopp d) = SF64mul d d.
Proof.
  unfold SF64mul, SFmul. destruct d as [s|s| |s m e]; cbn [SFopp];
    try reflexivity; now destruct s.
Qed.

(** The square of a difference of doubles is the same both ways round. *)
Lemma sq_sub_swap (a b : float) :
  ((b - a) * (b - a) = (a - b) * (a - b))%float.
Proof.
  apply Prim2SF_inj. rewrite !FloatAxioms.mul_spec, !FloatAxioms.sub_spec.
  destruct (SFsub_swap (Prim2SF a) (Prim2SF b)) as [-> | ->];
    [reflexivity|apply SFmul_opp_opp].
Qed.

Lemma SFmul_self_sign (d : spec_float) : signed_as false (SF64mul d d).
Proof.
  unfold SF64mul, SFmul. destruct d as [s|s| |s m e]; cbn [signed_as];
    try (now destruct s); try exact I.
  replace (xorb s s) with false by now destruct s.
  apply binary_round_aux_sign.
Qed.

Lemma SFadd_sign (x y : spec_float) :
  signed_as false x -> signed_as false y -> signed_as false (SF64add x y).
Proof.
  unfold SF64add, SFadd.
  destruct x as [sx|sx| |sx mx ex], y as [sy|sy| |sy my ey]; cbn [signed_as];
    intros Hx Hy; subst; try reflexivity; try exact I.
  cbv zeta. cbn [cond_Zopp Z.add binary_normalize].
  unfold binary_round. destruct (shl_align _ _ _) as [mz ez].
  apply binary_round_aux_sign.
Qed.

Lemma SFsqrt_sign (x : spec_float) :
  signed_as false x -> signed_as false (SF64sqrt x).
Proof.
  unfold SF64sqrt, SFsqrt.
  destruct x as [s|s| |s m e]; cbn [signed_as]; intros H; subst;
    try reflexivity; try exact I.
  destruct (SFsqrt_core_binary _ _ _ _) as [[mz ez] lz].
  apply binary_round_aux_sign.
Qed.

Lemma signed_false_nonneg (x : float) :
  signed_as false (Prim2SF x) ->
  PrimFloat.is_nan x = true \/ PrimFloat.leb 0 x = true.
Proof.
  intros H. unfold PrimFloat.is_nan.
  rewrite FloatAxioms.eqb_spec, FloatAxioms.leb_spec.
  change (Prim2SF 0%float) with (S754_zero false).
  destruct (Prim2SF x) as [s|s| |s m e]; cbn in H; subst;
    try (right; reflexivity); left; reflexivity.
Qed.

(** The root of a sum of two squares of doubles is a NaN or is [>= 0]. *)
Lemma sqrt_sum_squares_nonneg (dx dy : float) :
  let r := PrimFloat.sqrt (dx * dx + dy * dy)%float in
  PrimFloat.is_nan r = true \/ PrimFloat.leb 0 r = true.
Proof.
  apply signed_false_nonneg.
  rewrite FloatAxioms.sqrt_spec, FloatAxioms.add_spec, !FloatAxioms.mul_spec.
  apply SFsqrt_sign, SFadd_sign; apply SFmul_self_sign.
Qed.

End FloatSign.

(** A part of C6 on doubles: every entry of [scalarWidth] is [>= 0] unless
    it is a NaN, and exchanging the end points of any of the segments leaves the
    result as it is, bit for bit. *)
Theorem scalarWidth_doubles (widths : list ((float * float) * (float * float))) :
  Forall (Forall (fun v => PrimFloat.is_nan v = true \/ PrimFloat.leb 0 v = true))
         (scalarWidth widths)
  /\ (forall mask : list bool,
        scalarWidth (swap_where mask widths) = scalarWidth widths).
Proof.
  split.
  - unfold scalarWidth. apply Forall_map, Forall_forall. intros w _.
    constructor; [|constructor]. apply FloatSign.sqrt_sum_squares_nonneg.
  - intros mask. revert mask. unfold scalarWidth.
    induction widths as [|[[x1 y1] [x2 y2]] widths IH]; intros [|[|] mask];
      cbn [swap_where map]; try reflexivity.
    + rewrite IH. do 2 f_equal. unfold sq. cbn [fst snd].
      change (fsqrt ?a) with (PrimFloat.sqrt a).
      change (fadd ?a ?b) with (PrimFloat.add a b).
      change (fmul ?a ?b) with (PrimFloat.mul a b).
      change (fsub ?a ?b) with (PrimFloat.sub a b).
      now rewrite (FloatSign.sq_sub_swap x2 x1), (FloatSign.sq_sub_swap y2 y1).
    + now rewrite IH.
Qed.

(** ** Further properties *)

(** *** Errors and edges *)

Lemma mapM_first_error {A B : Type} (f : A -> result B) (l : list A)
    (k : nat) (d : A) (e : exn) :
  (k < length l)%nat ->
  (forall i, (i < k)%nat -> exists b, f (nth i l d) = Ok b) ->
  f (nth k l d) = Raise e ->
  mapM f l = Raise e.
Proof.
  revert k; induction l as [|a l IH]; intros k Hk Hok He; [cbn in Hk; lia|].
  destruct k as [|k]; cbn [mapM].
  - cbn in He. now rewrite He.
  - destruct (Hok 0%nat) as (b & Hb); [lia|]. cbn in Hb. rewrite Hb. cbn [bind].
    rewrite (IH k); [reflexivity|cbn in Hk; lia| |exact He].
    intros i Hi. apply (Hok (S i)). lia.
Qed.

Lemma mapM_one_error {A B : Type} (f : A -> result B) (l : list A) (e : exn) :
  (forall a, In a l -> (exists b, f a = Ok b) \/ f a = Raise e) ->
  (exists a, In a l /\ f a = Raise e) ->
  mapM f l = Raise e.
Proof.
  induction l as [|a l IH]; intros Hall (a' & Hin & He); [contradiction|].
  cbn [mapM].
  destruct (Hall a (or_introl eq_refl)) as [(b & Hb)|Hr];
    [|now rewrite Hr].
  rewrite Hb. cbn [bind]. destruct Hin as [<-|Hin]; [congruence|].
  rewrite IH; [reflexivity| |now exists a'].
  intros x Hx. apply Hall. now right.
Qed.

Section EdgeFacts.
Context {F : Type} {SF : Scalar F}.
Local Open Scope sc_scope.

Lemma pharynxFunc_long (xs p : list F) (d : Z) :
  (3 <= length p)%nat ->
  exists ys, pharynxFunc xs p d = Ok ys /\ length ys = length xs.
Proof.
  intros H. destruct p as [|c0 [|c1 [|c2 p]]]; cbn in H; try lia.
  unfold pharynxFunc. destruct (d =? 1)%Z; cbn;
    eexists; (split; [reflexivity|apply length_map]).
Qed.

Lemma centerline_long (poptX poptY xs : list F) :
  (3 <= length poptX)%nat -> (3 <= length poptY)%nat ->
  exists pts, centerline poptX poptY xs = Ok pts /\ length pts = length xs.
Proof.
  intros HX HY. unfold centerline.
  destruct (@pharynxFunc_long xs poptX 0 HX) as (cx & -> & Lx).
  destruct (@pharynxFunc_long xs poptY 0 HY) as (cy & -> & Ly).
  cbn [bind]. eexists. split; [reflexivity|].
  unfold c_. rewrite length_combine. lia.
Qed.

Lemma centerline_short (poptX poptY xs : list F) :
  (length poptX < 3)%nat \/ (length poptY < 3)%nat ->
  centerline poptX poptY xs = Raise IndexError.
Proof.
  intros H. unfold centerline.
  destruct (Nat.lt_ge_cases (length poptX) 3) as [HX|HX].
  - now rewrite pharynxFunc_short.
  - destruct (@pharynxFunc_long xs poptX 0 HX) as (cx & -> & _).
    cbn [bind]. rewrite pharynxFunc_short; [reflexivity|lia].
Qed.

Lemma normalVecCl_long (poptX poptY xs : list F) :
  (3 <= length poptX)%nat -> (3 <= length poptY)%nat ->
  exists ns, normalVecCl poptX poptY xs = Ok ns /\ length ns = length xs.
Proof.
  intros HX HY.
  destruct poptX as [|a0 [|a1 [|a2 ra]]]; cbn in HX; try lia.
  destruct poptY as [|b0 [|b1 [|b2 rb]]]; cbn in HY; try lia.
  rewrite normalVecCl_ok. eexists. split; [reflexivity|apply length_map].
Qed.

Lemma normalVecCl_short (poptX poptY xs : list F) :
  (length poptX < 3)%nat \/ (length poptY < 3)%nat ->
  normalVecCl poptX poptY xs = Raise IndexError.
Proof.
  intros H. unfold normalVecCl.
  destruct (Nat.lt_ge_cases (length poptX) 3) as [HX|HX].
  - now rewrite pharynxFunc_short.
  - destruct (@pharynxFunc_long xs poptX 1 HX) as (cx & -> & _).
    cbn [bind]. rewrite pharynxFunc_short; [reflexivity|lia].
Qed.

(** [centerline] and [normalVecCl] return one row for every parameter value
    when both tuples have three coefficients or more (the docstrings' "same
    length as xs"), and raise IndexError when one of them is shorter, also
    for an empty [xs]. *)
Theorem centerline_length (poptX poptY xs : list F) :
  ((3 <= length poptX)%nat -> (3 <= length poptY)%nat ->
     (exists pts, centerline poptX poptY xs = Ok pts
                  /\ length pts = length xs)
     /\ (exists ns, normalVecCl poptX poptY xs = Ok ns
                    /\ length ns = length xs))
  /\ ((length poptX < 3)%nat \/ (length poptY < 3)%nat ->
        centerline poptX poptY xs = Raise IndexError
        /\ normalVecCl poptX poptY xs = Raise IndexError).
Proof.
  split.
  - intros HX HY. split; [now apply centerline_long|now apply normalVecCl_long].
  - intros H. split; [now apply centerline_short|now apply normalVecCl_short].
Qed.

(** [widthPharynx] raises ValueError on an empty contour and when the
    numbers of centerline points and normals differ and neither is 1;
    with a contour and one normal per centerline point it raises nothing,
    returns one segment per centerline point, and both end points of every
    segment are points of the contour, whatever the scores (NaN included). *)
Theorem widthPharynx_members (cl contour dCl : list (F * F)) :
  widthPharynx cl [] dCl = Raise ValueError
  /\ (length cl <> length dCl -> length cl <> 1%nat -> length dCl <> 1%nat ->
        widthPharynx cl contour dCl = Raise ValueError)
  /\ (contour <> [] -> length dCl = length cl ->
        exists widths,
          widthPharynx cl contour dCl = Ok widths
          /\ length widths = length cl
          /\ Forall (fun w => In (fst w) contour /\ In (snd w) contour) widths).
Proof.
  split; [|split].
  - unfold widthPharynx, broadcast.
    destruct (length cl =? length dCl)%nat; [reflexivity|].
    destruct cl as [|c [|c' cl]], dCl as [|n [|n' dCl]]; reflexivity.
  - intros Hne H1 H2. unfold widthPharynx, broadcast.
    destruct (Nat.eqb_spec (length cl) (length dCl)) as [E|_]; [contradiction|].
    destruct cl as [|c [|c' cl]], dCl as [|n [|n' dCl]]; cbn in *;
      try reflexivity; contradiction.
  - intros Hne Hlen.
    rewrite (@widthPharynx_columns F SF cl contour dCl Hne Hlen).
    match goal with |- context [mapM ?f ?l] =>
      destruct (@mapM_all_ok _ _
                  (fun w => In (fst w) contour /\ In (snd w) contour) f l)
        as (widths & Hw & Hl & Hall)
    end.
    + intros [c n] _. cbv zeta.
      set (scores := map (angle c n) contour).
      assert (Hs : scores <> [])
        by (unfold scores; destruct contour; [contradiction|discriminate]).
      assert (L : length scores = length contour) by apply length_map.
      destruct (@argmin_in_range F SF scores Hs) as (c1 & -> & H1).
      destruct (@argmax_in_range F SF scores Hs) as (c2 & -> & H2).
      cbn [bind]. rewrite L in H1, H2.
      rewrite (@getitem_nth _ contour c1 (of_Z 0, of_Z 0) H1).
      rewrite (@getitem_nth _ contour c2 (of_Z 0, of_Z 0) H2).
      cbn [bind]. eexists. split; [reflexivity|].
      split; now apply nth_In.
    + exists widths. rewrite Hw. repeat split; [|exact Hall].
      rewrite Hl, length_combine. lia.
Qed.

(** [cropcenterline] raises ValueError on an empty contour (the minimum
    over no contour point) and IndexError on a tuple of fewer than three
    coefficients, whatever [argsort] does. *)
Theorem cropcenterline_errors (argsort : list F -> list nat)
    (poptX poptY : list F) (contour : list (F * F)) (nP : Z) :
  ((3 <= length poptX)%nat -> (3 <= length poptY)%nat ->
     cropcenterline argsort poptX poptY [] nP = Raise ValueError)
  /\ ((length poptX < 3)%nat \/ (length poptY < 3)%nat ->
        cropcenterline argsort poptX poptY contour nP = Raise IndexError).
Proof.
  split.
  - intros HX HY. unfold cropcenterline.
    destruct (@linspace_length F SF ((of_Z (-1) / of_Z 4) * of_Z nP)
                ((of_Z 5 / of_Z 4) * of_Z nP) 100) as (xs & -> & Lxs); [lia|].
    cbn [bind].
    destruct (@centerline_long poptX poptY xs HX HY) as (pts & -> & Lp).
    cbn [bind].
    destruct pts as [|c pts]; [rewrite Lxs in Lp; cbn in Lp; lia|].
    reflexivity.
  - intros H. unfold cropcenterline.
    destruct (@linspace_length F SF ((of_Z (-1) / of_Z 4) * of_Z nP)
                ((of_Z 5 / of_Z 4) * of_Z nP) 100) as (xs & -> & Lxs); [lia|].
    cbn [bind]. now rewrite (@centerline_short poptX poptY xs H).
Qed.

End EdgeFacts.

Section EdgeProfiles.
Context {F : Type} {SF : Scalar F}.
Variables Image Kw : Type.
Variable profile_line : Image -> (F * F)%type -> (F * F)%type -> F -> Kw -> result (list F).
Variable kw_order : Z -> Kw.

Lemma scan_lines_short (xstart xend : F) (poptX poptY : list F)
    (width nPts : Z) :
  (0 <= nPts)%Z ->
  (length poptX < 3)%nat \/ (length poptY < 3)%nat ->
  scan_lines xstart xend poptX poptY width nPts = Raise IndexError.
Proof.
  intros Hn H. unfold scan_lines.
  destruct (@linspace_length F SF xstart xend nPts Hn) as (xn & -> & _).
  cbn [bind]. now rewrite (@centerline_short F SF poptX poptY xn H).
Qed.

(** The edges of [straightenPharynx]: a negative sample count raises
    ValueError (from np.linspace); a tuple of fewer than three coefficients
    raises IndexError; no sample gives the empty array, of shape (0,),
    without a look at the image; and the first exception of [profile_line]
    is the exception of the call. *)
Theorem straightenPharynx_edges (im : Image) (xstart xend : F)
    (poptX poptY : list F) (width nPts : Z) :
  ((nPts < 0)%Z ->
     straightenPharynx profile_line kw_order im xstart xend poptX poptY
       width nPts = Raise ValueError)
  /\ ((0 <= nPts)%Z ->
      (length poptX < 3)%nat \/ (length poptY < 3)%nat ->
      straightenPharynx profile_line kw_order im xstart xend poptX poptY
        width nPts = Raise IndexError)
  /\ ((3 <= length poptX)%nat -> (3 <= length poptY)%nat ->
      straightenPharynx profile_line kw_order im xstart xend poptX poptY
        width 0 = Ok []
      /\ np_shape (@nil (list F)) = [0%nat])
  /\ (forall lines k e,
        scan_lines xstart xend poptX poptY width nPts = Ok lines ->
        (k < length lines)%nat ->
        (forall i, (i < k)%nat ->
           exists ky,
             profile_line im (fst (nth i lines ((of_Z 0, of_Z 0), (of_Z 0, of_Z 0))))
               (snd (nth i lines ((of_Z 0, of_Z 0), (of_Z 0, of_Z 0))))
               (of_Z 1) (kw_order 3) = Ok ky) ->
        profile_line im (fst (nth k lines ((of_Z 0, of_Z 0), (of_Z 0, of_Z 0))))
          (snd (nth k lines ((of_Z 0, of_Z 0), (of_Z 0, of_Z 0))))
          (of_Z 1) (kw_order 3) = Raise e ->
        straightenPharynx profile_line kw_order im xstart xend poptX poptY
          width nPts = Raise e).
Proof.
  split; [|split; [|split]].
  - intros Hn. unfold straightenPharynx, scan_lines, linspace.
    destruct (Z.ltb_spec nPts 0) as [_|?]; [reflexivity|lia].
  - intros Hn H. unfold straightenPharynx.
    now rewrite (@scan_lines_short xstart xend poptX poptY width nPts Hn H).
  - intros HX HY. split; [|reflexivity].
    unfold straightenPharynx, scan_lines.
    change (linspace xstart xend 0) with (@Ok (list F) []). cbn [bind].
    destruct (@centerline_long F SF poptX poptY [] HX HY) as (pts & -> & Lp).
    destruct (@normalVecCl_long F SF poptX poptY [] HX HY) as (ns & -> & Ln).
    destruct pts; [|discriminate Lp]. reflexivity.
  - intros lines k e Hlines Hk Hok He. unfold straightenPharynx.
    rewrite Hlines. cbn [bind].
    now rewrite (@mapM_first_error _ _ _ lines k
                   ((of_Z 0, of_Z 0), (of_Z 0, of_Z 0)) e Hk Hok He).
Qed.

(** The edges of [intensityAlongCenterline]: a polyline of fewer than two
    points raises ValueError (np.concatenate of no array), whatever the
    keywords; a [width] sequence shorter than the number of segments raises
    IndexError at the first segment without a width. *)
Theorem intensityAlongCenterline_edges (im : Image) (cl : list (F * F))
    (kw : @kwargs F Kw) :
  ((length cl < 2)%nat ->
     intensityAlongCenterline profile_line im cl kw = Raise ValueError)
  /\ (forall w,
        width kw = Some w ->
        (length w < length cl - 1)%nat ->
        (forall i, (i < length w)%nat ->
           exists ky,
             profile_line im (nth i cl (of_Z 0, of_Z 0))
               (nth (i + 1) cl (of_Z 0, of_Z 0)) (nth i w (of_Z 0))
               (passed_on kw) = Ok ky) ->
        intensityAlongCenterline profile_line im cl kw = Raise IndexError).
Proof.
  split.
  - intros H. unfold intensityAlongCenterline.
    replace (length cl - 1)%nat with 0%nat by lia.
    destruct (width kw); reflexivity.
  - intros w Hw Hlen Hok. unfold intensityAlongCenterline. rewrite Hw.
    rewrite (@mapM_first_error _ _ _ (seq 0 (length cl - 1)) (length w) 0%nat
               IndexError); [reflexivity| | |].
    + now rewrite length_seq.
    + intros i Hi. rewrite seq_nth by lia. cbn [Nat.add].
      destruct (Hok i Hi) as (ky & Hky). exists ky.
      rewrite (@getitem_nth _ cl i (of_Z 0, of_Z 0)) by lia.
      rewrite (@getitem_nth _ cl (i + 1) (of_Z 0, of_Z 0)) by lia.
      rewrite (@getitem_nth _ w i (of_Z 0)) by lia.
      cbn [bind]. exact Hky.
    + rewrite seq_nth by lia. cbn [Nat.add].
      rewrite (@getitem_nth _ cl (length w) (of_Z 0, of_Z 0)) by lia.
      rewrite (@getitem_nth _ cl (length w + 1) (of_Z 0, of_Z 0)) by lia.
      cbn [bind]. unfold getitem.
      now rewrite (proj2 (nth_error_None w (length w)) (Nat.le_refl _)).
Qed.

End EdgeProfiles.

(** *** Geometry of the normals and of the scan lines, in exact arithmetic *)

Lemma unit_sum_squares (x y : R) :
  (x <> 0 \/ y <> 0)%R ->
  let n := norm2 (x, y) in
  ((x / n) ^ 2 + (y / n) ^ 2 = 1)%R.
Proof.
  intros H n.
  assert (Hn : (0 < n)%R) by (apply norm2_pos; exact H).
  assert (Hs : (n * n = x * x + y * y)%R) by (apply (norm2_sqr (x, y))).
  field_simplify_eq; [|lra]. nra.
Qed.

Lemma norm2_scale (k x y : R) :
  (0 < k)%R -> norm2 (k * x, k * y)%R = (k * norm2 (x, y))%R.
Proof.
  intros Hk. unfold norm2; cbn.
  replace (k * x * (k * x) + k * y * (k * y))%R
    with ((k * k) * (x * x + y * y))%R by ring.
  rewrite sqrt_mult; [|nra|nra]. now rewrite sqrt_square by lra.
Qed.

(** The normal of [normalVecCl] is the unit tangent turned by a quarter turn
    from the first axis towards the second: it is [(-dy, dx) / |(dx, dy)|],
    and the pair (tangent, normal) has the positive determinant
    [|(dx, dy)|]. *)
Theorem normalVecCl_quarter_turn
    (a0 a1 a2 b0 b1 b2 : R) (ra rb xs : list R) :
  (forall t, In t xs ->
             (a1 + 2 * a2 * t <> 0 \/ b1 + 2 * b2 * t <> 0)%R) ->
  exists ns : list (R * R),
    normalVecCl (a0 :: a1 :: a2 :: ra) (b0 :: b1 :: b2 :: rb) xs = Ok ns
    /\ Forall2
         (fun t n =>
            let dx := (a1 + 2 * a2 * t)%R in
            let dy := (b1 + 2 * b2 * t)%R in
            let len := sqrt (dx ^ 2 + dy ^ 2) in
            (0 < len)%R
            /\ n = (- dy / len, dx / len)%R
            /\ (dx * snd n - dy * fst n = len)%R)
         xs ns.
Proof.
  intros Hnz. eexists. split; [apply normalVecCl_ok|].
  induction xs as [|t xs IH]; cbn; constructor;
    [|apply IH; intros u Hu; apply Hnz; now right].
  assert (H : (a1 + 2 * a2 * t <> 0 \/ b1 + 2 * b2 * t <> 0)%R)
    by (apply Hnz; now left).
  revert H.
  generalize (a1 + 2 * a2 * t)%R. generalize (b1 + 2 * b2 * t)%R.
  intros dy dx H.
  replace (dy * -1 * (dy * -1) + dx * dx)%R
    with (dx * (dx * 1) + dy * (dy * 1))%R by ring.
  assert (Hpos : (0 < sqrt (dx * (dx * 1) + dy * (dy * 1)))%R).
  { apply sqrt_lt_R0. destruct H; nra. }
  assert (Hsq : (sqrt (dx * (dx * 1) + dy * (dy * 1))
                 * sqrt (dx * (dx * 1) + dy * (dy * 1))
                 = dx * (dx * 1) + dy * (dy * 1))%R) by (apply sqrt_sqrt; nra).
  revert Hpos Hsq. generalize (sqrt (dx * (dx * 1) + dy * (dy * 1))).
  intros len Hpos Hsq.
  split; [exact Hpos|]. split.
  - f_equal. field. lra.
  - cbn [fst snd].
    transitivity (len * len / len)%R; [rewrite Hsq|]; field; lra.
Qed.

Lemma normalVecCl_quarter_turn_witness :
  exists ns : list (R * R),
    normalVecCl [0; 3; 0]%R [0; 4; 0]%R [0; 1]%R = Ok ns
    /\ Forall2
         (fun t n =>
            let dx := (3 + 2 * 0 * t)%R in
            let dy := (4 + 2 * 0 * t)%R in
            let len := sqrt (dx ^ 2 + dy ^ 2) in
            (0 < len)%R
            /\ n = (- dy / len, dx / len)%R
            /\ (dx * snd n - dy * fst n = len)%R)
         [0; 1]%R ns.
Proof.
  apply (@normalVecCl_quarter_turn 0 3 0 0 4 0 [] [] [0; 1]%R).
  intros t _. left. lra.
Defined.

(** The normals do not change when both models are scaled by the same
    positive factor (an image magnified about the origin), nor when the
    constant coefficients change (an image shifted). *)
Theorem normalVecCl_scale_shift
    (k a0 a1 a2 b0 b1 b2 a0' b0' : R) (xs : list R) :
  (0 < k)%R ->
  normalVecCl [a0'; k * a1; k * a2]%R [b0'; k * b1; k * b2]%R xs
  = normalVecCl [a0; a1; a2] [b0; b1; b2] xs.
Proof.
  intros Hk. rewrite !normalVecCl_ok. f_equal. apply map_ext. intros t.
  cbn.
  replace ((k * b1 + 2 * (k * b2) * t) * -1)%R
    with (k * ((b1 + 2 * b2 * t) * -1))%R by ring.
  replace (k * a1 + 2 * (k * a2) * t)%R
    with (k * (a1 + 2 * a2 * t))%R by ring.
  generalize (a1 + 2 * a2 * t)%R. generalize ((b1 + 2 * b2 * t) * -1)%R.
  intros y x.
  pose proof (norm2_scale y x Hk) as Hsc.
  pose proof (norm2_sqr (y, x)) as Hs.
  unfold norm2 in Hsc, Hs. cbn in Hsc, Hs. rewrite Hsc. clear Hsc.
  revert Hs. generalize (sqrt (y * y + x * x)). intros n Hs.
  destruct (Req_dec n 0) as [E|E].
  - rewrite E in Hs |- *.
    assert (Hd : (y = 0 /\ x = 0)%R) by nra.
    destruct Hd as [-> ->]. f_equal; unfold Rdiv; ring.
  - f_equal; field; split; lra.
Qed.

Lemma normalVecCl_scale_shift_witness :
  normalVecCl [7; 2 * 3; 2 * 0]%R [9; 2 * 4; 2 * 0]%R [0; 1]%R
  = normalVecCl [0; 3; 0]%R [0; 4; 0]%R [0; 1]%R.
Proof.
  apply (@normalVecCl_scale_shift 2 0 3 0 0 4 0 7 9 [0; 1]%R). lra.
Defined.

Lemma Forall2_map_same {A B : Type} (P : A -> B -> Prop) (f : A -> B)
    (l : list A) :
  (forall a, In a l -> P a (f a)) -> Forall2 P l (map f l).
Proof.
  induction l as [|a l IH]; intros H; cbn; constructor.
  - apply H. now left.
  - apply IH. intros b Hb. apply H. now right.
Qed.

(** The lines that [straightenPharynx] scans: where the tangent of the
    model is not the zero vector, the line of a sample is centred on the
    centerline point of that sample, is [2 |width|] long and is
    perpendicular to the tangent. *)
Theorem scan_lines_geometry
    (xstart xend a0 a1 a2 b0 b1 b2 : R) (ra rb : list R) (width nPts : Z) :
  (0 <= nPts)%Z ->
  (forall t : R, (a1 + 2 * a2 * t <> 0 \/ b1 + 2 * b2 * t <> 0)%R) ->
  exists xn lines,
    linspace xstart xend nPts = Ok xn
    /\ scan_lines xstart xend (a0 :: a1 :: a2 :: ra) (b0 :: b1 :: b2 :: rb)
         width nPts = Ok lines
    /\ Forall2
         (fun t l =>
            let p := fst l in
            let q := snd l in
            ((fst p + fst q) / 2 = a0 + a1 * t + a2 * (t * t)
             /\ (snd p + snd q) / 2 = b0 + b1 * t + b2 * (t * t)
             /\ dist p q = 2 * Rabs (IZR width)
             /\ (fst p - fst q) * (a1 + 2 * a2 * t)
                + (snd p - snd q) * (b1 + 2 * b2 * t) = 0)%R)
         xn lines.
Proof.
  intros Hn Hnz. unfold scan_lines.
  destruct (@linspace_length _ _ xstart xend nPts Hn) as (xn & Hxn & _).
  exists xn. rewrite Hxn. cbn [bind].
  rewrite centerline_ok, normalVecCl_ok. cbn [bind].
  rewrite combine_map_same, map_map.
  eexists. split; [reflexivity|]. split; [reflexivity|].
  apply Forall2_map_same. intros t _. cbn.
  specialize (Hnz t). revert Hnz.
  generalize (a1 + 2 * a2 * t)%R. generalize (b1 + 2 * b2 * t)%R.
  intros dy dx H.
  assert (H' : (dy * -1 <> 0 \/ dx <> 0)%R)
    by (destruct H; [right; assumption | left; lra]).
  pose proof (norm2_pos (dy * -1, dx)%R H') as Hpos.
  pose proof (unit_sum_squares H') as Hu.
  unfold norm2 in Hpos, Hu. cbn in Hpos, Hu.
  revert Hpos Hu. generalize (sqrt (dy * -1 * (dy * -1) + dx * dx)).
  intros n Hpos Hu.
  generalize (a0 + a1 * t + a2 * (t * t))%R.
  generalize (b0 + b1 * t + b2 * (t * t))%R.
  intros cy cx. generalize (IZR width). intros w.
  split; [field; lra|]. split; [field; lra|]. split.
  - unfold dist; cbn.
    replace ((cx + w * (dy * -1 / n) - (cx - w * (dy * -1 / n)))
             * ((cx + w * (dy * -1 / n) - (cx - w * (dy * -1 / n))) * 1)
             + (cy + w * (dx / n) - (cy - w * (dx / n)))
               * ((cy + w * (dx / n) - (cy - w * (dx / n))) * 1))%R
      with (Rsqr (2 * w)
            * (dy * -1 / n * (dy * -1 / n * 1) + dx / n * (dx / n * 1)))%R
      by (unfold Rsqr; ring).
    rewrite Hu, Rmult_1_r, sqrt_Rsqr_abs, Rabs_mult.
    rewrite (Rabs_pos_eq 2) by lra. reflexivity.
  - field. lra.
Qed.

Lemma scan_lines_geometry_witness :
  exists xn lines,
    linspace 0%R 10%R 5 = Ok xn
    /\ scan_lines 0%R 10%R [0; 3; 0]%R [0; 4; 0]%R 2 5 = Ok lines
    /\ Forall2
         (fun t l =>
            let p := fst l in
            let q := snd l in
            ((fst p + fst q) / 2 = 0 + 3 * t + 0 * (t * t)
             /\ (snd p + snd q) / 2 = 0 + 4 * t + 0 * (t * t)
             /\ dist p q = 2 * Rabs (IZR 2)
             /\ (fst p - fst q) * (3 + 2 * 0 * t)
                + (snd p - snd q) * (4 + 2 * 0 * t) = 0)%R)
         xn lines.
Proof.
  apply (@scan_lines_geometry 0 10 0 3 0 0 4 0 [] [] 2 5); [lia|].
  intros t. left. lra.
Defined.

(** *** The range of the straightened image, in exact arithmetic *)

Lemma Rltb_true (x y : R) : Rltb x y = true <-> (x < y)%R.
Proof. unfold Rltb. destruct (Rlt_dec x y); split; intros; easy. Qed.

Lemma Rltb_false (x y : R) : Rltb x y = false <-> (y <= x)%R.
Proof.
  unfold Rltb. destruct (Rlt_dec x y); split; intros; try easy; lra.
Qed.

Lemma interp_right_within (lo hi x : R) (rest : list (R * R)) :
  forall x0 f0 : R,
    (x0 <= x)%R -> (lo <= f0 <= hi)%R ->
    Forall (fun p => (lo <= snd p <= hi)%R) rest ->
    increasing_from x0 rest ->
    (lo <= interp_right x x0 f0 rest <= hi)%R.
Proof.
  induction rest as [|[x1 f1] rest IH]; intros x0 f0 Hx Hf Hall Hinc;
    cbn [interp_right]; [exact Hf|].
  inversion Hall as [|? ? Hf1 Hrest]; subst. cbn [snd] in Hf1.
  destruct Hinc as [H01 Hinc].
  change (fltb x x1) with (Rltb x x1). change (feqb x x0) with (Reqb x x0).
  destruct (Rltb x x1) eqn:E1.
  - apply Rltb_true in E1.
    destruct (Reqb x x0) eqn:E0; [exact Hf|].
    change ((f1 - f0) / (x1 - x0) * (x - x0) + f0)%sc
      with ((f1 - f0) / (x1 - x0) * (x - x0) + f0)%R.
    set (lam := ((x - x0) / (x1 - x0))%R).
    assert (Hl : (0 <= lam <= 1)%R).
    { unfold lam. split.
      - apply Rmult_le_pos; [lra|]. left. apply Rinv_0_lt_compat. lra.
      - apply Rmult_le_reg_r with (x1 - x0)%R; [lra|].
        unfold Rdiv. rewrite Rmult_assoc, Rinv_l by lra. lra. }
    replace ((f1 - f0) / (x1 - x0) * (x - x0) + f0)%R
      with (f0 + lam * (f1 - f0))%R by (unfold lam; field; lra).
    split; nra.
  - apply Rltb_false in E1. now apply IH.
Qed.

Lemma interp_within (lo hi : R) (x xp fp : list R) :
  length xp = length fp -> fp <> [] ->
  (forall x0 f0 rest, combine xp fp = (x0, f0) :: rest ->
                      increasing_from x0 rest) ->
  within lo hi fp ->
  exists r, interp x xp fp = Ok r /\ within lo hi r.
Proof.
  intros Hlen Hne Hinc Hfp. unfold interp. rewrite Hlen, Nat.eqb_refl. cbn [negb].
  assert (Hc : Forall (fun p => (lo <= snd p <= hi)%R) (combine xp fp)).
  { apply Forall_forall. intros [a b] Hin. cbn [snd].
    apply in_combine_r in Hin. unfold within in Hfp.
    rewrite Forall_forall in Hfp. now apply Hfp. }
  destruct (combine xp fp) as [|[x0 f0] rest] eqn:E.
  - destruct xp, fp; try discriminate; contradiction.
  - inversion Hc as [|? ? Hf0 Hrest]; subst. cbn [snd] in Hf0.
    eexists. split; [reflexivity|].
    unfold within. apply Forall_forall. intros v Hv.
    apply in_map_iff in Hv. destruct Hv as (t & <- & _).
    change (fis_nan t) with false. cbv iota.
    change (fltb t x0) with (Rltb t x0).
    destruct (Rltb t x0) eqn:Et; [exact Hf0|].
    apply Rltb_false in Et.
    apply interp_right_within; auto. now apply (Hinc x0 f0 rest).
Qed.

Lemma combine_increasing (g : nat -> R) (n : nat) :
  (forall i, (g i < g (S i))%R) ->
  forall (s : nat) (ky : list R) x0 f0 rest,
    combine (map g (seq s n)) ky = (x0, f0) :: rest ->
    x0 = g s /\ increasing_from x0 rest.
Proof.
  intros Hg. induction n as [|n IH]; intros s ky x0 f0 rest E;
    [discriminate|].
  destruct ky as [|k ky]; [discriminate|].
  cbn in E. injection E as <- <- <-. split; [reflexivity|].
  destruct (combine (map g (seq (S s) n)) ky) as [|[x1 f1] rest'] eqn:E';
    [exact I|].
  destruct (IH (S s) ky x1 f1 rest' E') as [-> Hinc].
  cbn. split; [apply Hg|exact Hinc].
Qed.

Lemma arange_half_increasing (ky : list R) x0 f0 rest :
  combine (arange_half (length ky)) ky = (x0, f0) :: rest ->
  increasing_from x0 rest.
Proof.
  intros E. unfold arange_half in E.
  apply combine_increasing in E; [tauto|].
  intros i. cbn [of_Z fadd fsub fmul fdiv real].
  rewrite Nat2Z.inj_succ, succ_IZR. lra.
Qed.

Section RangeOfProfiles.
Variables Image Kw : Type.
Variable profile_line : Image -> (R * R) -> (R * R) -> R -> Kw -> result (list R).
Variable kw_order : Z -> Kw.

(** Resampling adds no value outside the range of the data: when every
    line scan yields a profile, not empty, with entries between [lo] and
    [hi], every entry of the image that [straightenPharynx] returns lies
    between [lo] and [hi]. *)
Theorem straightenPharynx_range (im : Image) (xstart xend : R)
    (a0 a1 a2 b0 b1 b2 : R) (ra rb : list R) (width nPts : Z) (lo hi : R) :
  (0 <= nPts)%Z ->
  (forall lines pts,
      scan_lines xstart xend (a0 :: a1 :: a2 :: ra) (b0 :: b1 :: b2 :: rb)
        width nPts = Ok lines ->
      In pts lines ->
      exists ky,
        profile_line im (fst pts) (snd pts) 1%R (kw_order 3) = Ok ky
        /\ ky <> [] /\ within lo hi ky) ->
  exists rows,
    straightenPharynx profile_line kw_order im xstart xend
      (a0 :: a1 :: a2 :: ra) (b0 :: b1 :: b2 :: rb) width nPts = Ok rows
    /\ Forall (within lo hi) rows.
Proof.
  intros Hn Hprof. unfold straightenPharynx.
  destruct (@scan_lines_ok _ _ xstart xend a0 a1 a2 b0 b1 b2 ra rb width nPts Hn)
    as (lines & Hlines & _).
  rewrite Hlines. cbn [bind].
  match goal with |- context [mapM ?f lines] =>
    destruct (@mapM_all_ok _ _ (fun ky => ky <> [] /\ within lo hi ky) f lines)
      as (kymo & -> & _ & Hk)
  end.
  { intros pts Hin. exact (Hprof lines pts Hlines Hin). }
  cbn [bind].
  match goal with |- context [mapM ?f kymo] =>
    destruct (@mapM_all_ok _ _ (within lo hi) f kymo)
      as (rows & -> & _ & Hrows)
  end.
  { intros ky Hky. rewrite Forall_forall in Hk.
    destruct (Hk ky Hky) as [Hne Hw].
    apply interp_within; auto.
    - unfold arange_half. now rewrite length_map, length_seq.
    - intros x0 f0 rest. apply arange_half_increasing. }
  exists rows. split; [reflexivity|exact Hrows].
Qed.

End RangeOfProfiles.

Lemma straightenPharynx_range_witness :
  exists rows,
    straightenPharynx Exact.profile_line (fun n => n)
      (fun p : R * R => 5%R) 0%R 10%R [0; 3; 0]%R [0; 4; 0]%R 2 5 = Ok rows
    /\ Forall (within 0 10) rows.
Proof.
  apply (@straightenPharynx_range _ _ Exact.profile_line (fun n => n)
           (fun p : R * R => 5%R) 0%R 10%R 0%R 3%R 0%R 0%R 4%R 0%R [] []
           2%Z 5%Z 0%R 10%R).
  - lia.
  - intros lines pts _ _. eexists. split; [reflexivity|].
    split; [discriminate|]. repeat constructor; lra.
Defined.

(** *** Symmetries of the widths, in exact arithmetic *)

Lemma mapM_map {A B C : Type} (f : B -> result C) (g : A -> B) (l : list A) :
  mapM f (map g l) = mapM (fun a => f (g a)) l.
Proof.
  induction l as [|a l IH]; cbn; [reflexivity|now rewrite IH].
Qed.

Lemma mapM_ext {A B : Type} (f g : A -> result B) (l : list A) :
  (forall a, f a = g a) -> mapM f l = mapM g l.
Proof.
  intros H. induction l as [|a l IH]; cbn; [reflexivity|].
  now rewrite H, IH.
Qed.

Lemma mapM_then_map {A B C : Type} (f : A -> result B) (h : B -> C)
    (l : list A) :
  mapM (fun a => b <- f a ;; Ok (h b)) l
  = (r <- mapM f l ;; Ok (map h r)).
Proof.
  induction l as [|a l IH]; cbn; [reflexivity|].
  destruct (f a) as [b|e]; cbn; [|reflexivity].
  rewrite IH. destruct (mapM f l); reflexivity.
Qed.

Lemma getitem_map {A B : Type} (f : A -> B) (l : list A) (i : nat) :
  getitem (map f l) i = (x <- getitem l i ;; Ok (f x)).
Proof.
  unfold getitem. rewrite nth_error_map.
  destruct (nth_error l i); reflexivity.
Qed.

Lemma getitem_error {A : Type} (l : list A) (i : nat) (e : exn) :
  getitem l i = Raise e -> e = IndexError.
Proof.
  unfold getitem. destruct (nth_error l i); intros H; inversion H.
  reflexivity.
Qed.

Section BroadcastFacts.
Context {F : Type} {SF : Scalar F}.

Lemma broadcast_map_l (f : F * F -> F * F) (a b : list (F * F)) :
  broadcast (map f a) b
  = (cols <- broadcast a b ;; Ok (map (fun p => (f (fst p), snd p)) cols)).
Proof.
  unfold broadcast. rewrite length_map.
  destruct (length a =? length b)%nat.
  - cbn. f_equal. revert b. induction a as [|x a IH]; intros [|y b]; cbn;
      try reflexivity. now rewrite IH.
  - destruct a as [|a0 [|a1 a]]; cbn.
    + destruct b as [|b0 [|b1 b]]; reflexivity.
    + now rewrite map_map.
    + destruct b as [|b0 [|b1 b]]; cbn; try reflexivity.
      now rewrite !map_map.
Qed.

Lemma broadcast_map_r (f : F * F -> F * F) (a b : list (F * F)) :
  broadcast a (map f b)
  = (cols <- broadcast a b ;; Ok (map (fun p => (fst p, f (snd p))) cols)).
Proof.
  unfold broadcast. rewrite length_map.
  destruct (length a =? length b)%nat.
  - cbn. f_equal. revert b. induction a as [|x a IH]; intros [|y b]; cbn;
      try reflexivity. now rewrite IH.
  - destruct a as [|a0 [|a1 a]]; cbn.
    + destruct b as [|b0 [|b1 b]]; reflexivity.
    + now rewrite !map_map.
    + destruct b as [|b0 [|b1 b]]; cbn; try reflexivity.
      now rewrite !map_map.
Qed.

End BroadcastFacts.

Lemma angle_shift (v c n q : R * R) :
  angle (shift v c) n (shift v q) = angle c n q.
Proof.
  unfold angle, shift. cbn [fst snd].
  change (fsub ?a ?b) with (a - b)%R.
  replace (fst c + fst v - (fst q + fst v))%R with (fst c - fst q)%R by ring.
  replace (snd c + snd v - (snd q + snd v))%R with (snd c - snd q)%R by ring.
  reflexivity.
Qed.

Lemma angle_reversed (c n q : R * R) :
  angle c (reversed n) q = (- angle c n q)%R.
Proof.
  unfold angle, reversed. cbn [fst snd].
  change (fadd ?a ?b) with (a + b)%R. change (fmul ?a ?b) with (a * b)%R.
  ring.
Qed.

Lemma argmin_from_opp (l : list R) :
  forall (mp : R) (mi i : nat),
    argmin_from (- mp)%R mi i (map Ropp l) = argmax_from mp mi i l.
Proof.
  induction l as [|x l IH]; intros mp mi i; cbn [map argmin_from argmax_from];
    [reflexivity|].
  change (fleb (- mp)%R (- x)%R) with (Rleb (- mp) (- x)).
  change (fleb x mp) with (Rleb x mp).
  change (fis_nan (- x)%R) with false. change (fis_nan x) with false.
  assert (E : Rleb (- mp) (- x) = Rleb x mp).
  { destruct (Rleb x mp) eqn:E.
    - apply Rleb_true in E. apply Rleb_true. lra.
    - apply Rleb_false in E. apply Rleb_false. lra. }
  rewrite E. destruct (Rleb x mp); cbn [negb]; apply IH.
Qed.

Lemma argmax_from_opp (l : list R) :
  forall (mp : R) (mi i : nat),
    argmax_from (- mp)%R mi i (map Ropp l) = argmin_from mp mi i l.
Proof.
  induction l as [|x l IH]; intros mp mi i; cbn [map argmin_from argmax_from];
    [reflexivity|].
  change (fleb (- x)%R (- mp)%R) with (Rleb (- x) (- mp)).
  change (fleb mp x) with (Rleb mp x).
  change (fis_nan (- x)%R) with false. change (fis_nan x) with false.
  assert (E : Rleb (- x) (- mp) = Rleb mp x).
  { destruct (Rleb mp x) eqn:E.
    - apply Rleb_true in E. apply Rleb_true. lra.
    - apply Rleb_false in E. apply Rleb_false. lra. }
  rewrite E. destruct (Rleb mp x); cbn [negb]; apply IH.
Qed.

Lemma argmin_opp (l : list R) : argmin (map Ropp l) = argmax l.
Proof.
  destruct l as [|x l]; [reflexivity|]. cbn [map argmin argmax].
  change (fis_nan (- x)%R) with false. change (fis_nan x) with false.
  cbv iota. f_equal. apply argmin_from_opp.
Qed.

Lemma argmax_opp (l : list R) : argmax (map Ropp l) = argmin l.
Proof.
  destruct l as [|x l]; [reflexivity|]. cbn [map argmin argmax].
  change (fis_nan (- x)%R) with false. change (fis_nan x) with false.
  cbv iota. f_equal. apply argmax_from_opp.
Qed.

(** Moving the centerline and the contour by one vector moves the width
    segments by that vector, whatever the normals are, and leaves the scalar
    widths as they were; a call that fails fails in the same way. *)
Theorem widthPharynx_shift (v : R * R) (cl contour dCl : list (R * R)) :
  widthPharynx (map (shift v) cl) (map (shift v) contour) dCl
  = (widths <- widthPharynx cl contour dCl ;;
     Ok (map (fun w => (shift v (fst w), shift v (snd w))) widths))
  /\ (forall widths : list ((R * R) * (R * R)),
        scalarWidth (map (fun w => (shift v (fst w), shift v (snd w))) widths)
        = scalarWidth widths).
Proof.
  split.
  - unfold widthPharynx. rewrite broadcast_map_l.
    destruct (broadcast cl dCl) as [cols|e]; cbn [bind]; [|reflexivity].
    destruct contour as [|q0 contour]; [reflexivity|].
    change (map (shift v) (q0 :: contour))
      with (shift v q0 :: map (shift v) contour).
    cbv iota.
    change (shift v q0 :: map (shift v) contour)
      with (map (shift v) (q0 :: contour)).
    generalize (q0 :: contour). intros ct.
    rewrite mapM_map, <- mapM_then_map. apply mapM_ext. intros [c n].
    cbn [fst snd]. rewrite map_map.
    rewrite (map_ext (fun q => angle (shift v c) n (shift v q)) (angle c n))
      by (intros q; apply angle_shift).
    destruct (argmin (map (angle c n) ct)) as [c1|e]; cbn [bind];
      [|reflexivity].
    destruct (argmax (map (angle c n) ct)) as [c2|e]; cbn [bind];
      [|reflexivity].
    rewrite !getitem_map.
    destruct (getitem ct c1) as [p1|e]; cbn [bind]; [|reflexivity].
    destruct (getitem ct c2) as [p2|e]; reflexivity.
  - intros widths. unfold scalarWidth. rewrite map_map. apply map_ext.
    intros [[x1 y1] [x2 y2]]. unfold shift. cbn. do 2 f_equal. ring.
Qed.

(** Reversing every normal exchanges the two ends of every width segment
    and leaves the scalar widths as they were; a call that fails fails in
    the same way. *)
Theorem widthPharynx_reversed_normals (cl contour dCl : list (R * R)) :
  widthPharynx cl contour (map reversed dCl)
  = (widths <- widthPharynx cl contour dCl ;; Ok (map exchanged widths))
  /\ (forall widths : list ((R * R) * (R * R)),
        scalarWidth (map exchanged widths) = scalarWidth widths).
Proof.
  split.
  - unfold widthPharynx. rewrite broadcast_map_r.
    destruct (broadcast cl dCl) as [cols|e]; cbn [bind]; [|reflexivity].
    destruct contour as [|q0 contour]; [reflexivity|].
    generalize (q0 :: contour). intros ct.
    rewrite mapM_map, <- mapM_then_map. apply mapM_ext. intros [c n].
    cbn [fst snd].
    rewrite (map_ext (angle c (reversed n)) (fun q => Ropp (angle c n q)))
      by (intros q; apply angle_reversed).
    rewrite <- (map_map (angle c n) Ropp), argmin_opp, argmax_opp.
    destruct (map (angle c n) ct) as [|a l]; [reflexivity|].
    cbn [argmin argmax bind].
    match goal with
    | |- (p1 <- getitem ct ?i ;; p2 <- getitem ct ?j ;; _) = _ =>
        destruct (getitem ct i) as [p1|e1] eqn:E1;
        destruct (getitem ct j) as [p2|e2] eqn:E2; cbn [bind];
        try reflexivity
    end.
    apply getitem_error in E1. apply getitem_error in E2. now subst.
  - intros widths. unfold scalarWidth. rewrite map_map. apply map_ext.
    intros [[x1 y1] [x2 y2]]. unfold exchanged. cbn. do 2 f_equal. ring.
Qed.

(** *** Widths of length zero *)

(** In exact arithmetic a scalar width is one number per segment, and it is
    0 exactly when the two ends of the segment are one point. *)
Theorem scalarWidth_zero (widths : list ((R * R) * (R * R))) :
  length (scalarWidth widths) = length widths
  /\ Forall2
       (fun w row => exists d : R, row = [d] /\ (d = 0%R <-> fst w = snd w))
       widths (scalarWidth widths).
Proof.
  unfold scalarWidth. split; [apply length_map|].
  apply Forall2_map_same. intros [[x1 y1] [x2 y2]] _.
  eexists. split; [reflexivity|]. cbn.
  split.
  - intros H.
    fold (Rsqr (x2 - x1)) in H. fold (Rsqr (y2 - y1)) in H.
    apply sqrt_eq_0 in H;
      [|apply Rplus_le_le_0_compat; apply Rle_0_sqr].
    destruct (Rplus_sqr_eq_0 (x2 - x1) (y2 - y1) H) as [H1 H2].
    f_equal; lra.
  - intros H. injection H as -> ->.
    replace ((x2 - x2) * (x2 - x2) + (y2 - y2) * (y2 - y2))%R with 0%R by ring.
    apply sqrt_0.
Qed.

Lemma mapM_length {A B : Type} (f : A -> result B) (l : list A) (r : list B) :
  mapM f l = Ok r -> length r = length l.
Proof.
  revert r; induction l as [|a l IH]; intros r H; cbn in H.
  - now injection H as <-.
  - destruct (f a) as [b|]; cbn in H; [|discriminate].
    destruct (mapM f l) as [bs|]; cbn in H; [|discriminate].
    injection H as <-. cbn. f_equal. now apply IH.
Qed.

Module FloatFinite.

Lemma is_finite_spec (x : float) :
  PrimFloat.is_finite x = true ->
  exists s, Prim2SF x = S754_zero s
            \/ exists m e, Prim2SF x = S754_finite s m e.
Proof.
  unfold PrimFloat.is_finite, PrimFloat.is_infinity. intros H.
  apply negb_true_iff, orb_false_iff in H. destruct H as [Hn Hi].
  rewrite FloatAxioms.eqb_spec, FloatAxioms.abs_spec in Hi.
  destruct (Prim2SF x) as [s|s| |s m e] eqn:E.
  - exists s. now left.
  - cbv in Hi. discriminate.
  - apply FloatFacts.is_nan_spec in E. congruence.
  - exists s. right. now exists m, e.
Qed.

Lemma sub_diag_finite (x : float) :
  PrimFloat.is_finite x = true -> (x - x)%float = 0%float.
Proof.
  intros H. destruct (FloatFacts.sub_diag_cases x) as [E|E]; [exact E|].
  exfalso.
  assert (N : Prim2SF (x - x)%float = S754_nan) by (rewrite E; reflexivity).
  rewrite FloatAxioms.sub_spec in N.
  destruct (@is_finite_spec x H) as (s & [Hz|(m & e & Hf)]).
  - rewrite Hz in N. destruct s; cbv in N; discriminate.
  - rewrite Hf in N. unfold SF64sub, SFsub in N. cbv zeta in N.
    rewrite Z.sub_diag in N. destruct s; cbv in N; discriminate.
Qed.

End FloatFinite.

(** On doubles, when contour point [j] lies on centerline point [i] and
    the contour has finite coordinates, [widthPharynx] returns and the
    scalar width of column [i] is exactly 0: the NaN scores of that column
    end up as a width of zero, not as a NaN and not as an exception. *)
Theorem widthPharynx_touching_zero (cl contour dCl : list (float * float))
    (i j : nat) :
  length dCl = length cl ->
  (i < length cl)%nat ->
  (j < length contour)%nat ->
  nth j contour (0, 0)%float = nth i cl (0, 0)%float ->
  Forall (fun q => PrimFloat.is_finite (fst q) = true
                   /\ PrimFloat.is_finite (snd q) = true) contour ->
  exists widths,
    widthPharynx cl contour dCl = Ok widths
    /\ nth i (scalarWidth widths) [] = [0%float].
Proof.
  intros Hlen Hi Hj Hco Hfin.
  set (scores :=
         map (angle (nth i cl (0, 0)%float) (nth i dCl (0, 0)%float)) contour).
  assert (Hsj : PrimFloat.is_nan (nth j scores 0%float) = true).
  { unfold scores.
    rewrite (nth_indep _ 0%float
               (angle (nth i cl (0, 0)%float) (nth i dCl (0, 0)%float) (0, 0)%float))
      by now rewrite length_map.
    rewrite map_nth, Hco. apply angle_coincident_nan. }
  assert (Hne : contour <> []) by (intros ->; cbn in Hj; lia).
  destruct (@widthPharynx_ok _ _ cl contour dCl Hne Hlen) as (widths & Hw).
  destruct (@first_nan_exists scores j) as (k & Hkj & Hk);
    [unfold scores; now rewrite length_map|exact Hsj|].
  exists widths. split; [exact Hw|].
  rewrite (@widthPharynx_columns _ _ cl contour dCl Hne Hlen) in Hw.
  assert (Hic : (i < length (combine cl dCl))%nat)
    by (rewrite length_combine; lia).
  pose proof (@mapM_nth _ _ _ _ _ i ((0, 0), (0, 0))%float
                ((0, 0), (0, 0))%float Hw Hic) as Hcol.
  rewrite combine_nth in Hcol by (symmetry; exact Hlen).
  cbv zeta in Hcol. fold scores in Hcol.
  rewrite (argmin_first_nan Hk), (argmax_first_nan Hk) in Hcol.
  cbn [bind] in Hcol.
  rewrite (getitem_nth contour (0, 0)%float) in Hcol by lia.
  cbn [bind] in Hcol. injection Hcol as Hcol.
  apply mapM_length in Hw.
  unfold scalarWidth.
  rewrite (nth_indep _ []
             ((fun w : (float * float) * (float * float) =>
                 let d := (fsub (fst (snd w)) (fst (fst w)),
                           fsub (snd (snd w)) (snd (fst w))) in
                 [fsqrt (fadd (sq (fst d)) (sq (snd d)))])
                ((0, 0), (0, 0))%float))
    by (rewrite length_map; lia).
  rewrite (map_nth (fun w : (float * float) * (float * float) =>
                      let d := (fsub (fst (snd w)) (fst (fst w)),
                                fsub (snd (snd w)) (snd (fst w))) in
                      [fsqrt (fadd (sq (fst d)) (sq (snd d)))])).
  rewrite <- Hcol. cbv zeta. cbn [fst snd].
  rewrite Forall_forall in Hfin.
  destruct (Hfin (nth k contour (0, 0)%float)) as [Hx Hy];
    [apply nth_In; lia|].
  change (fsub ?a ?b) with (PrimFloat.sub a b).
  rewrite (@FloatFinite.sub_diag_finite _ Hx), (@FloatFinite.sub_diag_finite _ Hy).
  vm_compute. reflexivity.
Qed.

Lemma widthPharynx_touching_zero_witness :
  exists widths,
    widthPharynx [(0, 0); (1, 0)]%float
      [(0, 1); (0, 0); (1, 2); (1, -3)]%float [(0, 1); (0, 1)]%float
    = Ok widths
    /\ nth 0 (scalarWidth widths) [] = [0%float].
Proof.
  apply (@widthPharynx_touching_zero [(0, 0); (1, 0)]%float
           [(0, 1); (0, 0); (1, 2); (1, -3)]%float [(0, 1); (0, 1)]%float
           0%nat 1%nat);
    first [reflexivity | cbn; lia | repeat constructor].
Defined.

(** *** The two samples that [cropcenterline] picks, in exact arithmetic *)

Lemma fold_minimum_least (l : list R) :
  forall a : R,
    let m := fold_left minimum l a in
    ((m <= a)%R /\ (forall x, In x l -> (m <= x)%R))
    /\ (m = a \/ In m l).
Proof.
  induction l as [|x l IH]; intros a; cbn [fold_left].
  - cbv zeta. split; [split; [lra|intros ? []]|now left].
  - cbv zeta. specialize (IH (minimum a x)). cbv zeta in IH.
    destruct IH as [[Hle Hall] Hin].
    assert (Hm : ((minimum a x <= a)%R /\ (minimum a x <= x)%R)
                 /\ (minimum a x = a \/ minimum a x = x)).
    { unfold minimum. change (fleb a x) with (Rleb a x).
      change (fis_nan a) with false. rewrite orb_false_r.
      destruct (Rleb a x) eqn:E.
      - apply Rleb_true in E. split; [lra|now left].
      - apply Rleb_false in E. split; [lra|now right]. }
    destruct Hm as [[Ha Hx] Hor].
    split; [split; [lra|]|].
    + intros y [<-|Hy]; [lra|now apply Hall].
    + destruct Hin as [E|Hin]; [|right; now right].
      destruct Hor as [E'|E']; [left|right; left]; congruence.
Qed.

Lemma insert_by_sorted (key : nat -> R) (i : nat) (l : list nat) :
  StronglySorted (fun a b => (key a <= key b)%R) l ->
  StronglySorted (fun a b => (key a <= key b)%R) (insert_by key i l).
Proof.
  induction l as [|j l IH]; intros Hs; cbn [insert_by].
  - constructor; constructor.
  - inversion Hs as [|? ? Hl Hj]; subst.
    change (fltb (key i) (key j)) with (Rltb (key i) (key j)).
    destruct (Rltb (key i) (key j)) eqn:E.
    + apply Rltb_true in E. constructor; [exact Hs|].
      constructor; [lra|].
      rewrite Forall_forall in Hj |- *. intros k Hk.
      specialize (Hj k Hk). cbn in Hj. lra.
    + apply Rltb_false in E. constructor; [now apply IH|].
      apply (Permutation_Forall (Permutation_sym (insert_by_perm key i l))).
      constructor; [exact E|exact Hj].
Qed.

(** The stable sort of the indices is ascending in the keys. *)
Lemma argsort_stable_sorted (a : list R) :
  StronglySorted (fun i j => (nth i a 0 <= nth j a 0)%R) (argsort_stable a).
Proof.
  unfold argsort_stable. generalize (seq 0 (length a)) as l.
  induction l as [|i l IH]; cbn [fold_right]; [constructor|].
  apply (insert_by_sorted (fun i => nth i a 0%R)). exact IH.
Qed.

(** With an [argsort] that sorts, [cropcenterline] returns the parameters
    of the two samples of the extended centerline that lie nearest to the
    contour: [d k] is the least squared distance between sample [k] and a
    contour point, [i] has the least [d] of all 100 samples and [j] the
    least of the others. *)
Theorem cropcenterline_nearest (argsort : list R -> list nat)
    (a0 a1 a2 b0 b1 b2 : R) (ra rb : list R) (contour : list (R * R))
    (nP : Z) :
  (forall l, Permutation (argsort l) (seq 0 (length l))) ->
  (forall l, StronglySorted (fun i j => (nth i l 0 <= nth j l 0)%R)
                            (argsort l)) ->
  contour <> [] ->
  exists (xs : list R) (d : nat -> R) (i j : nat),
    linspace (-1 / 4 * IZR nP)%R (5 / 4 * IZR nP)%R 100 = Ok xs
    /\ length xs = 100%nat
    /\ (forall k, (k < 100)%nat ->
          let t := nth k xs 0%R in
          let c := (a0 + a1 * t + a2 * (t * t),
                    b0 + b1 * t + b2 * (t * t))%R in
          (forall q, In q contour -> (d k <= sqdist c q)%R)
          /\ (exists q, In q contour /\ d k = sqdist c q))
    /\ (i < 100)%nat /\ (j < 100)%nat /\ i <> j
    /\ cropcenterline argsort (a0 :: a1 :: a2 :: ra) (b0 :: b1 :: b2 :: rb)
         contour nP = Ok (nth i xs 0%R, nth j xs 0%R)
    /\ (d i <= d j)%R
    /\ (forall k, (k < 100)%nat -> k <> i -> (d j <= d k)%R).
Proof.
  intros Hperm Hsort Hne.
  destruct (@linspace_length _ _ (-1 / 4 * IZR nP)%R (5 / 4 * IZR nP)%R 100)
    as (xs & Hxs & Hlen); [lia|].
  change (Z.to_nat 100) with 100%nat in Hlen.
  unfold cropcenterline.
  change (of_Z (-1) / of_Z 4 * of_Z nP)%sc with (-1 / 4 * IZR nP)%R.
  change (of_Z 5 / of_Z 4 * of_Z nP)%sc with (5 / 4 * IZR nP)%R.
  rewrite Hxs. cbn [bind]. rewrite centerline_ok. cbn [bind].
  destruct contour as [|q0 contour]; [contradiction|]. clear Hne.
  match goal with |- context [mapM ?f ?l] =>
    rewrite (@mapM_ok _ _ f
               (fun c => fold_left minimum (map (sqdist c) contour) (sqdist c q0)) l)
      by reflexivity
  end.
  cbn [bind]. rewrite map_map.
  match goal with |- context [argsort (map ?g xs)] => set (m := g) end.
  set (mins := map m xs).
  assert (Hm : length mins = 100%nat)
    by (unfold mins; now rewrite length_map).
  assert (Hd : forall k, (k < 100)%nat -> nth k mins 0%R = m (nth k xs 0%R)).
  { intros k Hk. unfold mins.
    rewrite (nth_indep _ 0%R (m 0%R)) by (rewrite length_map; lia).
    apply map_nth. }
  pose proof (Hperm mins) as P. rewrite Hm in P.
  pose proof (Permutation_length P) as PL. rewrite length_seq in PL.
  pose proof (Hsort mins) as S.
  destruct (argsort mins) as [|i [|j rest]] eqn:Es;
    [cbn in PL; lia|cbn in PL; lia|].
  assert (Hi : (i < 100)%nat).
  { assert (In i (seq 0 100)) by (apply (Permutation_in _ P); now left).
    apply in_seq in H. lia. }
  assert (Hj : (j < 100)%nat).
  { assert (In j (seq 0 100)) by (apply (Permutation_in _ P); right; now left).
    apply in_seq in H. lia. }
  assert (Hij : i <> j).
  { assert (ND : NoDup (i :: j :: rest))
      by (apply (Permutation_NoDup (Permutation_sym P)), seq_NoDup).
    inversion ND as [|? ? Hnin _]; subst. intros ->. apply Hnin. now left. }
  exists xs, (fun k => nth k mins 0%R), i, j.
  rewrite (getitem_nth xs 0%R) by lia. rewrite (getitem_nth xs 0%R) by lia.
  cbn [bind].
  inversion S as [|? ? S' Hall]; subst.
  inversion S' as [|? ? _ Hall']; subst.
  inversion Hall as [|? ? Hle _]; subst.
  split; [reflexivity|]. split; [exact Hlen|]. split.
  { intros k Hk. cbv zeta. rewrite (Hd k Hk). unfold m.
    change (sq (nth k xs 0%R)) with (nth k xs 0 * nth k xs 0)%R.
    set (c := ((a0 + a1 * nth k xs 0 + a2 * (nth k xs 0 * nth k xs 0))%R,
               (b0 + b1 * nth k xs 0 + b2 * (nth k xs 0 * nth k xs 0))%R)).
    change (fadd (fadd a0 (fmul a1 (nth k xs 0%R)))
                 (fmul a2 (nth k xs 0 * nth k xs 0)%R),
            fadd (fadd b0 (fmul b1 (nth k xs 0%R)))
                 (fmul b2 (nth k xs 0 * nth k xs 0)%R)) with c.
    destruct (fold_minimum_least (map (sqdist c) contour) (sqdist c q0))
      as [[Hle0 Hleall] Hin].
    split.
    - intros q [<-|Hq]; [exact Hle0|].
      apply Hleall. now apply in_map.
    - destruct Hin as [E|Hin].
      + exists q0. split; [now left|exact E].
      + apply in_map_iff in Hin. destruct Hin as (q & Eq & Hq).
        exists q. split; [now right|now symmetry]. }
  repeat split; try assumption.
  intros k Hk Hki.
  assert (Hin : In k (i :: j :: rest)).
  { apply (Permutation_in _ (Permutation_sym P)). apply in_seq. lia. }
  destruct Hin as [E|[E|Hin]]; [congruence|subst; lra|].
  rewrite Forall_forall in Hall'. exact (Hall' k Hin).
Qed.

Lemma cropcenterline_nearest_witness :
  exists (xs : list R) (d : nat -> R) (i j : nat),
    linspace (-1 / 4 * IZR 10)%R (5 / 4 * IZR 10)%R 100 = Ok xs
    /\ length xs = 100%nat
    /\ (forall k, (k < 100)%nat ->
          let t := nth k xs 0%R in
          let c := (0 + 1 * t + 0 * (t * t),
                    0 + 0 * t + 0 * (t * t))%R in
          (forall q, In q [(1, 1); (5, -1)]%R -> (d k <= sqdist c q)%R)
          /\ (exists q, In q [(1, 1); (5, -1)]%R /\ d k = sqdist c q))
    /\ (i < 100)%nat /\ (j < 100)%nat /\ i <> j
    /\ cropcenterline argsort_stable [0; 1; 0]%R [0; 0; 0]%R
         [(1, 1); (5, -1)]%R 10 = Ok (nth i xs 0%R, nth j xs 0%R)
    /\ (d i <= d j)%R
    /\ (forall k, (k < 100)%nat -> k <> i -> (d j <= d k)%R).
Proof.
  apply (@cropcenterline_nearest argsort_stable 0 1 0 0 0 0 [] []
           [(1, 1); (5, -1)]%R 10%Z).
  - intros l. apply argsort_stable_perm.
  - intros l. apply argsort_stable_sorted.
  - discriminate.
Defined.

(** *** The skeleton as a set of pixels *)

Lemma concat_seq_canon {A B : Type} (dflt : A) (g : nat -> A -> list B) :
  (forall i, g i dflt = []) ->
  forall (l : list A) (s N : nat),
    (length l <= N)%nat ->
    concat (map (fun ia : nat * A => g (fst ia) (snd ia))
                (combine (seq s (length l)) l))
    = concat (map (fun i => g i (nth (i - s) l dflt)) (seq s N)).
Proof.
  intros Hd. induction l as [|a l IH]; intros s N HN.
  - cbn [length seq combine map concat]. symmetry.
    rewrite (map_ext (fun i => g i (nth (i - s) [] dflt)) (fun _ => []))
      by (intros i; destruct (i - s)%nat; apply Hd).
    generalize (seq s N). intros l. induction l as [|i l IHl]; cbn;
      [reflexivity|exact IHl].
  - destruct N as [|N]; [cbn in HN; lia|].
    cbn [length seq combine map concat fst snd].
    rewrite Nat.sub_diag. cbn [nth]. f_equal.
    rewrite (IH (S s) N) by (cbn in HN; lia).
    f_equal. apply map_ext_in. intros i Hi. apply in_seq in Hi.
    replace (i - s)%nat with (S (i - S s)) by lia. reflexivity.
Qed.

Lemma np_where_canon (skeleton : list (list bool)) (R C : nat) :
  (length skeleton <= R)%nat ->
  Forall (fun row => (length row <= C)%nat) skeleton ->
  np_where skeleton
  = concat (map (fun r =>
                   concat (map (fun c => if pixel_at skeleton r c
                                         then [(r, c)] else [])
                               (seq 0 C)))
                (seq 0 R)).
Proof.
  intros HR HC. unfold np_where.
  set (g := fun (r : nat) (row : list bool) =>
              map (fun cb : nat * bool => let '(c, _) := cb in (r, c))
                  (filter (fun cb : nat * bool => snd cb)
                          (combine (seq 0 (length row)) row))).
  rewrite (map_ext (fun rr : nat * list bool => let '(r, row) := rr in g r row)
                   (fun rr => g (fst rr) (snd rr)))
    by (intros [r row]; reflexivity).
  rewrite (@concat_seq_canon _ _ [] g (fun _ => eq_refl) skeleton 0 R HR).
  f_equal. apply map_ext_in. intros r _. rewrite Nat.sub_0_r.
  unfold pixel_at.
  assert (Hrow : (length (nth r skeleton []) <= C)%nat).
  { destruct (Nat.lt_ge_cases r (length skeleton)) as [Hr|Hr].
    - rewrite Forall_forall in HC. apply HC. now apply nth_In.
    - rewrite nth_overflow by exact Hr. cbn. lia. }
  generalize dependent (nth r skeleton []). intros row Hrow.
  unfold g.
  assert (E : forall l : list (nat * bool),
             map (fun cb : nat * bool => let '(c, _) := cb in (r, c))
                 (filter (fun cb : nat * bool => snd cb) l)
             = concat (map (fun cb : nat * bool =>
                              (fun c (b : bool) => if b then [(r, c)] else [])
                                (fst cb) (snd cb)) l)).
  { induction l as [|[c [|]] l IH]; cbn; [reflexivity| |exact IH].
    now rewrite IH. }
  rewrite E.
  rewrite (@concat_seq_canon _ _ false
             (fun c (b : bool) => if b then [(r, c)] else [])
             (fun _ => eq_refl) row 0 C Hrow).
  f_equal. apply map_ext. intros c. now rewrite Nat.sub_0_r.
Qed.

(** The order that [sortSkeleton] returns depends on the true pixels only:
    two masks with the same true pixels, whatever their shapes, give the
    same array of coordinates and the same result or exception.  Padding a
    mask with false rows below or false pixels to the right changes
    nothing. *)
Theorem sortSkeleton_true_pixels (Dendrogram : Type)
    (linkage : list (nat * nat) -> result Dendrogram)
    (leaves_list : Dendrogram -> result (list nat))
    (skeleton skeleton' : list (list bool)) :
  (forall r c, pixel_at skeleton r c = pixel_at skeleton' r c) ->
  np_where skeleton = np_where skeleton'
  /\ sortSkeleton linkage leaves_list skeleton
     = sortSkeleton linkage leaves_list skeleton'.
Proof.
  intros H.
  assert (E : np_where skeleton = np_where skeleton').
  { set (R := Nat.max (length skeleton) (length skeleton')).
    set (C := Nat.max (list_max (map (@length bool) skeleton))
                      (list_max (map (@length bool) skeleton'))).
    assert (HC : forall sk, (list_max (map (@length bool) sk) <= C)%nat ->
                            Forall (fun row : list bool => (length row <= C)%nat) sk).
    { intros sk Hle. apply list_max_le in Hle.
      rewrite Forall_forall in Hle |- *. intros row Hrow.
      apply Hle. now apply in_map. }
    rewrite (@np_where_canon skeleton R C), (@np_where_canon skeleton' R C);
      try (apply HC; unfold C; lia); try (unfold R; lia).
    f_equal. apply map_ext. intros r. f_equal. apply map_ext. intros c.
    now rewrite H. }
  split; [exact E|]. unfold sortSkeleton. now rewrite E.
Qed.

Lemma sortSkeleton_true_pixels_witness :
  np_where [[false; true]; [true; false]]
  = np_where [[false; true; false]; [true; false; false];
              [false; false; false]]
  /\ sortSkeleton Doubles.linkage Doubles.leaves_list
       [[false; true]; [true; false]]
     = sortSkeleton Doubles.linkage Doubles.leaves_list
         [[false; true; false]; [true; false; false];
          [false; false; false]].
Proof.
  apply (@sortSkeleton_true_pixels _ Doubles.linkage Doubles.leaves_list
           [[false; true]; [true; false]]
           [[false; true; false]; [true; false; false];
            [false; false; false]]).
  intros r c. unfold pixel_at.
  do 4 (try destruct r as [|r]); do 4 (try destruct c as [|c]); reflexivity.
Defined.

(** *** From the fit to the centerline *)

Section FitFacts.
Context {F : Type} {SF : Scalar F}.
Variable Cov : Type.
Variable curve_fit :
  (list F -> list F -> result (list F)) -> list F -> list F -> list F ->
  result (list F * Cov).

(** What [fitSkeleton] returns can be handed to [centerline] and
    [normalVecCl] as it is: with a [curve_fit] that returns as many
    parameters as the guess has, neither of them raises the IndexError of a
    short tuple, and each returns one row for every parameter value. *)
Theorem fitSkeleton_feeds_centerline (ptsX ptsY poptX poptY xs : list F) :
  (forall f x y p0 popt pcov,
      curve_fit f x y p0 = Ok (popt, pcov) -> length popt = length p0) ->
  fitSkeleton curve_fit ptsX ptsY = Ok (poptX, poptY) ->
  exists pts ns,
    centerline poptX poptY xs = Ok pts /\ length pts = length xs
    /\ normalVecCl poptX poptY xs = Ok ns /\ length ns = length xs.
Proof.
  intros Hcf Hfit.
  destruct (@fitSkeleton_three_parameters _ _ _ curve_fit ptsX ptsY
              poptX poptY Hcf Hfit) as [HX HY].
  destruct (@centerline_long _ _ poptX poptY xs) as (pts & Hp & Lp); [lia|lia|].
  destruct (@normalVecCl_long _ _ poptX poptY xs) as (ns & Hn & Ln); [lia|lia|].
  exists pts, ns. repeat split; assumption.
Qed.

End FitFacts.

Lemma fitSkeleton_feeds_centerline_witness :
  exists pts ns,
    centerline [1; 1; 1]%float [1; 1; 1]%float [0; 1; 2]%float = Ok pts
    /\ length pts = length [0; 1; 2]%float
    /\ normalVecCl [1; 1; 1]%float [1; 1; 1]%float [0; 1; 2]%float = Ok ns
    /\ length ns = length [0; 1; 2]%float.
Proof.
  apply (@fitSkeleton_feeds_centerline float binary64 unit
           (fun _ _ _ p0 => Ok (p0, tt))
           [3; 4; 5]%float [1; 2; 3]%float
           [1; 1; 1]%float [1; 1; 1]%float [0; 1; 2]%float).
  - intros f x y p0 popt pcov H. now injection H as <- _.
  - reflexivity.
Defined.

(** *** The contour of the mask *)

Lemma argmax_int_from_first (l : list Z) :
  forall (mp : Z) (mi i : nat) (pre : list Z),
    length pre = i -> (mi < i)%nat -> nth mi pre 0%Z = mp ->
    (forall j, (j < i)%nat -> (nth j pre 0 <= mp)%Z) ->
    (forall j, (j < mi)%nat -> (nth j pre 0 < mp)%Z) ->
    let k := argmax_int_from mp mi i l in
    (k < length (pre ++ l))%nat
    /\ (forall j, (j < length (pre ++ l))%nat ->
                  (nth j (pre ++ l) 0 <= nth k (pre ++ l) 0)%Z)
    /\ (forall j, (j < k)%nat ->
                  (nth j (pre ++ l) 0 < nth k (pre ++ l) 0)%Z).
Proof.
  induction l as [|x l IH]; intros mp mi i pre Hlen Hmi Hmp Hle Hlt.
  - cbn [argmax_int_from]. cbv zeta. rewrite app_nil_r, Hlen, Hmp.
    repeat split; [lia|exact Hle|exact Hlt].
  - cbn [argmax_int_from].
    replace (pre ++ x :: l) with ((pre ++ [x]) ++ l)
      by (now rewrite <- app_assoc).
    assert (Hn : forall j, (j < i)%nat -> nth j (pre ++ [x]) 0%Z = nth j pre 0%Z)
      by (intros j Hj; apply app_nth1; lia).
    assert (Hx : nth i (pre ++ [x]) 0%Z = x)
      by (rewrite app_nth2 by lia; now rewrite Hlen, Nat.sub_diag).
    destruct (Z.ltb_spec mp x) as [H|H].
    + apply IH.
      * rewrite length_app. cbn. lia.
      * lia.
      * exact Hx.
      * intros j Hj. destruct (Nat.eq_dec j i) as [->|Hne].
        -- rewrite Hx. lia.
        -- rewrite Hn by lia. specialize (Hle j ltac:(lia)). lia.
      * intros j Hj. rewrite Hn by lia. specialize (Hle j ltac:(lia)). lia.
    + apply IH.
      * rewrite length_app. cbn. lia.
      * lia.
      * rewrite Hn by lia. exact Hmp.
      * intros j Hj. destruct (Nat.eq_dec j i) as [->|Hne].
        -- rewrite Hx. lia.
        -- rewrite Hn by lia. apply Hle. lia.
      * intros j Hj. rewrite Hn by lia. now apply Hlt.
Qed.

(** [np.argmax] of a list of ints returns the first index of the greatest
    entry. *)
Lemma argmax_int_first (l : list Z) :
  l <> [] ->
  exists k,
    argmax_int l = Ok k
    /\ (k < length l)%nat
    /\ (forall j, (j < length l)%nat -> (nth j l 0 <= nth k l 0)%Z)
    /\ (forall j, (j < k)%nat -> (nth j l 0 < nth k l 0)%Z).
Proof.
  destruct l as [|x l]; [contradiction|]. intros _.
  eexists. split; [reflexivity|].
  apply (@argmax_int_from_first l x 0%nat 1%nat [x]); try reflexivity.
  - lia.
  - intros [|j] Hj; [cbn; lia|lia].
  - intros j Hj. lia.
Qed.

Section ContourFacts.
Context {F : Type} {SF : Scalar F}.
Local Open Scope sc_scope.
Variables Rescaled Image LevelSet Kw : Type.
Variable rescale : list (list bool) -> Z -> result Rescaled.
Variable img_as_float : Rescaled -> result Image.
Variable shape : Image -> nat * nat.
Variable checkerboard_level_set : nat * nat -> Z -> result LevelSet.
Variable morphological_chan_vese :
  Image -> Z -> LevelSet -> Kw -> result LevelSet.
Variable find_contours : LevelSet -> F -> result (list (list (F * F))).

Lemma morphologicalPharynxContour_select (mask : list (list bool))
    (scale : Z) (kw : Kw) (contours : list (list (F * F))) :
  snake_contours rescale img_as_float shape checkerboard_level_set
    morphological_chan_vese find_contours mask scale kw = Ok contours ->
  contours <> [] ->
  exists k,
    (k < length contours)%nat
    /\ (forall j, (j < length contours)%nat ->
          (length (nth j contours []) <= length (nth k contours []))%nat)
    /\ (forall j, (j < k)%nat ->
          (length (nth j contours []) < length (nth k contours []))%nat)
    /\ morphologicalPharynxContour rescale img_as_float shape
         checkerboard_level_set morphological_chan_vese find_contours
         mask scale kw
       = Ok (map (fun q => (fst q / of_Z scale, snd q / of_Z scale))
                 (nth k contours [])).
Proof.
  intros Hs Hne. unfold morphologicalPharynxContour. rewrite Hs. cbn [bind].
  set (lens := map (fun x : list (F * F) => Z.of_nat (length x)) contours).
  assert (Hl : length lens = length contours) by apply length_map.
  assert (Hnth : forall j, (j < length contours)%nat ->
                           nth j lens 0%Z = Z.of_nat (length (nth j contours []))).
  { intros j Hj. unfold lens.
    rewrite (nth_indep _ 0%Z (Z.of_nat (length (@nil (F * F)))))
      by (rewrite length_map; lia).
    apply (map_nth (fun x : list (F * F) => Z.of_nat (length x))). }
  destruct (@argmax_int_first lens) as (k & -> & Hk & Hmax & Hfirst).
  { intros E. apply Hne. destruct contours; [reflexivity|discriminate]. }
  rewrite Hl in Hk, Hmax. cbn [bind].
  rewrite (getitem_nth contours []) by exact Hk. cbn [bind].
  exists k. split; [exact Hk|]. split; [|split].
  - intros j Hj. specialize (Hmax j Hj). rewrite !Hnth in Hmax by lia. lia.
  - intros j Hj. specialize (Hfirst j Hj). rewrite !Hnth in Hfirst by lia. lia.
  - f_equal. unfold c_. rewrite combine_map_same.
    rewrite <- (map_id (map _ (nth k contours []))) at 2.
    apply map_ext. now intros [x y].
Qed.

(** [morphologicalPharynxContour] returns the first of the longest contours
    found on the upscaled mask, every coordinate divided by [scale]; when
    no contour is found it raises the ValueError of [np.argmax] on an empty
    list. *)
Theorem morphologicalPharynxContour_longest (mask : list (list bool))
    (scale : Z) (kw : Kw) (contours : list (list (F * F))) :
  snake_contours rescale img_as_float shape checkerboard_level_set
    morphological_chan_vese find_contours mask scale kw = Ok contours ->
  (contours = [] ->
   morphologicalPharynxContour rescale img_as_float shape
     checkerboard_level_set morphological_chan_vese find_contours
     mask scale kw = Raise ValueError)
  /\ (contours <> [] ->
      exists k,
        (k < length contours)%nat
        /\ (forall j, (j < length contours)%nat ->
              (length (nth j contours []) <= length (nth k contours []))%nat)
        /\ (forall j, (j < k)%nat ->
              (length (nth j contours []) < length (nth k contours []))%nat)
        /\ morphologicalPharynxContour rescale img_as_float shape
             checkerboard_level_set morphological_chan_vese find_contours
             mask scale kw
           = Ok (map (fun q => (fst q / of_Z scale, snd q / of_Z scale))
                     (nth k contours []))).
Proof.
  intros Hs. split.
  - intros ->. unfold morphologicalPharynxContour. now rewrite Hs.
  - intros Hne. now apply morphologicalPharynxContour_select.
Qed.

End ContourFacts.

Lemma morphologicalPharynxContour_longest_witness :
  let contours := [[(0, 0); (8, 0)]; [(0, 0); (8, 0); (8, 8)];
                   [(4, 4); (4, 8); (8, 4)]]%float in
  let run :=
    morphologicalPharynxContour (fun m (_ : Z) => Ok m) (fun m => Ok m)
      (fun m : list (list bool) => (length m, length (hd [] m)))
      (fun s (_ : Z) => Ok s) (fun _ (_ : Z) s (_ : unit) => Ok s)
      (fun (_ : nat * nat) (_ : float) => Ok contours) [[true]] 4 tt in
  (contours = [] -> run = Raise ValueError)
  /\ (contours <> [] ->
      exists k,
        (k < length contours)%nat
        /\ (forall j, (j < length contours)%nat ->
              (length (nth j contours []) <= length (nth k contours []))%nat)
        /\ (forall j, (j < k)%nat ->
              (length (nth j contours []) < length (nth k contours []))%nat)
        /\ run
           = Ok (map (fun q => (fdiv (fst q) (of_Z 4), fdiv (snd q) (of_Z 4)))
                     (nth k contours []))).
Proof.
  intros contours run.
  apply (@morphologicalPharynxContour_longest float binary64
           (list (list bool)) (list (list bool)) (nat * nat) unit
           (fun m (_ : Z) => Ok m) (fun m => Ok m)
           (fun m : list (list bool) => (length m, length (hd [] m)))
           (fun s (_ : Z) => Ok s) (fun _ (_ : Z) s (_ : unit) => Ok s)
           (fun (_ : nat * nat) (_ : float) => Ok contours)
           [[true]] 4%Z tt contours).
  reflexivity.
Defined.

(** In exact arithmetic and for a scale other than 0, the contour returned
    is a contour found on the upscaled mask, brought back to the
    coordinates of the mask: multiplied by [scale] again it is one of the
    contours found, and none of them has more points. *)
Theorem morphologicalPharynxContour_rescaled
    (Rescaled Image LevelSet Kw : Type)
    (rescale : list (list bool) -> Z -> result Rescaled)
    (img_as_float : Rescaled -> result Image)
    (shape : Image -> nat * nat)
    (checkerboard_level_set : nat * nat -> Z -> result LevelSet)
    (morphological_chan_vese : Image -> Z -> LevelSet -> Kw -> result LevelSet)
    (find_contours : LevelSet -> R -> result (list (list (R * R))))
    (mask : list (list bool)) (scale : Z) (kw : Kw)
    (contours : list (list (R * R))) :
  snake_contours rescale img_as_float shape checkerboard_level_set
    morphological_chan_vese find_contours mask scale kw = Ok contours ->
  contours <> [] ->
  scale <> 0%Z ->
  exists pts,
    morphologicalPharynxContour rescale img_as_float shape
      checkerboard_level_set morphological_chan_vese find_contours
      mask scale kw = Ok pts
    /\ In (map (fun q => (fst q * IZR scale, snd q * IZR scale)%R) pts)
          contours
    /\ (forall c, In c contours -> (length c <= length pts)%nat).
Proof.
  intros Hs Hne Hsc.
  destruct (@morphologicalPharynxContour_select R real _ _ _ _ rescale
              img_as_float shape checkerboard_level_set
              morphological_chan_vese find_contours mask scale kw contours
              Hs Hne) as (k & Hk & Hmax & _ & ->).
  eexists. split; [reflexivity|]. split.
  - rewrite map_map.
    rewrite (map_ext_in _ (fun q => q)), map_id; [now apply nth_In|].
    intros [x y] _. cbn. apply not_0_IZR in Hsc. f_equal; field; exact Hsc.
  - intros c Hc. rewrite length_map.
    destruct (In_nth _ _ [] Hc) as (j & Hj & <-). now apply Hmax.
Qed.

Lemma morphologicalPharynxContour_rescaled_witness :
  let contours := [[(0, 0); (8, 0)]; [(0, 0); (8, 0); (8, 8)]]%R in
  exists pts,
    morphologicalPharynxContour (fun m (_ : Z) => Ok m) (fun m => Ok m)
      (fun m : list (list bool) => (length m, length (hd [] m)))
      (fun s (_ : Z) => Ok s) (fun _ (_ : Z) s (_ : unit) => Ok s)
      (fun (_ : nat * nat) (_ : R) => Ok contours) [[true]] 4 tt = Ok pts
    /\ In (map (fun q => (fst q * IZR 4, snd q * IZR 4)%R) pts) contours
    /\ (forall c, In c contours -> (length c <= length pts)%nat).
Proof.
  intros contours.
  apply (@morphologicalPharynxContour_rescaled
           (list (list bool)) (list (list bool)) (nat * nat) unit
           (fun m (_ : Z) => Ok m) (fun m => Ok m)
           (fun m : list (list bool) => (length m, length (hd [] m)))
           (fun s (_ : Z) => Ok s) (fun _ (_ : Z) s (_ : unit) => Ok s)
           (fun (_ : nat * nat) (_ : R) => Ok contours)
           [[true]] 4%Z tt contours).
  - reflexivity.
  - discriminate.
  - discriminate.
Defined.

(** *** A frame without a pixel above the threshold *)

Section BlankFrame.
Context {F : Type} {SF : Scalar F}.
Variable threshold_li : list (list F) -> result F.
Variable skeletonize : list (list bool) -> result (list (list bool)).
Variable Dendrogram : Type.
Variable linkage : list (nat * nat) -> result Dendrogram.
Variable leaves_list : Dendrogram -> result (list nat).

Lemma above_all_false (thresh : F) (im : list (list F)) :
  (forall row v, In row im -> In v row -> fltb thresh v = false) ->
  Forall (Forall (fun b => b = false)) (above thresh im).
Proof.
  intros H. unfold above. apply Forall_forall. intros brow Hb.
  apply in_map_iff in Hb. destruct Hb as (row & <- & Hrow).
  apply Forall_forall. intros b Hin.
  apply in_map_iff in Hin. destruct Hin as (v & <- & Hv).
  now apply (H row v).
Qed.

(** The masks of a frame through [thresholdPharynx], [skeletonPharynx] and
    [sortSkeleton]: when no pixel of the frame is above the Li threshold (a
    frame of one grey value, for one) and the skeleton of an empty mask is
    empty, the clustering routine is called on an empty matrix of
    coordinates, and the outcome of the three steps is the outcome of that
    call; none of the three functions checks for it. *)
Theorem blank_frame_reaches_linkage (im : list (list F)) (thresh : F) :
  threshold_li im = Ok thresh ->
  (forall row v, In row im -> In v row -> fltb thresh v = false) ->
  (forall mask, Forall (Forall (fun b => b = false)) mask ->
                exists sk, skeletonize mask = Ok sk
                           /\ Forall (Forall (fun b => b = false)) sk) ->
  (mask <- thresholdPharynx threshold_li im ;;
   skeleton <- skeletonPharynx skeletonize mask ;;
   sortSkeleton linkage leaves_list skeleton)
  = (Z <- linkage [] ;; leaves_list Z).
Proof.
  intros Ht Hlow Hsk. unfold thresholdPharynx, skeletonPharynx.
  rewrite Ht. cbn [bind].
  destruct (Hsk (above thresh im)) as (sk & -> & Hempty);
    [now apply above_all_false|].
  cbn [bind]. unfold sortSkeleton.
  now rewrite (np_where_all_false Hempty).
Qed.

End BlankFrame.

Lemma blank_frame_reaches_linkage_witness :
  (mask <- thresholdPharynx (fun _ => Ok 7%float)
             [[7; 7]; [7; 7]]%float ;;
   skeleton <- skeletonPharynx (fun m => Ok m) mask ;;
   sortSkeleton Doubles.linkage Doubles.leaves_list skeleton)
  = (Z <- Doubles.linkage [] ;; Doubles.leaves_list Z).
Proof.
  apply (@blank_frame_reaches_linkage float binary64 (fun _ => Ok 7%float)
           (fun m => Ok m) _ Doubles.linkage Doubles.leaves_list
           [[7; 7]; [7; 7]]%float 7%float).
  - reflexivity.
  - intros row v Hrow Hv.
    destruct Hrow as [<-|[<-|[]]]; destruct Hv as [<-|[<-|[]]]; reflexivity.
  - intros mask H. exists mask. split; [reflexivity|exact H].
Defined.

(** *** What the resampling of [straightenPharynx] does, in exact arithmetic *)

Lemma increasing_from_nth (rest : list (R * R)) :
  forall (x0 : R) (i : nat),
    increasing_from x0 rest -> (i < length rest)%nat ->
    (x0 < fst (nth i rest (0, 0)))%R.
Proof.
  induction rest as [|[x1 f1] rest IH]; intros x0 i Hinc Hi;
    [cbn in Hi; lia|].
  destruct Hinc as [H01 Hinc]. destruct i as [|i]; [exact H01|].
  cbn [nth]. apply Rlt_trans with x1; [exact H01|].
  apply IH; [exact Hinc|cbn in Hi; lia].
Qed.

(** [np.interp] between two neighbouring sample points is the chord. *)
Lemma interp_right_segment (x : R) (rest : list (R * R)) :
  forall (x0 f0 : R) (i : nat),
    increasing_from x0 rest ->
    (i < length rest)%nat ->
    let p := nth i ((x0, f0) :: rest) (0, 0)%R in
    let q := nth (S i) ((x0, f0) :: rest) (0, 0)%R in
    (fst p <= x < fst q)%R ->
    interp_right x x0 f0 rest
    = ((snd q - snd p) / (fst q - fst p) * (x - fst p) + snd p)%R.
Proof.
  induction rest as [|[x1 f1] rest IH]; intros x0 f0 i Hinc Hi;
    [cbn in Hi; lia|].
  destruct Hinc as [H01 Hinc]. cbn [interp_right].
  change (fltb x x1) with (Rltb x x1). change (feqb x x0) with (Reqb x x0).
  destruct i as [|i]; cbv zeta; cbn [nth fst snd]; intros [Hl Hr].
  - destruct (Rltb x x1) eqn:E; [|apply Rltb_false in E; lra].
    destruct (Reqb x x0) eqn:E0; [|reflexivity].
    apply Reqb_true in E0. subst x.
    change (fsub ?a ?b) with (a - b)%R. rewrite Rminus_diag. ring.
  - assert (H1 : (x1 <= x)%R).
    { destruct i as [|i]; [exact Hl|].
      pose proof (@increasing_from_nth rest x1 i Hinc ltac:(cbn in Hi; lia)).
      cbn [nth] in Hl. lra. }
    destruct (Rltb x x1) eqn:E; [apply Rltb_true in E; lra|].
    apply (IH x1 f1 i Hinc); [cbn in Hi; lia|]. split; assumption.
Qed.

(** [np.interp] at a sample point returns the sample. *)
Lemma interp_right_knot (rest : list (R * R)) :
  forall (x0 f0 : R) (i : nat),
    increasing_from x0 rest ->
    (i <= length rest)%nat ->
    let p := nth i ((x0, f0) :: rest) (0, 0)%R in
    interp_right (fst p) x0 f0 rest = snd p.
Proof.
  induction rest as [|[x1 f1] rest IH]; intros x0 f0 i Hinc Hi; cbv zeta.
  - replace i with 0%nat by (cbn in Hi; lia). reflexivity.
  - destruct Hinc as [H01 Hinc]. cbn [interp_right].
    destruct i as [|i]; cbn [nth fst snd].
    + change (fltb x0 x1) with (Rltb x0 x1).
      change (feqb x0 x0) with (Reqb x0 x0).
      destruct (Rltb x0 x1) eqn:E; [|apply Rltb_false in E; lra].
      destruct (Reqb x0 x0) eqn:E0; [reflexivity|].
      unfold Reqb in E0. destruct (Req_dec_T x0 x0); [discriminate|contradiction].
    + match goal with |- context [fltb ?a x1] =>
        change (fltb a x1) with (Rltb a x1);
        assert (H1 : (x1 <= a)%R)
      end.
      { destruct i as [|i]; [cbn; lra|].
        pose proof (@increasing_from_nth rest x1 i Hinc ltac:(cbn in Hi; lia)).
        cbn [nth]. lra. }
      destruct (Rltb _ x1) eqn:E; [apply Rltb_true in E; lra|].
      apply (IH x1 f1 i Hinc). cbn in Hi. lia.
Qed.

Lemma arange_half_nth (n i : nat) :
  (i < n)%nat ->
  nth i (@arange_half R real n) 0%R = (- INR n / 2 + INR i)%R.
Proof.
  intros Hi. unfold arange_half. rewrite nth_map_seq by exact Hi.
  cbn [of_Z fadd fsub fmul fdiv real].
  rewrite opp_IZR, <- !INR_IZR_INZ. field.
Qed.

Lemma arange_int_nth (w : Z) (j : nat) :
  (j < Z.to_nat (2 * w))%nat ->
  nth j (map (@of_Z R real) (arange_int w)) 0%R = (- IZR w + INR j)%R.
Proof.
  intros Hj. unfold arange_int. rewrite map_map, nth_map_seq by exact Hj.
  cbn [of_Z real]. now rewrite plus_IZR, opp_IZR, <- INR_IZR_INZ.
Qed.

(** One row of [straightenPharynx]: the profile [ky] resampled at
    [arange(-w, w)] against [arange(-len(ky)/2, len(ky)/2)]. *)
Lemma resample_row (w : Z) (ky : list R) :
  (0 <= w)%Z -> ky <> [] ->
  exists row,
    interp (map of_Z (arange_int w)) (arange_half (length ky)) ky = Ok row
    /\ length row = Z.to_nat (2 * w)
    /\ (length ky = Z.to_nat (2 * w) -> row = ky)
    /\ (length ky = S (Z.to_nat (2 * w)) ->
        forall j, (j < Z.to_nat (2 * w))%nat ->
                  nth j row 0%R = ((nth j ky 0 + nth (S j) ky 0) / 2)%R).
Proof.
  intros Hw Hne.
  set (n := length ky).
  assert (Hlen : length (@arange_half R real n) = n)
    by (unfold arange_half; now rewrite length_map, length_seq).
  assert (Hn : (0 < n)%nat)
    by (unfold n; destruct ky; [contradiction|cbn; lia]).
  assert (Hall : forall i, (i < n)%nat ->
            nth i (combine (@arange_half R real n) ky) (0, 0)%R
            = ((- INR n / 2 + INR i)%R, nth i ky 0%R)).
  { intros i Hi. rewrite combine_nth by exact Hlen.
    now rewrite arange_half_nth. }
  assert (Hcl : length (combine (@arange_half R real n) ky) = n)
    by (rewrite length_combine, Hlen; fold n; lia).
  unfold interp. fold n. rewrite Hlen. fold n. rewrite Nat.eqb_refl.
  cbn [negb].
  destruct (combine (@arange_half R real n) ky) as [|[x0 f0] rest] eqn:E;
    [cbn in Hcl; lia|].
  assert (Hinc : increasing_from x0 rest)
    by (apply (@arange_half_increasing ky x0 f0 rest); exact E).
  assert (Hx0 : x0 = (- INR n / 2)%R).
  { pose proof (Hall 0%nat Hn) as H0. cbn in H0. injection H0 as -> _. lra. }
  eexists. split; [reflexivity|].
  set (at_ := fun t : R =>
                if fis_nan t then t
                else if fltb t x0 then f0 else interp_right t x0 f0 rest).
  assert (Hrow : forall j, (j < Z.to_nat (2 * w))%nat ->
            nth j (map at_ (map of_Z (arange_int w))) 0%R
            = at_ (- IZR w + INR j)%R).
  { intros j Hj.
    rewrite (nth_indep _ 0%R (at_ 0%R))
      by (unfold arange_int; now rewrite !length_map, length_seq).
    rewrite map_nth. now rewrite arange_int_nth. }
  assert (Hl : length (map at_ (map (@of_Z R real) (arange_int w)))
               = Z.to_nat (2 * w))
    by (unfold arange_int; now rewrite !length_map, length_seq).
  split; [exact Hl|]. split.
  - intros Hk. apply (nth_ext _ _ 0%R 0%R); [rewrite Hl; exact (eq_sym Hk)|].
    intros j Hj. rewrite Hl in Hj. rewrite (Hrow j Hj).
    assert (Hjn : (j < n)%nat) by lia.
    assert (Et : (- IZR w + INR j)%R
                 = fst (nth j ((x0, f0) :: rest) (0, 0)%R)).
    { rewrite (Hall j Hjn). cbn [fst].
      assert (INR n = 2 * IZR w)%R.
      { rewrite Hk, INR_IZR_INZ, Z2Nat.id, mult_IZR by lia. reflexivity. }
      lra. }
    rewrite Et. unfold at_. change (fis_nan ?t) with false. cbv iota.
    change (fltb ?a x0) with (Rltb a x0).
    assert (Hge : (x0 <= fst (nth j ((x0, f0) :: rest) (0, 0)%R))%R).
    { rewrite (Hall j Hjn). cbn [fst]. rewrite Hx0.
      pose proof (pos_INR j). lra. }
    destruct (Rltb _ x0) eqn:El; [apply Rltb_true in El; lra|].
    rewrite (@interp_right_knot rest x0 f0 j Hinc)
      by (cbn in Hcl; lia).
    rewrite (Hall j Hjn). reflexivity.
  - intros Hk j Hj. rewrite (Hrow j Hj).
    assert (Hjn : (S j < n)%nat) by lia.
    assert (EN : (INR n = 2 * IZR w + 1)%R).
    { rewrite Hk, S_INR, INR_IZR_INZ, Z2Nat.id, mult_IZR by lia.
      reflexivity. }
    unfold at_. change (fis_nan ?t) with false. cbv iota.
    change (fltb ?a x0) with (Rltb a x0).
    destruct (Rltb _ x0) eqn:El.
    { apply Rltb_true in El. rewrite Hx0 in El. pose proof (pos_INR j). lra. }
    rewrite (@interp_right_segment _ rest x0 f0 j Hinc).
    + rewrite (Hall j) by lia. rewrite (Hall (S j) Hjn). cbn [fst snd].
      replace (- INR n / 2 + INR (S j) - (- INR n / 2 + INR j))%R with 1%R
        by (rewrite S_INR; lra).
      replace (- IZR w + INR j - (- INR n / 2 + INR j))%R with (1 / 2)%R
        by lra.
      lra.
    + cbn in Hcl. lia.
    + rewrite (Hall j) by lia. rewrite (Hall (S j) Hjn). cbn [fst].
      rewrite S_INR. lra.
Qed.

Section Resampling.
Variables Image Kw : Type.
Variable profile_line : Image -> (R * R) -> (R * R) -> R -> Kw -> result (list R).
Variable kw_order : Z -> Kw.

(** The rows of [straightenPharynx] against the profiles of its scan
    lines: a row has [2 width] entries; it is the profile itself when the
    profile has [2 width] samples, and when the profile has [2 width + 1]
    samples (one per unit of length of a scan line, both ends included)
    entry [j] of the row is the mean of samples [j] and [j + 1]: the sample
    points of the row then lie half a step off those of the profile. *)
Theorem straightenPharynx_resampling (im : Image) (xstart xend : R)
    (a0 a1 a2 b0 b1 b2 : R) (ra rb : list R) (width nPts : Z) :
  (0 <= nPts)%Z ->
  (0 <= width)%Z ->
  (forall lines pts,
      scan_lines xstart xend (a0 :: a1 :: a2 :: ra) (b0 :: b1 :: b2 :: rb)
        width nPts = Ok lines ->
      In pts lines ->
      exists ky,
        profile_line im (fst pts) (snd pts) 1%R (kw_order 3) = Ok ky
        /\ ky <> []) ->
  exists lines kymo rows,
    scan_lines xstart xend (a0 :: a1 :: a2 :: ra) (b0 :: b1 :: b2 :: rb)
      width nPts = Ok lines
    /\ mapM (fun pts => profile_line im (fst pts) (snd pts) 1%R (kw_order 3))
            lines = Ok kymo
    /\ straightenPharynx profile_line kw_order im xstart xend
         (a0 :: a1 :: a2 :: ra) (b0 :: b1 :: b2 :: rb) width nPts = Ok rows
    /\ Forall2
         (fun ky row =>
            length row = Z.to_nat (2 * width)
            /\ (length ky = Z.to_nat (2 * width) -> row = ky)
            /\ (length ky = S (Z.to_nat (2 * width)) ->
                forall j, (j < Z.to_nat (2 * width))%nat ->
                          nth j row 0%R
                          = ((nth j ky 0 + nth (S j) ky 0) / 2)%R))
         kymo rows.
Proof.
  intros Hn Hw Hprof. unfold straightenPharynx.
  destruct (@scan_lines_ok _ _ xstart xend a0 a1 a2 b0 b1 b2 ra rb width nPts Hn)
    as (lines & Hlines & _).
  exists lines. rewrite Hlines. cbn [bind].
  match goal with |- context [mapM ?f lines] =>
    destruct (@mapM_all_ok _ _ (fun ky => ky <> []) f lines)
      as (kymo & Hk & _ & Hne)
  end.
  { intros pts Hin. exact (Hprof lines pts Hlines Hin). }
  exists kymo.
  change (of_Z 1) with 1%R. rewrite Hk. cbn [bind].
  match goal with |- context [mapM ?f kymo] =>
    destruct (@mapM_Forall2 _ _
                (fun ky row =>
                   length row = Z.to_nat (2 * width)
                   /\ (length ky = Z.to_nat (2 * width) -> row = ky)
                   /\ (length ky = S (Z.to_nat (2 * width)) ->
                       forall j, (j < Z.to_nat (2 * width))%nat ->
                                 nth j row 0%R
                                 = ((nth j ky 0 + nth (S j) ky 0) / 2)%R))
                f kymo) as (rows & -> & Hrows)
  end.
  { intros ky Hky. rewrite Forall_forall in Hne.
    apply resample_row; [exact Hw|now apply Hne]. }
  exists rows. repeat split; try reflexivity. exact Hrows.
Qed.

End Resampling.

Lemma straightenPharynx_resampling_witness :
  exists lines kymo rows,
    scan_lines 0%R 10%R [0; 3; 0]%R [0; 4; 0]%R 1 5 = Ok lines
    /\ mapM (fun pts =>
               Exact.profile_line (fun p : R * R => (fst p + snd p)%R)
                 (fst pts) (snd pts) 1%R 3%Z) lines = Ok kymo
    /\ straightenPharynx Exact.profile_line (fun n => n)
         (fun p : R * R => (fst p + snd p)%R) 0%R 10%R
         [0; 3; 0]%R [0; 4; 0]%R 1 5 = Ok rows
    /\ Forall2
         (fun ky row =>
            length row = Z.to_nat (2 * 1)
            /\ (length ky = Z.to_nat (2 * 1) -> row = ky)
            /\ (length ky = S (Z.to_nat (2 * 1)) ->
                forall j, (j < Z.to_nat (2 * 1))%nat ->
                          nth j row 0%R
                          = ((nth j ky 0 + nth (S j) ky 0) / 2)%R))
         kymo rows.
Proof.
  apply (@straightenPharynx_resampling _ _ Exact.profile_line (fun n => n)
           (fun p : R * R => (fst p + snd p)%R) 0%R 10%R
           0%R 3%R 0%R 0%R 4%R 0%R [] [] 1%Z 5%Z).
  - lia.
  - lia.
  - intros lines pts _ _. eexists. split; [reflexivity|discriminate].
Defined.

(** ** The claims on widths and normals, on IEEE doubles *)

Module FloatNoNaN.

Lemma shr_1_nonneg (mrs : shr_record) :
  (0 <= shr_m mrs)%Z -> (0 <= shr_m (shr_1 mrs))%Z.
Proof.
  destruct mrs as [m r s]. cbn [shr_m]. intros H.
  destruct m as [|[p|p|]|p]; cbn; lia.
Qed.

Lemma iter_shr_1_nonneg (p : positive) :
  forall mrs, (0 <= shr_m mrs)%Z ->
              (0 <= shr_m (SpecFloat.iter_pos shr_1 p mrs))%Z.
Proof.
  induction p as [p IH|p IH|]; intros mrs H; cbn [SpecFloat.iter_pos].
  - apply IH, IH, shr_1_nonneg, H.
  - apply IH, IH, H.
  - apply shr_1_nonneg, H.
Qed.

Lemma shr_fexp_nonneg (m e : Z) (l : location) :
  (0 <= m)%Z -> (0 <= shr_m (fst (shr_fexp prec emax m e l)))%Z.
Proof.
  intros H. unfold shr_fexp, shr.
  assert (H0 : (0 <= shr_m (shr_record_of_loc m l))%Z)
    by (destruct l as [|[| |]]; exact H).
  destruct (_ - e)%Z; cbn [fst]; try exact H0.
  now apply iter_shr_1_nonneg.
Qed.

Lemma round_nearest_even_nonneg (m : Z) (l : location) :
  (0 <= m)%Z -> (0 <= round_nearest_even m l)%Z.
Proof.
  intros H. destruct l as [|[| |]]; cbn; try lia.
  destruct (Z.even m); lia.
Qed.

(** Rounding a mantissa that is not negative never yields a NaN. *)
Lemma binary_round_aux_not_nan (s : bool) (m e : Z) (l : location) :
  (0 <= m)%Z -> binary_round_aux prec emax s m e l <> S754_nan.
Proof.
  intros H. unfold binary_round_aux.
  pose proof (@shr_fexp_nonneg m e l H) as H1.
  destruct (shr_fexp prec emax m e l) as [mrs' e']. cbn [fst] in H1.
  pose proof (@shr_fexp_nonneg _ e' loc_Exact
                (@round_nearest_even_nonneg _ (loc_of_shr_record mrs') H1)) as H2.
  destruct (shr_fexp prec emax _ e' loc_Exact) as [mrs'' e'']. cbn [fst] in H2.
  destruct (shr_m mrs''); [discriminate| |lia].
  destruct (Z.leb e'' _); discriminate.
Qed.

Lemma binary_normalize_not_nan (m e : Z) (sz : bool) :
  binary_normalize prec emax m e sz <> S754_nan.
Proof.
  unfold binary_normalize, binary_round.
  destruct m as [|p|p]; [discriminate| |];
    destruct (shl_align _ _ _) as [mz ez];
    apply binary_round_aux_not_nan; lia.
Qed.

Lemma SFsub_not_nan (x y : spec_float) :
  SF_finite x -> SF_finite y -> SF64sub x y <> S754_nan.
Proof.
  unfold SF64sub, SFsub.
  destruct x as [sx|sx| |sx mx ex], y as [sy|sy| |sy my ey];
    cbn [SF_finite]; intros Hx Hy; try contradiction; try discriminate.
  - destruct sx, sy; discriminate.
  - cbv zeta. apply binary_normalize_not_nan.
Qed.

Lemma SFmul_self_not_nan (d : spec_float) :
  d <> S754_nan -> SF64mul d d <> S754_nan.
Proof.
  unfold SF64mul, SFmul. destruct d as [s|s| |s m e]; intros H;
    try discriminate; try contradiction.
  apply binary_round_aux_not_nan. lia.
Qed.

Lemma SFadd_not_nan (x y : spec_float) :
  signed_as false x -> signed_as false y ->
  x <> S754_nan -> y <> S754_nan -> SF64add x y <> S754_nan.
Proof.
  unfold SF64add, SFadd.
  destruct x as [sx|sx| |sx mx ex], y as [sy|sy| |sy my ey];
    cbn [signed_as]; intros Sx Sy Hx Hy; subst;
    try discriminate; try contradiction.
  cbv zeta. apply binary_normalize_not_nan.
Qed.

Lemma SFsqrt_not_nan (x : spec_float) :
  signed_as false x -> x <> S754_nan -> SF64sqrt x <> S754_nan.
Proof.
  unfold SF64sqrt, SFsqrt.
  destruct x as [s|s| |s m e]; cbn [signed_as]; intros S H; subst;
    try discriminate; try contradiction.
  unfold SFsqrt_core_binary.
  set (m' := match (e - 2 * _)%Z with Z0 => _ | Zpos _ => _ | Zneg _ => _ end).
  assert (Hm : (0 <= m')%Z).
  { unfold m'. destruct (e - 2 * _)%Z; try lia.
    apply Z.shiftl_nonneg. lia. }
  pose proof (Z.sqrtrem_spec m' Hm) as Hs.
  destruct (Z.sqrtrem m') as [q r].
  apply binary_round_aux_not_nan. lia.
Qed.

Lemma is_finite_SF (x : float) :
  PrimFloat.is_finite x = true -> SF_finite (Prim2SF x).
Proof.
  intros H. destruct (@FloatFinite.is_finite_spec x H) as (s & [E|(m & e & E)]);
    rewrite E; exact I.
Qed.

(** The root of the sum of the squared differences of finite doubles is
    [>= 0]: it is no NaN (it is [+infinity] when the squares overflow). *)
Lemma length_of_finite_nonneg (x1 y1 x2 y2 : float) :
  PrimFloat.is_finite x1 = true -> PrimFloat.is_finite y1 = true ->
  PrimFloat.is_finite x2 = true -> PrimFloat.is_finite y2 = true ->
  PrimFloat.leb 0 (ieee_length (x1, y1) (x2, y2)) = true.
Proof.
  intros Hx1 Hy1 Hx2 Hy2. unfold ieee_length. cbn [fst snd].
  set (dx := PrimFloat.sub x2 x1). set (dy := PrimFloat.sub y2 y1).
  assert (Ndx : Prim2SF dx <> S754_nan).
  { unfold dx. rewrite FloatAxioms.sub_spec.
    apply SFsub_not_nan; now apply is_finite_SF. }
  assert (Ndy : Prim2SF dy <> S754_nan).
  { unfold dy. rewrite FloatAxioms.sub_spec.
    apply SFsub_not_nan; now apply is_finite_SF. }
  set (r := PrimFloat.sqrt _).
  assert (Sr : signed_as false (Prim2SF r)).
  { unfold r.
    rewrite FloatAxioms.sqrt_spec, FloatAxioms.add_spec, !FloatAxioms.mul_spec.
    apply FloatSign.SFsqrt_sign, FloatSign.SFadd_sign;
      apply FloatSign.SFmul_self_sign. }
  assert (Nr : Prim2SF r <> S754_nan).
  { unfold r.
    rewrite FloatAxioms.sqrt_spec, FloatAxioms.add_spec, !FloatAxioms.mul_spec.
    apply SFsqrt_not_nan.
    - apply FloatSign.SFadd_sign; apply FloatSign.SFmul_self_sign.
    - apply SFadd_not_nan; try apply FloatSign.SFmul_self_sign;
        now apply SFmul_self_not_nan. }
  destruct (@FloatSign.signed_false_nonneg r Sr) as [N|L]; [|exact L].
  apply FloatFacts.is_nan_spec in N. contradiction.
Qed.

End FloatNoNaN.

(** *** C6: scalar widths *)

(** C6, as the code has it.  On doubles every entry of [scalarWidth] is
    the root of the sum of the squared coordinate differences of its
    segment, evaluated in double arithmetic; it is never below 0: it is
    [>= 0] whenever the four coordinates of the segment are finite, and a
    NaN or [>= 0] otherwise; exchanging the end points of any of the
    segments leaves the result as it is, bit for bit.  In exact arithmetic
    that root is the Euclidean distance of the end points. *)
Theorem scalarWidth_root_of_squares :
  (forall widths : list ((float * float) * (float * float)),
      scalarWidth widths = map (fun w => [ieee_length (fst w) (snd w)]) widths
      /\ Forall (Forall (fun v => PrimFloat.is_nan v = true
                                  \/ PrimFloat.leb 0 v = true))
                (scalarWidth widths)
      /\ (Forall (fun w => finite_point (fst w) /\ finite_point (snd w)) widths ->
          Forall (Forall (fun v => PrimFloat.leb 0 v = true))
                 (scalarWidth widths))
      /\ (forall mask : list bool,
            scalarWidth (swap_where mask widths) = scalarWidth widths))
  /\ (forall widths : list ((R * R) * (R * R)),
        scalarWidth widths = map (fun w => [dist (fst w) (snd w)]) widths).
Proof.
  split.
  - intros widths.
    assert (E : scalarWidth widths
                = map (fun w => [ieee_length (fst w) (snd w)]) widths)
      by reflexivity.
    split; [exact E|]. split; [apply (scalarWidth_doubles widths)|].
    split; [|apply (scalarWidth_doubles widths)].
    intros Hfin. rewrite E. apply Forall_map.
    apply (Forall_impl _ (P := fun w => finite_point (fst w)
                                        /\ finite_point (snd w)));
      [|exact Hfin].
    intros [[x1 y1] [x2 y2]] [[Hx1 Hy1] [Hx2 Hy2]]. cbn [fst snd] in *.
    constructor; [|constructor].
    now apply FloatNoNaN.length_of_finite_nonneg.
  - intros widths. apply (scalarWidth_distance widths).
Qed.

Lemma scalarWidth_root_of_squares_witness :
  Forall (Forall (fun v => PrimFloat.leb 0 v = true))
         (scalarWidth [((0, 0), (3, 4)); ((1, 1), (1, 1))]%float).
Proof.
  apply (proj1 (proj2 (proj2
           (proj1 scalarWidth_root_of_squares
                  [((0, 0), (3, 4)); ((1, 1), (1, 1))]%float)))).
  repeat constructor.
Defined.

(** C6 as the specification words it fails on doubles: between the
    distinct points (0, 0) and (2^-600, 0) the value returned is 0, not
    their distance; between (0, 0) and (2^600, 0) it is +infinity; and with
    a NaN coordinate it is a NaN, which is not [>= 0]. *)
Lemma scalarWidth_root_of_squares_counterexample :
  scalarWidth [((0, 0), (0x1p-600, 0))]%float = [[0%float]]
  /\ PrimFloat.eqb 0x1p-600 0 = false
  /\ scalarWidth [((0, 0), (0x1p600, 0))]%float = [[infinity]]
  /\ scalarWidth [((nan, 0), (0, 0))]%float = [[nan]]
  /\ PrimFloat.leb 0 nan = false.
Proof. vm_compute. repeat split. Qed.

(** *** C5: the ends of the width segments *)

Lemma angle_ieee (c n q : float * float) :
  angle c n q = ieee_angle_score c n q.
Proof. reflexivity. Qed.

Lemma no_nan_Forall (l : list float) :
  no_nan l -> Forall (fun x => PrimFloat.is_nan x = false) l.
Proof.
  intros H. apply Forall_forall. intros x Hx.
  destruct (In_nth _ _ 0%float Hx) as (j & Hj & <-). now apply H.
Qed.

(** C5, as the code has it.  On doubles, for a contour that is not empty
    and one normal per centerline point, [widthPharynx] returns for every
    centerline point the pair of contour points at two indices [c1] and
    [c2] of the contour.  When no angle score of that column is a NaN,
    [c1] is the first index at which the score is least and [c2] the first
    index at which it is greatest.  When some score of the column is a NaN,
    [c1] and [c2] are both the index of the first NaN. *)
Theorem widthPharynx_argmin_argmax (cl contour dCl : list (float * float)) :
  contour <> [] ->
  length dCl = length cl ->
  exists widths,
    widthPharynx cl contour dCl = Ok widths
    /\ Forall2
         (fun (cn : (float * float) * (float * float))
              (w : (float * float) * (float * float)) =>
            let scores := map (ieee_angle_score (fst cn) (snd cn)) contour in
            exists c1 c2,
              w = (nth c1 contour (0, 0)%float, nth c2 contour (0, 0)%float)
              /\ (c1 < length contour)%nat /\ (c2 < length contour)%nat
              /\ (no_nan scores ->
                  first_least binary64 scores c1
                  /\ first_least (flipped binary64) scores c2)
              /\ (forall k, first_nan scores k -> c1 = k /\ c2 = k))
         (combine cl dCl) widths.
Proof.
  intros Hne Hlen.
  rewrite (@widthPharynx_columns float binary64 cl contour dCl Hne Hlen).
  apply mapM_Forall2. intros [c n] _. cbv zeta. cbn [fst snd].
  rewrite (map_ext (angle c n) (ieee_angle_score c n))
    by (intros q; apply angle_ieee).
  set (scores := map (ieee_angle_score c n) contour).
  assert (Hs : scores <> [])
    by (unfold scores; destruct contour; [contradiction|discriminate]).
  assert (L : length scores = length contour) by apply length_map.
  destruct (@argmin_in_range float binary64 scores Hs) as (c1 & E1 & B1).
  destruct (@argmax_in_range float binary64 scores Hs) as (c2 & E2 & B2).
  rewrite E1, E2. cbn [bind].
  rewrite (getitem_nth contour (0, 0)%float) by lia.
  rewrite (getitem_nth contour (0, 0)%float) by lia.
  cbn [bind]. eexists. split; [reflexivity|].
  exists c1, c2. split; [reflexivity|]. split; [lia|]. split; [lia|]. split.
  - intros Hnn. apply no_nan_Forall in Hnn.
    destruct (@argmin_first_least float binary64
                (fun x => PrimFloat.is_nan x = false)
                (fun x H => H)
                (fun x y => @FloatOrder.leb_total x y)
                (fun x y z _ _ _ => @FloatOrder.leb_trans x y z)
                scores Hnn Hs) as (k1 & K1 & F1).
    destruct (@argmax_first_greatest float binary64
                (fun x => PrimFloat.is_nan x = false) scores
                (fun x H => H)
                (fun x y => @FloatOrder.leb_total x y)
                (fun x y z _ _ _ => @FloatOrder.leb_trans x y z)
                Hnn Hs) as (k2 & K2 & F2).
    rewrite E1 in K1. rewrite E2 in K2.
    injection K1 as <-. injection K2 as <-. split; assumption.
  - intros k Hk.
    rewrite (argmin_first_nan Hk) in E1. rewrite (argmax_first_nan Hk) in E2.
    injection E1 as <-. injection E2 as <-. split; reflexivity.
Qed.

Lemma widthPharynx_argmin_argmax_witness :
  exists widths,
    widthPharynx [(0, 0); (1, 0)]%float [(0, 1); (0, -1); (1, 2)]%float
                 [(0, 1); (0, 1)]%float = Ok widths
    /\ Forall2
         (fun (cn : (float * float) * (float * float))
              (w : (float * float) * (float * float)) =>
            let scores :=
              map (ieee_angle_score (fst cn) (snd cn))
                  [(0, 1); (0, -1); (1, 2)]%float in
            exists c1 c2,
              w = (nth c1 [(0, 1); (0, -1); (1, 2)]%float (0, 0)%float,
                   nth c2 [(0, 1); (0, -1); (1, 2)]%float (0, 0)%float)
              /\ (c1 < length [(0, 1); (0, -1); (1, 2)]%float)%nat
              /\ (c2 < length [(0, 1); (0, -1); (1, 2)]%float)%nat
              /\ (no_nan scores ->
                  first_least binary64 scores c1
                  /\ first_least (flipped binary64) scores c2)
              /\ (forall k, first_nan scores k -> c1 = k /\ c2 = k))
         (combine [(0, 0); (1, 0)]%float [(0, 1); (0, 1)]%float) widths.
Proof.
  apply (@widthPharynx_argmin_argmax [(0, 0); (1, 0)]%float
           [(0, 1); (0, -1); (1, 2)]%float [(0, 1); (0, 1)]%float).
  - discriminate.
  - reflexivity.
Defined.

(** C5 as the specification words it fails.  For the centerline point
    (0, 0) with normal (0, 1) the contour points (0, 1), (0, 0), (0, -1)
    score -1, NaN and 1; the segment returned has the contour point of the
    NaN score at both ends, neither the point of the least score nor that
    of the greatest.  And on a contour without a point the call raises
    ValueError and returns no pair at all. *)
Lemma widthPharynx_argmin_argmax_counterexample :
  map (ieee_angle_score (0, 0)%float (0, 1)%float)
      [(0, 1); (0, 0); (0, -1)]%float
  = [(-1)%float; nan; 1%float]
  /\ widthPharynx [(0, 0)]%float [(0, 1); (0, 0); (0, -1)]%float [(0, 1)]%float
     = Ok [((0, 0), (0, 0))]%float
  /\ widthPharynx [(0, 0)]%float [] [(0, 1)]%float = Raise ValueError.
Proof. vm_compute. repeat split. Qed.

(** *** C2: the normals *)



